(** * Chaerea passphrase generator: a shallow embedding of [app.js]

    The development follows the layout of the script: the character and
    string primitives of the language the script relies on, the phonetic
    table and [garbledVariants], the rejection sampler, the passphrase
    builder, the digit insertion of [generateAndDisplay], and the counting of
    the search space with its strength in bits.

    Modelling conventions.
    - JavaScript numbers that hold integers (lengths, counts, indices, draws)
      and BigInts are [Z]; BigInt division is [Z.quot], [%] is [Z.rem].
    - Strings are [string]; a character is an [ascii], and the case
      conversions are those of the ASCII letters.
    - Arrays are lists, read with [!!] and updated with [<[_:=_]>].
    - The object [PHONETIC_MAP] is a [gmap] from characters to characters.
    - A JavaScript [Set] is its insertion-ordered list of distinct members,
      which is what [Array.from] returns.
    - [crypto.getRandomValues] is a list of future draws that the code
      consumes from the front; a computation either returns a value and the
      remaining draws, throws, or is still looping when the draws run out. *)

From Stdlib Require Import ZArith Lia List Ascii String DecimalString.
From stdpp Require Import base list gmap strings.
Import ListNotations.

(** ** Language primitives *)

Module JS.

Definition isLowerLetter (c : ascii) : bool :=
  let n := N_of_ascii c in (97 <=? n)%N && (n <=? 122)%N.

Definition isUpperLetter (c : ascii) : bool :=
  let n := N_of_ascii c in (65 <=? n)%N && (n <=? 90)%N.

(** [ch.toUpperCase()] and [ch.toLowerCase()] on one character. *)
Definition toUpperCase (c : ascii) : ascii :=
  if isLowerLetter c then ascii_of_N (N_of_ascii c - 32) else c.

Definition toLowerCase (c : ascii) : ascii :=
  if isUpperLetter c then ascii_of_N (N_of_ascii c + 32) else c.

(** [arr.join(sep)] on an array of strings. *)
Definition join (sep : string) (parts : list string) : string :=
  String.concat sep parts.

(** [s.split(sep)] for a non-empty [sep]: scan left to right, cut at every
    occurrence, resume after it. [skip] counts the characters of the
    occurrence still to be passed over, [cur] is the current part,
    reversed. *)
Fixpoint splitFrom (sep : string) (skip : nat) (cur : list ascii)
    (s : string) : list string :=
  match s with
  | EmptyString => [string_of_list_ascii (rev cur)]
  | String c s' =>
      match skip with
      | S k => splitFrom sep k cur s'
      | O =>
          if String.prefix sep s
          then string_of_list_ascii (rev cur)
                 :: splitFrom sep (String.length sep - 1) [] s'
          else splitFrom sep 0 (c :: cur) s'
      end
  end.

(** [s.split(sep)]; an empty separator cuts between all characters. *)
Definition split (s sep : string) : list string :=
  match sep with
  | EmptyString => map (fun c => String c EmptyString) (list_ascii_of_string s)
  | String _ _ => splitFrom sep 0 [] s
  end.

(** [arr.splice(pos, 0, item)]: insertion; a position past the end is
    clamped to the end. *)
Definition splice_insert {A} (pos : nat) (item : A) (arr : list A) : list A :=
  take pos arr ++ item :: drop pos arr.

(** [n.toString()] and string concatenation with an integer number. *)
Definition toString (n : Z) : string :=
  NilZero.string_of_int (Z.to_int n).

(** Double-precision values that the script can obtain from a BigInt:
    integers, or an infinity. *)
Inductive Number : Type :=
| Finite (v : Z)
| PosInfinity
| NegInfinity.

Local Open Scope Z_scope.

(** Round a non-negative integer to 53 significant bits, to nearest, ties
    to even. *)
Definition roundToDouble (c : Z) : Z :=
  let n := Z.log2 c + 1 in
  if n <=? 53 then c
  else
    let shift := n - 53 in
    let q := Z.shiftr c shift in
    let r := Z.land c (Z.ones shift) in
    let half := 2 ^ (shift - 1) in
    let q' := if (half <? r) || ((r =? half) && Z.odd q) then q + 1 else q in
    q' * 2 ^ shift.

(** [Number(b)] for a BigInt [b]. *)
Definition NumberOfBigInt (b : Z) : Number :=
  if b <? 0
  then let d := roundToDouble (- b) in
       if 2 ^ 1024 <=? d then NegInfinity else Finite (- d)
  else let d := roundToDouble b in
       if 2 ^ 1024 <=? d then PosInfinity else Finite d.

(** The value of [Math.log2]. For a finite positive argument [d] the
    engine returns some finite double close to the logarithm of [d]; that
    double is kept symbolic as [Log2Of d]. *)
Inductive Log2Value : Type :=
| Log2Of (d : Z)
| Log2PosInfinity
| Log2NegInfinity
| Log2NaN.

Definition Math_log2 (x : Number) : Log2Value :=
  match x with
  | Finite v =>
      if v <? 0 then Log2NaN
      else if v =? 0 then Log2NegInfinity
      else Log2Of v
  | PosInfinity => Log2PosInfinity
  | NegInfinity => Log2NaN
  end.

Definition isFiniteLog2 (l : Log2Value) : bool :=
  match l with Log2Of _ => true | _ => false end.

(** A [Uint32Array] cell keeps the low 32 bits of what is stored. *)
Definition uint32 (x : Z) : Z := x mod 2 ^ 32.

End JS.

(** ** Garbling rules *)

Definition PHONETIC_MAP : gmap ascii ascii :=
  list_to_map
    [ ("a", "e"); ("b", "p"); ("c", "k"); ("d", "t"); ("e", "i");
      ("f", "v"); ("g", "j"); ("i", "y"); ("j", "g"); ("k", "c");
      ("l", "r"); ("m", "n"); ("n", "m"); ("o", "u"); ("p", "b");
      ("q", "k"); ("r", "l"); ("s", "z"); ("t", "d"); ("u", "o");
      ("v", "w"); ("w", "v"); ("x", "z"); ("y", "i"); ("z", "s") ]%char.

(** The 26 lowercase letters. *)
Definition lowercaseLetters : list ascii :=
  map (fun n => ascii_of_nat (97 + n)) (seq 0 26).

(** Pairs of distinct letters that share a replacement. *)
Definition sharedReplacement : list (ascii * ascii) :=
  [ ("c", "q"); ("e", "y"); ("f", "w"); ("s", "x") ]%char.

(** [results.add(x)] on a [Set] kept in insertion order. *)
Definition set_add (x : string) (results : list string) : list string :=
  if bool_decide (x ∈ results) then results else results ++ [x].

(** The replacement character computed for [ch], when the callback does not
    return early: [ch] must have an entry and the replacement must differ
    from [ch]. *)
Definition replacement (ch : ascii) : option ascii :=
  let lower := JS.toLowerCase ch in
  match PHONETIC_MAP !! lower with
  | None => None
  | Some mapped =>
      let rep :=
        if Ascii.eqb ch (JS.toUpperCase ch) then JS.toUpperCase mapped else mapped in
      if Ascii.eqb rep ch then None else Some rep
  end.

(** What a member of the result looks like: one position of the word
    rewritten with the replacement of the character found there. *)
Definition variantOf (word v : string) : Prop :=
  ∃ (i : nat) (ch rep : ascii),
    list_ascii_of_string word !! i = Some ch
    ∧ replacement ch = Some rep
    ∧ v = string_of_list_ascii (<[i := rep]> (list_ascii_of_string word))
    ∧ v ≠ word.

(** One call of the [forEach] callback of [garbledVariants]. *)
Definition garbleStep (word : string) (letters : list ascii)
    (results : list string) (idx : nat) (ch : ascii) : list string :=
  match replacement ch with
  | None => results
  | Some rep =>
      let copy := <[idx := rep]> letters in
      let candidate := string_of_list_ascii copy in
      if String.eqb candidate word then results else set_add candidate results
  end.

Definition garbledVariants (word : string) : list string :=
  let letters := list_ascii_of_string word in
  foldl (fun results p => garbleStep word letters results (fst p) (snd p))
        [] (imap pair letters).

(** [getEffectiveWordList], as a function of the two pieces of page state it
    reads: [activeWords] and the parsed value of the garble control. *)
Definition getEffectiveWordList (activeWords : list string) (garbleMax : Z)
    : list string :=
  if (garbleMax >? 0)%Z then
    let set := foldl (fun s w => set_add w s) [] activeWords in
    foldl (fun s w => foldl (fun s' v => set_add v s') s (garbledVariants w))
          set activeWords
  else activeWords.


(** ** Crypto RNG *)

Inductive JSError : Type :=
| RangeError
| TypeError.

(** What a computation that draws random numbers does on a given supply of
    draws: it returns a value and the unused draws, throws, or is still
    asking for draws when the supply ends. *)
Inductive outcome (A : Type) : Type :=
| Returned (a : A) (rest : list Z)
| Thrown (e : JSError)
| Starved.

Arguments Returned {A} a rest.
Arguments Thrown {A} e.
Arguments Starved {A}.

Definition Rand (A : Type) : Type := list Z -> outcome A.

Definition ret {A} (a : A) : Rand A := fun draws => Returned a draws.

Definition throw {A} (e : JSError) : Rand A := fun _ => Thrown e.

Definition bind {A B} (m : Rand A) (k : A -> Rand B) : Rand B :=
  fun draws =>
    match m draws with
    | Returned a rest => k a rest
    | Thrown e => Thrown e
    | Starved => Starved
    end.

Notation "x <- m ;; k" := (bind m (fun x => k))
  (at level 100, m at next level, right associativity).

Local Open Scope Z_scope.

(** The [do ... while (value >= limit)] loop: each turn reads one fresh
    32-bit draw. *)
Fixpoint drawBelow (limit : Z) (draws : list Z) : outcome Z :=
  match draws with
  | [] => Starved
  | raw :: rest =>
      let value := JS.uint32 raw in
      if value >=? limit then drawBelow limit rest else Returned value rest
  end.

(** [Math.floor(0xffffffff / max) * max]. For [0 < max <= 0xffffffff] the
    floating-point quotient floors to the integer quotient. *)
Definition samplerLimit (max : Z) : Z := 4294967295 / max * max.

Definition getSecureRandomIndex (max : Z) : Rand Z :=
  if max <=? 0 then throw RangeError
  else
    let limit := samplerLimit max in
    value <- drawBelow limit ;;
    ret (Z.rem value max).

(** ** Passphrase generation *)

(** [for (let i = from; i < to; i++) body], threading the loop state. *)
Fixpoint forUpSteps {S} (steps : nat) (i : Z) (body : Z -> S -> Rand S)
    (s : S) : Rand S :=
  match steps with
  | O => ret s
  | Datatypes.S n => s' <- body i s ;; forUpSteps n (i + 1) body s'
  end.

Definition forUp {S} (from to : Z) (body : Z -> S -> Rand S) (s : S) : Rand S :=
  forUpSteps (Z.to_nat (to - from)) from body s.

(** [for (let i = from; i > 0; i--) body]. *)
Fixpoint forDownSteps {S} (steps : nat) (i : Z) (body : Z -> S -> Rand S)
    (s : S) : Rand S :=
  match steps with
  | O => ret s
  | Datatypes.S n => s' <- body i s ;; forDownSteps n (i - 1) body s'
  end.

Definition forDown {S} (from : Z) (body : Z -> S -> Rand S) (s : S) : Rand S :=
  forDownSteps (Z.to_nat from) from body s.

(** [words[getSecureRandomIndex(words.length)]]. The index is always in
    range; reading [undefined] would make the later [w.length] throw. *)
Definition pickWord (words : list string) : Rand string :=
  i <- getSecureRandomIndex (Z.of_nat (length words)) ;;
  match words !! Z.to_nat i with
  | Some w => ret w
  | None => throw TypeError
  end.

(** [[picked[i], picked[j]] = [picked[j], picked[i]]]; both indices are in
    range when the shuffle runs. *)
Definition swap (i j : nat) (picked : list string) : list string :=
  match picked !! i, picked !! j with
  | Some a, Some b => <[j := a]> (<[i := b]> picked)
  | _, _ => picked
  end.

(** [w.length > 0 ? w[0].toUpperCase() + w.slice(1) : w]. *)
Definition capitalize (w : string) : string :=
  match w with
  | EmptyString => w
  | String c rest => String (JS.toUpperCase c) rest
  end.

(** The words of a passphrase before they are joined. [activeWords] and
    [garbleSetting] are the page state read by [getEffectiveWordList]. *)
Definition pickWords (activeWords : list string) (garbleSetting : Z)
    (baseWords : list string) (count garbleMax : Z) : Rand (list string) :=
  picked <-
    (if garbleMax >? 0 then
       let garbledWords := getEffectiveWordList activeWords garbleSetting in
       forUp 0 garbleMax
         (fun _ picked => w <- pickWord garbledWords ;; ret (picked ++ [w])) []
     else ret []) ;;
  picked <-
    forUp garbleMax count
      (fun _ picked => w <- pickWord baseWords ;; ret (picked ++ [w])) picked ;;
  picked <-
    forDown (Z.of_nat (length picked) - 1)
      (fun i picked =>
         j <- getSecureRandomIndex (i + 1) ;;
         ret (swap (Z.to_nat i) (Z.to_nat j) picked)) picked ;;
  ret (map capitalize picked).

Definition generatePassphrase (activeWords : list string) (garbleSetting : Z)
    (baseWords : list string) (count : Z) (separator : string) (garbleMax : Z)
    : Rand string :=
  finalWords <- pickWords activeWords garbleSetting baseWords count garbleMax ;;
  ret (JS.join separator finalWords).

(** ** Counting the search space *)

(** The loop of [binomialBig]: [steps] turns remain, [i] is the loop
    variable, [res] the accumulator; [k] is already [min(k, n - k)]. *)
Fixpoint binomialLoop (n k : Z) (steps : nat) (i : Z) (res : Z) : Z :=
  match steps with
  | O => res
  | Datatypes.S m =>
      binomialLoop n k m (i + 1) (Z.quot (res * (n - k + i)) i)
  end.

Definition binomialBig (n k : Z) : Z :=
  if (k <? 0) || (k >? n) then 0
  else
    let k := Z.min k (n - k) in
    binomialLoop n k (Z.to_nat k) 1 1.

(** The loop [for (let k = 0; k <= maxG; k++) possible += term]. *)
Fixpoint sumTerms (Vn Bn count : Z) (steps : nat) (k : Z) (possible : Z) : Z :=
  match steps with
  | O => possible
  | Datatypes.S m =>
      let comb := binomialBig count k in
      let term := comb * Vn ^ k * Bn ^ (count - k) in
      sumTerms Vn Bn count m (k + 1) (possible + term)
  end.

(** The count shown by [generateAndDisplay]. [baseSize] and [effectiveSize]
    are [activeWords.length] and [wordsForGen.length]. *)
Definition possibleCount (baseSize effectiveSize count garbleMax : Z)
    (includeSetting : string) : Z :=
  let Bn := baseSize in
  let En := effectiveSize in
  let Vn := if En >=? Bn then En - Bn else 0 in
  let maxG := Z.max 0 (Z.min garbleMax count) in
  let possible := sumTerms Vn Bn count (Z.to_nat (maxG + 1)) 0 0 in
  let includeNumber := negb (String.eqb includeSetting "none") in
  if includeNumber then
    let possible := possible * 10 in
    if String.eqb includeSetting "anywhere" then possible * (count + 1)
    else possible
  else possible.

(** [Math.log2(Number(possible))]. *)
Definition strengthBits (possible : Z) : JS.Log2Value :=
  JS.Math_log2 (JS.NumberOfBigInt possible).

(** ** The page: validation, passphrase, digit, count and strength *)

Record Controls : Type := {
  activeWords : list string;
  wordCount : option Z;          (* [parseInt(...)]; [None] is [NaN] *)
  separatorValue : string;
  garbleSetting : Z;             (* [parseInt(...) || 0], 0 without the control *)
  includeSetting : string        (* 'end', 'anywhere', 'none' *)
}.

Record Display : Type := {
  passphraseText : string;
  possibleText : Z;
  strengthValue : JS.Log2Value
}.

(** The digit step of [generateAndDisplay]. *)
Definition addDigit (includeSetting separator passphrase : string) : Rand string :=
  let includeNumber := negb (String.eqb includeSetting "none") in
  if includeNumber then
    digit <- getSecureRandomIndex 10 ;;
    if String.eqb includeSetting "end" then
      ret (passphrase ++ separator ++ JS.toString digit)%string
    else if String.eqb includeSetting "anywhere" then
      let parts := JS.split passphrase separator in
      pos <- getSecureRandomIndex (Z.of_nat (length parts) + 1) ;;
      let parts := JS.splice_insert (Z.to_nat pos) (JS.toString digit) parts in
      ret (JS.join separator parts)
    else ret passphrase
  else ret passphrase.

(** [generateAndDisplay]: a validation message, or what is displayed. *)
Definition generateAndDisplay (c : Controls) : Rand (string + Display) :=
  let wordsForGen := getEffectiveWordList (activeWords c) (garbleSetting c) in
  match wordCount c with
  | None => ret (inl "Word count must be at least 1."%string)
  | Some count =>
      if count <? 1 then ret (inl "Word count must be at least 1."%string)
      else if Z.of_nat (length wordsForGen) =? 0 then
        ret (inl "The word list is empty. Add words or reset to default."%string)
      else if Z.of_nat (length wordsForGen) <? count then
        ret (inl ("Not enough words ("
                    ++ JS.toString (Z.of_nat (length wordsForGen))
                    ++ ") for a " ++ JS.toString count
                    ++ "-word passphrase. Add more words or reduce the count.")%string)
      else
        let garbleMax := garbleSetting c in
        passphrase <-
          generatePassphrase (activeWords c) (garbleSetting c)
            (activeWords c) count (separatorValue c) garbleMax ;;
        passphrase <- addDigit (includeSetting c) (separatorValue c) passphrase ;;
        let possible :=
          possibleCount (Z.of_nat (length (activeWords c)))
            (Z.of_nat (length wordsForGen)) count garbleMax (includeSetting c) in
        ret (inr {| passphraseText := passphrase;
                    possibleText := possible;
                    strengthValue := strengthBits possible |})
  end.

(** The passphrase shown, when the run gets as far as showing one. *)
Definition shownPassphrase (o : outcome (string + Display)) : option string :=
  match o with
  | Returned (inr d) _ => Some (passphraseText d)
  | _ => None
  end.

(** ** Reference definitions

    The quantities the specification names, written from its words, to be
    compared with what the script computes. *)

(** Binomial coefficient by Pascal's rule. *)
Fixpoint choose (n k : nat) : nat :=
  match n, k with
  | _, O => 1
  | O, Datatypes.S _ => 0
  | Datatypes.S n', Datatypes.S k' => choose n' k' + choose n' k
  end%nat.

(** [C(n, k)] for integers: zero outside [0 <= k <= n]. *)
Definition binomial (n k : Z) : Z :=
  if (k <? 0) || (k >? n) then 0
  else Z.of_nat (choose (Z.to_nat n) (Z.to_nat k)).

Inductive DigitPolicy : Type :=
| NoDigit
| AtEnd
| Anywhere.

(** The value of the "include number" control for each policy. *)
Definition settingOf (p : DigitPolicy) : string :=
  match p with
  | NoDigit => "none"
  | AtEnd => "end"
  | Anywhere => "anywhere"
  end.

Definition sumZ (l : list Z) : Z := foldr Z.add 0 l.

(** [term(k) = C(wordCount, k) * V^k * B^(wordCount-k)]. *)
Definition spec_term (B V wordCount k : Z) : Z :=
  binomial wordCount k * V ^ k * B ^ (wordCount - k).

Definition spec_multiplier (wordCount : Z) (p : DigitPolicy) : Z :=
  match p with
  | NoDigit => 1
  | AtEnd => 10
  | Anywhere => 10 * (wordCount + 1)
  end.

(** [exactCount]: the sum of [term(k)] for [0 <= k <= min(garbleMax,
    wordCount)], times the digit multiplier. *)
Definition spec_exactCount (B V wordCount garbleMax : Z) (p : DigitPolicy) : Z :=
  sumZ (map (fun k => spec_term B V wordCount (Z.of_nat k))
            (seq 0 (Datatypes.S (Z.to_nat (Z.min garbleMax wordCount)))))
  * spec_multiplier wordCount p.

(** The sampler as the specification words it: the limit is taken from
    [2^32]. *)
Definition spec_limit (bound : Z) : Z := 2 ^ 32 / bound * bound.

Definition spec_nextIndex (bound : Z) : Rand Z :=
  if bound <=? 0 then throw RangeError
  else
    draw <- drawBelow (spec_limit bound) ;;
    ret (draw mod bound).

(** The largest count whose conversion to a double is still finite is just
    below this bound. *)
Definition doubleOverflow : Z := 2 ^ 1024 - 2 ^ 970.

(** ** Further definitions used by the additional properties *)

(** The candidate the [forEach] callback of [garbledVariants] builds at
    position [p.1], which holds the character [p.2], when that character has
    a replacement. *)
Definition candidateAt (word : string) (p : nat * ascii) : option string :=
  (λ rep, string_of_list_ascii (<[p.1 := rep]> (list_ascii_of_string word)))
    <$> replacement p.2.

(** A character that [garbledVariants] can substitute. *)
Definition substitutable (ch : ascii) : bool :=
  match replacement ch with Some _ => true | None => false end.

(** The range of lengths shown by [generateAndDisplay]: the shortest and
    the longest word of [wordsForGen] times the count, the separators
    between the words, and the separator and the digit when a number is
    included. [None] stands for the infinities that [Math.min()] and
    [Math.max()] return on no argument; the page gets here with a non-empty
    list only. *)
Definition lengthRange (wordsForGen : list string) (count : Z)
    (separator includeSetting : string) : option (Z * Z) :=
  let lengths := map (λ w, Z.of_nat (String.length w)) wordsForGen in
  match lengths with
  | [] => None
  | l0 :: ls =>
      let minWord := foldl Z.min l0 ls in
      let maxWord := foldl Z.max l0 ls in
      let sepLen := Z.of_nat (String.length separator) in
      let minLen := minWord * count in
      let maxLen := maxWord * count in
      let minLen :=
        if negb (String.eqb separator "") then minLen + sepLen * (count - 1)
        else minLen in
      let maxLen :=
        if negb (String.eqb separator "") then maxLen + sepLen * (count - 1)
        else maxLen in
      let includeNumber := negb (String.eqb includeSetting "none") in
      if includeNumber
      then Some (minLen + (sepLen + 1), maxLen + (sepLen + 1))
      else Some (minLen, maxLen)
  end.

(** *** Parsing the word list *)

(** The characters of the class [[\r\n,]]. *)
Definition isListSeparator (c : ascii) : bool :=
  let n := N_of_ascii c in (n =? 13)%N || (n =? 10)%N || (n =? 44)%N.

(** The ASCII characters that [trim] removes: tab, line feed, vertical tab,
    form feed, carriage return and space. *)
Definition isWhiteSpace (c : ascii) : bool :=
  let n := N_of_ascii c in ((9 <=? n)%N && (n <=? 13)%N) || (n =? 32)%N.

(** [text.split(/[\r\n,]+/)]: cut at every maximal run of separator
    characters. [cur] is the current part, reversed; [inRun] tells that the
    previous character was a separator. *)
Fixpoint splitRuns (cur : list ascii) (inRun : bool) (s : string)
    : list string :=
  match s with
  | EmptyString => [string_of_list_ascii (rev cur)]
  | String c s' =>
      if isListSeparator c then
        if inRun then splitRuns [] true s'
        else string_of_list_ascii (rev cur) :: splitRuns [] true s'
      else splitRuns (c :: cur) false s'
  end.

Fixpoint dropSpaces (l : list ascii) : list ascii :=
  match l with
  | [] => []
  | c :: l' => if isWhiteSpace c then dropSpaces l' else l
  end.

(** [w.trim()], on the characters. *)
Definition trimChars (l : list ascii) : list ascii :=
  rev (dropSpaces (rev (dropSpaces l))).

Definition trim (w : string) : string :=
  string_of_list_ascii (trimChars (list_ascii_of_string w)).

(** [w.toLowerCase()] on a string. *)
Definition toLowerCaseString (w : string) : string :=
  string_of_list_ascii (map JS.toLowerCase (list_ascii_of_string w)).

(** The [filter] callback of [parseWordList], with its [seen] set: empty
    words and words already seen are dropped. *)
Fixpoint filterSeen (seen : list string) (ws : list string) : list string :=
  match ws with
  | [] => []
  | w :: ws' =>
      if String.eqb w "" || bool_decide (w ∈ seen) then filterSeen seen ws'
      else w :: filterSeen (set_add w seen) ws'
  end.

Definition parseWordList (text : string) : list string :=
  filterSeen []
    (map (λ w, toLowerCaseString (trim w)) (splitRuns [] false text)).

(** A word as [parseWordList] leaves it: not empty, free of separator
    characters, trimmed and in lowercase. *)
Definition cleanWord (w : string) : Prop :=
  w ≠ ""%string
  ∧ Forall (λ c, isListSeparator c = false) (list_ascii_of_string w)
  ∧ trim w = w
  ∧ toLowerCaseString w = w.

(** A character list that does not start with white space. *)
Definition headNotSpace (l : list ascii) : Prop :=
  match l with
  | [] => True
  | c :: _ => isWhiteSpace c = false
  end.

(** *** [binomialBig] with its arguments as Numbers

    In the script [n], [k] and [i] are Numbers: [n - k] and [n - k + i] are
    rounded to a double before [BigInt] converts them, and [i++] is a
    rounded addition. [binomialLoop] and [binomialBig] above take these
    integers as exact, which they are up to [2^53]; the two definitions
    below keep the rounding. [n] and [k] stand for Numbers that hold
    integers. *)

(** How an evaluation ends: with a value, with an exception, or still
    running when the fuel is spent. *)
Inductive evaluation (A : Type) : Type :=
| Value (a : A)
| Raises (e : JSError)
| Unfinished.

Arguments Value {A} a.
Arguments Raises {A} e.
Arguments Unfinished {A}.

(** The loop [for (let i = 1; i <= k; i++)]. [n - k] lies between 0 and [n]
    and does not overflow; [BigInt] of an infinite [n - k + i] is a range
    error. *)
Fixpoint binomialLoopNumber (n k : Z) (fuel : nat) (i res : Z)
    : evaluation Z :=
  if i <=? k then
    match fuel with
    | O => Unfinished
    | Datatypes.S fuel' =>
        match JS.NumberOfBigInt (JS.roundToDouble (n - k) + i) with
        | JS.Finite factor =>
            binomialLoopNumber n k fuel' (JS.roundToDouble (i + 1))
              (Z.quot (res * factor) i)
        | _ => Raises RangeError
        end
    end
  else Value res.

Definition binomialBigNumber (n k : Z) (fuel : nat) : evaluation Z :=
  if (k <? 0) || (k >? n) then Value 0
  else
    let k := Z.min k (JS.roundToDouble (n - k)) in
    binomialLoopNumber n k fuel 1 1.

(** *** Words that start with an ASCII character

    The characters of the embedding are 8-bit code units, and
    [JS.toUpperCase] is the script's [toUpperCase] on the code units below
    128, where it gives one character. Above 128 the script's upper case
    can be another character or two characters. *)
Definition isAscii (c : ascii) : bool := (N_of_ascii c <? 128)%N.

(** The first character of the word, when there is one, is below 128. *)
Definition startsAscii (w : string) : bool :=
  match w with
  | EmptyString => true
  | String c _ => isAscii c
  end.

(** * Proofs *)

(** ** Strings as character lists *)

Lemma string_get_lookup (s : string) (j : nat) :
  String.get j s = list_ascii_of_string s !! j.
Proof.
  revert j. induction s as [|c s IH]; intros [|j]; simpl; auto.
Qed.

Lemma string_length_letters (s : string) :
  String.length s = length (list_ascii_of_string s).
Proof. induction s; simpl; congruence. Qed.

(** ** The phonetic table *)

(** A decidable property of the entries holds of all of them as soon as it
    evaluates to true on the list of entries. *)
Lemma PHONETIC_MAP_entries (P : ascii → ascii → Prop)
    `{!∀ a x, Decision (P a x)} :
  bool_decide (Forall (λ p, P p.1 p.2) (map_to_list PHONETIC_MAP)) = true →
  ∀ a x, PHONETIC_MAP !! a = Some x → P a x.
Proof.
  intros Hall%bool_decide_eq_true a x Hax.
  apply elem_of_map_to_list in Hax.
  by eapply Forall_forall in Hall; [|exact Hax].
Qed.

(** C6 (amended). The table has an entry for exactly 25 of the 26 lowercase
    letters, h being the one without; every entry sends a lowercase letter to
    a lowercase letter other than itself; two distinct letters have the same
    replacement exactly for the pairs c/q, e/y, f/w and s/x, which share k,
    i, v and z. *)
Theorem PHONETIC_MAP_shape :
  size PHONETIC_MAP = 25%nat
  ∧ (∀ c, c ∈ lowercaseLetters → (PHONETIC_MAP !! c = None ↔ c = "h"%char))
  ∧ (∀ a x, PHONETIC_MAP !! a = Some x →
       a ∈ lowercaseLetters ∧ x ∈ lowercaseLetters ∧ x ≠ a)
  ∧ (∀ a b, a ≠ b →
       ((∃ x, PHONETIC_MAP !! a = Some x ∧ PHONETIC_MAP !! b = Some x)
        ↔ (a, b) ∈ sharedReplacement ∨ (b, a) ∈ sharedReplacement))
  ∧ (PHONETIC_MAP !! "c"%char = Some "k"%char
     ∧ PHONETIC_MAP !! "q"%char = Some "k"%char)
  ∧ (PHONETIC_MAP !! "e"%char = Some "i"%char
     ∧ PHONETIC_MAP !! "y"%char = Some "i"%char)
  ∧ (PHONETIC_MAP !! "f"%char = Some "v"%char
     ∧ PHONETIC_MAP !! "w"%char = Some "v"%char)
  ∧ (PHONETIC_MAP !! "s"%char = Some "z"%char
     ∧ PHONETIC_MAP !! "x"%char = Some "z"%char).
Proof.
  assert (Hshared : ∀ a b, (a, b) ∈ sharedReplacement →
            ∃ x, PHONETIC_MAP !! a = Some x ∧ PHONETIC_MAP !! b = Some x).
  { intros a b Hab. unfold sharedReplacement in Hab.
    repeat (apply elem_of_cons in Hab as [[= -> ->]|Hab];
            [eexists; split; reflexivity|]).
    by apply elem_of_nil in Hab. }
  split; [by vm_compute|].
  split; [apply Forall_forall; apply (bool_decide_unpack _); by vm_compute|].
  split.
  { apply (PHONETIC_MAP_entries
             (λ a x, a ∈ lowercaseLetters ∧ x ∈ lowercaseLetters ∧ x ≠ a)).
    by vm_compute. }
  split; [|by repeat split].
  intros a b Hab. split.
  - intros (x & Ha & Hb).
    pose proof (PHONETIC_MAP_entries
      (λ a x, Forall (λ q, q.2 = x →
                 a = q.1 ∨ (a, q.1) ∈ sharedReplacement
                 ∨ (q.1, a) ∈ sharedReplacement)
              (map_to_list PHONETIC_MAP))) as Hpairs.
    specialize (Hpairs ltac:(by vm_compute) a x Ha).
    apply elem_of_map_to_list in Hb.
    eapply Forall_forall in Hpairs; [|exact Hb].
    destruct (Hpairs eq_refl) as [?|?]; [done | done].
  - intros [H|H]; apply Hshared in H as (x & H1 & H2); by exists x.
Qed.

(** C6, as stated, fails: c and q are distinct letters with the same
    replacement k. *)
Lemma PHONETIC_MAP_c_q_collide :
  "c"%char ≠ "q"%char
  ∧ PHONETIC_MAP !! "c"%char = Some "k"%char
  ∧ PHONETIC_MAP !! "q"%char = Some "k"%char.
Proof. split_and!; [discriminate | reflexivity | reflexivity]. Qed.

(** ** The garbler *)

Lemma elem_of_set_add (x y : string) (l : list string) :
  x ∈ set_add y l ↔ x = y ∨ x ∈ l.
Proof.
  unfold set_add. case_bool_decide as Hy.
  - split; [auto | intros [-> | ?]; auto].
  - rewrite elem_of_app, list_elem_of_singleton. tauto.
Qed.

Lemma replacement_differs (ch rep : ascii) :
  replacement ch = Some rep → rep ≠ ch.
Proof.
  unfold replacement. destruct (PHONETIC_MAP !! JS.toLowerCase ch); [|done].
  destruct (Ascii.eqb _ ch) eqn:E; [done|].
  intros [= <-]. by apply Ascii.eqb_neq.
Qed.

Lemma garbleStep_variant (word : string) (results : list string)
    (idx : nat) (ch : ascii) :
  list_ascii_of_string word !! idx = Some ch →
  Forall (variantOf word) results →
  Forall (variantOf word)
    (garbleStep word (list_ascii_of_string word) results idx ch).
Proof.
  intros Hidx Hres. unfold garbleStep.
  destruct (replacement ch) as [rep|] eqn:Hrep; [|done].
  destruct (String.eqb _ word) eqn:Heq; [done|].
  apply String.eqb_neq in Heq.
  apply Forall_forall. intros v [-> | Hv]%elem_of_set_add.
  - by exists idx, ch, rep.
  - by eapply Forall_forall in Hres.
Qed.

Lemma garbledVariants_variant (word : string) :
  Forall (variantOf word) (garbledVariants word).
Proof.
  unfold garbledVariants.
  assert (Hall : Forall (λ p, list_ascii_of_string word !! p.1 = Some p.2)
                   (imap pair (list_ascii_of_string word))).
  { apply Forall_forall. intros p (i & y & -> & Hy)%elem_of_lookup_imap. done. }
  assert (Hnil : Forall (variantOf word) []) by constructor.
  revert Hall Hnil. generalize (@nil string) as results.
  generalize (imap pair (list_ascii_of_string word)) as l.
  induction l as [|p l IH]; intros results Hall Hres; simpl; [done|].
  inversion Hall as [|? ? Hp Hl]; subst.
  apply IH; [done|]. by apply garbleStep_variant.
Qed.

Lemma variantOf_shape (word v : string) :
  variantOf word v →
  String.length v = String.length word
  ∧ ∃ i : nat, (i < String.length word)%nat
      ∧ ∀ j : nat, String.get j v ≠ String.get j word ↔ j = i.
Proof.
  intros (i & ch & rep & Hi & Hrep & -> & _).
  apply replacement_differs in Hrep.
  pose proof (lookup_lt_Some _ _ _ Hi) as Hlt.
  split.
  - rewrite !string_length_letters, list_ascii_of_string_of_list_ascii.
    apply length_insert.
  - exists i. split; [by rewrite string_length_letters|].
    intros j. rewrite !string_get_lookup, list_ascii_of_string_of_list_ascii.
    destruct (decide (j = i)) as [->|Hne].
    + rewrite list_lookup_insert_eq by done. rewrite Hi. split; [done|].
      intros _ [= ?]. done.
    + rewrite list_lookup_insert_ne by done. split; [done|]. done.
Qed.

(** C10. For every word, each member of its variant set has the length of
    the word and differs from it at exactly one character position. *)
Theorem garbledVariants_same_length_one_change (w v : string) :
  v ∈ garbledVariants w →
  String.length v = String.length w
  ∧ ∃ i : nat, (i < String.length w)%nat
      ∧ ∀ j : nat, String.get j v ≠ String.get j w ↔ j = i.
Proof.
  intros Hv. apply variantOf_shape.
  pose proof (garbledVariants_variant w) as Hall.
  by eapply Forall_forall in Hall.
Qed.

Lemma garbledVariants_same_length_one_change_witness :
  String.length "kat" = String.length "cat"
  ∧ ∃ i : nat, (i < String.length "cat")%nat
      ∧ ∀ j : nat, String.get j "kat" ≠ String.get j "cat" ↔ j = i.
Proof.
  apply (garbledVariants_same_length_one_change "cat" "kat").
  vm_compute. apply list_elem_of_here.
Defined.

(** C7. The variants of "cat" contain "kat" and not "cat"; the variants of
    "xyz" are exactly "zyz", "xiz" and "xys", as a set. *)
Theorem garbledVariants_cat_xyz :
  "kat" ∈ garbledVariants "cat"
  ∧ ("cat" ∉ garbledVariants "cat")
  ∧ (list_to_set (garbledVariants "xyz") : gset string)
    = {[ "zyz"; "xiz"; "xys" ]}.
Proof.
  assert (Hcat : garbledVariants "cat" = ["kat"; "cet"; "cad"]) by reflexivity.
  assert (Hxyz : garbledVariants "xyz" = ["zyz"; "xiz"; "xys"]) by reflexivity.
  rewrite Hcat, Hxyz. split_and!.
  - set_solver.
  - intros H. repeat (apply elem_of_cons in H as [H|H]; [discriminate H|]).
    by apply elem_of_nil in H.
  - set_solver.
Qed.

(** ** The sampler *)

Lemma uint32_range (x : Z) : 0 ≤ JS.uint32 x < 4294967296.
Proof. unfold JS.uint32. apply Z.mod_pos_bound. reflexivity. Qed.

Lemma drawBelow_skip (limit : Z) (skipped draws : list Z) :
  Forall (λ d, limit ≤ JS.uint32 d) skipped →
  drawBelow limit (skipped ++ draws) = drawBelow limit draws.
Proof.
  induction 1 as [|d skipped Hd _ IH]; simpl; [done|].
  destruct (Z.geb_spec (JS.uint32 d) limit); [done | lia].
Qed.

Lemma drawBelow_accept (limit raw : Z) (rest : list Z) :
  JS.uint32 raw < limit →
  drawBelow limit (raw :: rest) = Returned (JS.uint32 raw) rest.
Proof.
  intros Hlt. simpl. destruct (Z.geb_spec (JS.uint32 raw) limit); [lia | done].
Qed.

(** A returned draw is the first one below the limit. *)
Lemma drawBelow_returned (limit : Z) (draws : list Z) (value : Z) (rest : list Z) :
  drawBelow limit draws = Returned value rest →
  ∃ skipped raw,
    draws = skipped ++ raw :: rest
    ∧ Forall (λ d, limit ≤ JS.uint32 d) skipped
    ∧ value = JS.uint32 raw ∧ 0 ≤ value < limit.
Proof.
  induction draws as [|d draws IH]; simpl; [done|].
  destruct (Z.geb_spec (JS.uint32 d) limit) as [Hge|Hlt].
  - intros (skipped & raw & -> & Hall & Hv)%IH.
    exists (d :: skipped), raw. split; [done|]. split; [by constructor | done].
  - intros [= <- <-]. exists [], d. pose proof (uint32_range d).
    split; [done|]. split; [constructor|]. split; [done | lia].
Qed.

Lemma samplerLimit_bounds (max : Z) :
  0 < max ≤ 4294967295 → max ≤ samplerLimit max ≤ 4294967295.
Proof.
  intros Hmax. unfold samplerLimit.
  pose proof (Z.mul_div_le 4294967295 max ltac:(lia)).
  assert (1 ≤ 4294967295 / max) by (apply Z.div_le_lower_bound; lia).
  nia.
Qed.

Lemma getSecureRandomIndex_unfold (max : Z) (draws : list Z) :
  0 < max →
  getSecureRandomIndex max draws
  = match drawBelow (samplerLimit max) draws with
    | Returned value rest => Returned (Z.rem value max) rest
    | Thrown e => Thrown e
    | Starved => Starved
    end.
Proof.
  intros Hmax. unfold getSecureRandomIndex.
  destruct (Z.leb_spec max 0); [lia | done].
Qed.

Lemma getSecureRandomIndex_range (max : Z) (draws : list Z) (r : Z) (rest : list Z) :
  getSecureRandomIndex max draws = Returned r rest → 0 ≤ r < max.
Proof.
  unfold getSecureRandomIndex. destruct (Z.leb_spec max 0) as [|Hmax]; [done|].
  unfold bind, ret.
  destruct (drawBelow _ draws) as [value rest'| |] eqn:Hdraw; [|done..].
  intros [= <- <-]. apply drawBelow_returned in Hdraw as (_ & _ & _ & _ & _ & Hv).
  rewrite Z.rem_mod_nonneg by lia. apply Z.mod_pos_bound. lia.
Qed.

Lemma drawBelow_zero (draws : list Z) : drawBelow 0 draws = Starved.
Proof.
  induction draws as [|d draws IH]; simpl; [done|].
  pose proof (uint32_range d).
  destruct (Z.geb_spec (JS.uint32 d) 0); [done | lia].
Qed.

(** Past [2^32 - 1] the limit is zero and no draw is ever accepted. *)
Lemma getSecureRandomIndex_large_bound (max : Z) (draws : list Z) :
  4294967295 < max → getSecureRandomIndex max draws = Starved.
Proof.
  intros Hmax. rewrite getSecureRandomIndex_unfold by lia.
  assert (Hlimit : samplerLimit max = 0).
  { unfold samplerLimit. rewrite Z.div_small by lia. reflexivity. }
  by rewrite Hlimit, drawBelow_zero.
Qed.

(** C1 (amended). For a bound between 1 and [2^32 - 1] the limit is
    [floor((2^32 - 1) / bound) * bound], which is positive; the draws at or
    above the limit are passed over, the first draw below it is taken, and
    its remainder modulo the bound is returned; whatever is returned lies in
    [[0, bound)]. *)
Theorem getSecureRandomIndex_rejection (max : Z) (skipped : list Z) (raw : Z)
    (rest : list Z) :
  0 < max ≤ 4294967295 →
  Forall (λ d, samplerLimit max ≤ JS.uint32 d) skipped →
  JS.uint32 raw < samplerLimit max →
  samplerLimit max = (2 ^ 32 - 1) / max * max
  ∧ 0 < samplerLimit max
  ∧ getSecureRandomIndex max (skipped ++ raw :: rest)
    = Returned (JS.uint32 raw mod max) rest
  ∧ 0 ≤ JS.uint32 raw mod max < max
  ∧ (∀ draws r rest', getSecureRandomIndex max draws = Returned r rest' →
       0 ≤ r < max).
Proof.
  intros Hmax Hskipped Hraw. pose proof (uint32_range raw) as Hr.
  split_and!.
  - reflexivity.
  - pose proof (samplerLimit_bounds max Hmax). lia.
  - rewrite getSecureRandomIndex_unfold by lia.
    rewrite drawBelow_skip, drawBelow_accept by done.
    by rewrite Z.rem_mod_nonneg by lia.
  - apply Z.mod_pos_bound. lia.
  - apply Z.mod_pos_bound. lia.
  - intros draws r rest'. apply getSecureRandomIndex_range.
Qed.

Lemma getSecureRandomIndex_rejection_witness :
  getSecureRandomIndex 10 ([4294967295; 4294967290] ++ 13 :: [7])
  = Returned 3 [7].
Proof.
  refine (proj1 (proj2 (proj2
    (getSecureRandomIndex_rejection 10 [4294967295; 4294967290] 13 [7] _ _ _)))).
  - lia.
  - repeat constructor; vm_compute; discriminate.
  - reflexivity.
Defined.

(** C1, as stated, fails: with bound 2 the script's limit is 4294967294, not
    [2^32]; on the draws 4294967295, 0 it passes over the first draw and
    returns 0 where the stated procedure returns 1. With bound [2^32] the
    script's limit is 0, so that no draw is accepted. *)
Lemma getSecureRandomIndex_limit_differs :
  samplerLimit 2 = 4294967294
  ∧ spec_limit 2 = 4294967296
  ∧ getSecureRandomIndex 2 [4294967295; 0] = Returned 0 []
  ∧ spec_nextIndex 2 [4294967295; 0] = Returned 1 [0]
  ∧ samplerLimit (2 ^ 32) = 0
  ∧ getSecureRandomIndex (2 ^ 32) [0; 1; 2] = Starved.
Proof. by vm_compute. Qed.

(** C9. The sampler throws exactly when the bound is at most zero, and then
    it throws the range error: it returns no value. *)
Theorem getSecureRandomIndex_throws_iff (max : Z) (draws : list Z) :
  ((∃ e, getSecureRandomIndex max draws = Thrown e) ↔ max ≤ 0)
  ∧ (getSecureRandomIndex max draws = Thrown RangeError ↔ max ≤ 0).
Proof.
  assert (Hpos : 0 < max → ∀ e, getSecureRandomIndex max draws ≠ Thrown e).
  { intros Hmax e. rewrite getSecureRandomIndex_unfold by done.
    destruct (drawBelow _ draws) as [v rest| |] eqn:Hd; try done.
    exfalso. clear -Hd. induction draws as [|d draws IH]; simpl in Hd; [done|].
    destruct (_ >=? _); [auto | done]. }
  assert (Hneg : max ≤ 0 → getSecureRandomIndex max draws = Thrown RangeError).
  { intros Hmax. unfold getSecureRandomIndex.
    destruct (Z.leb_spec max 0); [done | lia]. }
  split; split.
  - intros [e He]. destruct (Z.le_gt_cases max 0) as [|Hmax]; [done|].
    by apply Hpos in He.
  - eauto.
  - intros He. destruct (Z.le_gt_cases max 0) as [|Hmax]; [done|].
    by apply Hpos in He.
  - done.
Qed.

(** ** The builder *)

Lemma bind_Returned {A B} (m : Rand A) (k : A → Rand B) (draws : list Z)
    (b : B) (rest : list Z) :
  bind m k draws = Returned b rest →
  ∃ a rest', m draws = Returned a rest' ∧ k a rest' = Returned b rest.
Proof.
  unfold bind. destruct (m draws) as [a rest'| |]; [|done..]. eauto.
Qed.

Section Loops.
Context {S : Type} (Inv : nat → S → Prop) (body : Z → S → Rand S).

Hypothesis body_step :
  ∀ i s draws s' rest n,
    Inv n s → body i s draws = Returned s' rest → Inv (Datatypes.S n) s'.

Lemma forUpSteps_invariant (steps : nat) :
  ∀ i s draws s' rest n,
    Inv n s →
    forUpSteps steps i body s draws = Returned s' rest →
    Inv (n + steps) s'.
Proof.
  induction steps as [|steps IH]; intros i s draws s' rest n Hinv; simpl.
  - intros [= <- <-]. by rewrite Nat.add_0_r.
  - intros (s1 & rest1 & Hbody & Hloop)%bind_Returned.
    rewrite <- Nat.add_succ_comm.
    eapply IH; [|exact Hloop]. by eapply body_step.
Qed.

Lemma forDownSteps_invariant (steps : nat) :
  ∀ i s draws s' rest n,
    Inv n s →
    forDownSteps steps i body s draws = Returned s' rest →
    Inv (n + steps) s'.
Proof.
  induction steps as [|steps IH]; intros i s draws s' rest n Hinv; simpl.
  - intros [= <- <-]. by rewrite Nat.add_0_r.
  - intros (s1 & rest1 & Hbody & Hloop)%bind_Returned.
    rewrite <- Nat.add_succ_comm.
    eapply IH; [|exact Hloop]. by eapply body_step.
Qed.
End Loops.

Lemma pickWord_elem (words : list string) (draws : list Z) (w : string)
    (rest : list Z) :
  pickWord words draws = Returned w rest → w ∈ words.
Proof.
  unfold pickWord. intros (i & rest' & _ & Hk)%bind_Returned. revert Hk.
  destruct (words !! Z.to_nat i) as [w'|] eqn:Hw; [|done].
  intros [= <- <-]. by eapply list_elem_of_lookup_2.
Qed.

Lemma swap_length (i j : nat) (picked : list string) :
  length (swap i j picked) = length picked.
Proof.
  unfold swap. destruct (picked !! i), (picked !! j); try done.
  by rewrite !length_insert.
Qed.

Lemma swap_Forall (P : string → Prop) (i j : nat) (picked : list string) :
  Forall P picked → Forall P (swap i j picked).
Proof.
  intros Hall. unfold swap.
  destruct (picked !! i) as [a|] eqn:Ha; [|done].
  destruct (picked !! j) as [b|] eqn:Hb; [|done].
  apply Forall_insert; [apply Forall_insert|]; try done.
  - by eapply Forall_lookup_1 in Hb.
  - by eapply Forall_lookup_1 in Ha.
Qed.

(** The words before capitalisation: how many there are and where they come
    from. *)
Lemma pickWords_shape (activeWords : list string) (garbleSetting : Z)
    (baseWords : list string) (count garbleMax : Z) (draws : list Z)
    (finalWords : list string) (rest : list Z) :
  pickWords activeWords garbleSetting baseWords count garbleMax draws
  = Returned finalWords rest →
  ∃ picked,
    finalWords = map capitalize picked
    ∧ length picked
      = (Z.to_nat (Z.max garbleMax 0) + Z.to_nat (count - garbleMax))%nat
    ∧ Forall (λ w, w ∈ getEffectiveWordList activeWords garbleSetting
                   ∨ w ∈ baseWords) picked.
Proof.
  set (P := λ w, w ∈ getEffectiveWordList activeWords garbleSetting
                 ∨ w ∈ baseWords).
  set (Inv := λ (n : nat) (picked : list string),
                length picked = n ∧ Forall P picked).
  assert (Hpush : ∀ words, (∀ w, w ∈ words → P w) →
            ∀ (i : Z) s d s' r n, Inv n s →
              (w <- pickWord words ;; ret (s ++ [w])) d = Returned s' r →
              Inv (Datatypes.S n) s').
  { intros words Hwords i s d s' r n [Hlen HP].
    intros (w & r' & Hw & [= <- <-])%bind_Returned.
    apply pickWord_elem in Hw. split.
    - rewrite length_app. simpl. lia.
    - apply Forall_app. split; [done|].
      constructor; [by apply Hwords | constructor]. }
  unfold pickWords.
  intros (picked1 & rest1 & H1 & Hk1)%bind_Returned.
  apply bind_Returned in Hk1 as (picked2 & rest2 & H2 & Hk2).
  apply bind_Returned in Hk2 as (picked3 & rest3 & H3 & [= <- <-]).
  assert (Hinv1 : Inv (Z.to_nat (Z.max garbleMax 0)) picked1).
  { destruct (Z.gtb_spec garbleMax 0) as [Hgm|Hgm].
    - unfold forUp in H1.
      eapply (forUpSteps_invariant Inv) with (n := 0%nat) in H1.
      + replace (Z.max garbleMax 0) with (garbleMax - 0) by lia. exact H1.
      + apply Hpush. intros w Hw. by left.
      + by split.
    - injection H1 as <- <-. replace (Z.max garbleMax 0) with 0 by lia.
      by split. }
  unfold forUp in H2.
  eapply (forUpSteps_invariant Inv) in H2; [|clear H2|exact Hinv1].
  2:{ apply Hpush. intros w Hw. by right. }
  exists picked3. split; [done|].
  unfold forDown in H3.
  eapply (forDownSteps_invariant
            (λ _ picked, length picked = length picked2 ∧ Forall P picked))
    with (n := 0%nat) in H3.
  - destruct H2 as [Hlen2 HP2]. destruct H3 as [Hlen3 HP3].
    split; [congruence | done].
  - intros i s d s' r n [Hlen HP].
    intros (j & r' & _ & [= <- <-])%bind_Returned.
    split; [by rewrite swap_length | by apply swap_Forall].
  - split; [done | apply H2].
Qed.

(** With a garble setting between 0 and the word count, the passphrase joins
    exactly [count] capitalised words. *)
Lemma generatePassphrase_words (activeWords : list string) (garbleSetting : Z)
    (baseWords : list string) (count : Z) (separator : string) (garbleMax : Z)
    (draws : list Z) (passphrase : string) (rest : list Z) :
  0 ≤ garbleMax ≤ count →
  generatePassphrase activeWords garbleSetting baseWords count separator
    garbleMax draws = Returned passphrase rest →
  ∃ picked,
    passphrase = JS.join separator (map capitalize picked)
    ∧ length picked = Z.to_nat count
    ∧ Forall (λ w, w ∈ getEffectiveWordList activeWords garbleSetting
                   ∨ w ∈ baseWords) picked.
Proof.
  intros Hgm. unfold generatePassphrase.
  intros (finalWords & rest' & Hpick & [= <- <-])%bind_Returned.
  apply pickWords_shape in Hpick as (picked & -> & Hlen & HP).
  exists picked. split; [done|]. split; [lia | done].
Qed.

(** C3. The builder does not clamp: with a garble setting above the word
    count, every passphrase it returns joins [garbleMax] capitalised words,
    which is more than the [count] words asked for. *)
Theorem generatePassphrase_unclamped (activeWords : list string)
    (garbleSetting : Z) (baseWords : list string) (count : Z)
    (separator : string) (garbleMax : Z) (draws : list Z)
    (passphrase : string) (rest : list Z) :
  1 ≤ count →
  count < garbleMax →
  generatePassphrase activeWords garbleSetting baseWords count separator
    garbleMax draws = Returned passphrase rest →
  ∃ picked,
    passphrase = JS.join separator (map capitalize picked)
    ∧ length picked = Z.to_nat garbleMax
    ∧ (Z.to_nat count < length picked)%nat.
Proof.
  intros Hcount Hgm. unfold generatePassphrase.
  intros (finalWords & rest' & Hpick & [= <- <-])%bind_Returned.
  apply pickWords_shape in Hpick as (picked & -> & Hlen & _).
  exists picked. split; [done|]. split; lia.
Qed.

Lemma generatePassphrase_unclamped_witness :
  generatePassphrase ["cat"; "dog"; "emu"] 3 ["cat"; "dog"; "emu"] 2 "-" 3
    [0; 4; 8; 0; 0] = Returned "Cet-Doj-Cat" []
  ∧ ∃ picked,
      "Cet-Doj-Cat"%string = JS.join "-" (map capitalize picked)
      ∧ length picked = Z.to_nat 3
      ∧ (Z.to_nat 2 < length picked)%nat.
Proof.
  split; [reflexivity|].
  apply (generatePassphrase_unclamped ["cat"; "dog"; "emu"] 3
           ["cat"; "dog"; "emu"] 2 "-" 3 [0; 4; 8; 0; 0] "Cet-Doj-Cat" []);
    [lia | lia | reflexivity].
Defined.

(** ** The digit *)

(** C5. Splitting the joined phrase does not give the words back when the
    separator is empty or occurs inside a word: two words come back as six
    parts (empty separator) or three (separator "a"), the position is drawn
    among that many parts plus one, and the digit lands inside a word. *)
Theorem addDigit_anywhere_inside_word :
  JS.split (JS.join "" ["Cat"; "Dog"]) "" = ["C"; "a"; "t"; "D"; "o"; "g"]
  ∧ addDigit "anywhere" "" (JS.join "" ["Cat"; "Dog"]) [5; 1]
    = Returned "C5atDog" []
  ∧ addDigit "anywhere" "" (JS.join "" ["Cat"; "Dog"]) [5; 6]
    = Returned "CatDog5" []
  ∧ JS.split (JS.join "a" ["Cat"; "Dog"]) "a" = ["C"; "t"; "Dog"]
  ∧ addDigit "anywhere" "a" (JS.join "a" ["Cat"; "Dog"]) [5; 1]
    = Returned "Ca5ataDog" []
  ∧ shownPassphrase
      (generateAndDisplay
         {| activeWords := ["cat"; "dog"]; wordCount := Some 2;
            separatorValue := ""; garbleSetting := 0;
            includeSetting := "anywhere" |} [0; 1; 1; 5; 1])
    = Some "C5atDog".
Proof. by vm_compute. Qed.

(** ** Binomial coefficients *)

Lemma choose_0_r (n : nat) : choose n 0 = 1%nat.
Proof. by destruct n. Qed.

Lemma choose_gt (n k : nat) : (n < k)%nat → choose n k = 0%nat.
Proof.
  revert k. induction n as [|n IH]; intros [|k] Hlt; simpl; try lia.
  rewrite !IH by lia. done.
Qed.

Lemma choose_diag (n : nat) : choose n n = 1%nat.
Proof.
  induction n as [|n IH]; simpl; [done|].
  rewrite IH, choose_gt by lia. done.
Qed.

(** Absorption: [(j + 1) * C(m + 1, j + 1) = (m + 1) * C(m, j)]. *)
Lemma choose_absorb (m j : nat) :
  (Datatypes.S j * choose (Datatypes.S m) (Datatypes.S j)
   = Datatypes.S m * choose m j)%nat.
Proof.
  revert j. induction m as [|m IH]; intros j.
  - destruct j as [|j]; simpl; [done|]. lia.
  - destruct j as [|j].
    + specialize (IH 0%nat). rewrite choose_0_r in *.
      change (choose (Datatypes.S (Datatypes.S m)) 1)
        with (choose (Datatypes.S m) 0 + choose (Datatypes.S m) 1)%nat.
      rewrite choose_0_r. lia.
    + pose proof (IH j) as IHj. pose proof (IH (Datatypes.S j)) as IHSj.
      change (choose (Datatypes.S (Datatypes.S m)) (Datatypes.S (Datatypes.S j)))
        with (choose (Datatypes.S m) (Datatypes.S j)
              + choose (Datatypes.S m) (Datatypes.S (Datatypes.S j)))%nat.
      change (choose (Datatypes.S m) (Datatypes.S j))
        with (choose m j + choose m (Datatypes.S j))%nat in *.
      nia.
Qed.

(** The factorial formula: [C(n, k) * k! * (n - k)! = n!]. *)
Lemma choose_fact (n k : nat) :
  (k ≤ n)%nat → (choose n k * fact k * fact (n - k) = fact n)%nat.
Proof.
  revert n. induction k as [|k IH]; intros n Hle.
  - rewrite choose_0_r, Nat.sub_0_r. simpl. lia.
  - destruct n as [|n]; [lia|].
    specialize (IH n ltac:(lia)). pose proof (choose_absorb n k) as Habs.
    replace (Datatypes.S n - Datatypes.S k)%nat with (n - k)%nat by lia.
    change (fact (Datatypes.S k)) with (Datatypes.S k * fact k)%nat.
    change (fact (Datatypes.S n)) with (Datatypes.S n * fact n)%nat.
    rewrite <- IH. 
    transitivity (Datatypes.S k * choose (Datatypes.S n) (Datatypes.S k)
                  * fact k * fact (n - k))%nat; [lia|].
    rewrite Habs. lia.
Qed.

Lemma choose_sym (n k : nat) : (k ≤ n)%nat → choose n k = choose n (n - k).
Proof.
  intros Hle.
  pose proof (choose_fact n k Hle) as H1.
  pose proof (choose_fact n (n - k) ltac:(lia)) as H2.
  replace (n - (n - k))%nat with k in H2 by lia.
  pose proof (lt_O_fact k). pose proof (lt_O_fact (n - k)).
  assert (Hpos : (0 < fact k * fact (n - k))%nat) by nia.
  apply (Nat.mul_cancel_r _ _ (fact k * fact (n - k))); [lia|].
  lia.
Qed.

(** The loop invariant of [binomialBig]: entering the turn [i = j + 1] the
    accumulator is [C(a + j, j)], where [a = n - k]; every division is
    exact. *)
Lemma binomialLoop_step (a j : nat) :
  Z.quot (Z.of_nat (choose (a + j) j) * (Z.of_nat a + (Z.of_nat j + 1)))
         (Z.of_nat j + 1)
  = Z.of_nat (choose (a + Datatypes.S j) (Datatypes.S j))
  ∧ Z.rem (Z.of_nat (choose (a + j) j) * (Z.of_nat a + (Z.of_nat j + 1)))
          (Z.of_nat j + 1) = 0.
Proof.
  pose proof (choose_absorb (a + j) j) as Habs.
  replace (Datatypes.S (a + j)) with (a + Datatypes.S j)%nat in Habs by lia.
  assert (Heq : Z.of_nat (choose (a + j) j) * (Z.of_nat a + (Z.of_nat j + 1))
                = Z.of_nat (choose (a + Datatypes.S j) (Datatypes.S j))
                  * (Z.of_nat j + 1)) by nia.
  rewrite Heq. split.
  - apply Z.quot_mul. lia.
  - apply Z.rem_mul. lia.
Qed.

Lemma binomialLoop_choose (n k : Z) (a : nat) (steps : nat) :
  n - k = Z.of_nat a →
  ∀ j : nat,
    binomialLoop n k steps (Z.of_nat j + 1) (Z.of_nat (choose (a + j) j))
    = Z.of_nat (choose (a + (j + steps)) (j + steps)).
Proof.
  intros Ha. induction steps as [|steps IH]; intros j; simpl.
  - by rewrite Nat.add_0_r.
  - rewrite Ha. rewrite (proj1 (binomialLoop_step a j)).
    replace (Z.of_nat j + 1 + 1) with (Z.of_nat (Datatypes.S j) + 1) by lia.
    rewrite IH. f_equal. f_equal; lia.
Qed.

(** The accumulator after [j] turns, started as the script starts it. *)
Lemma binomialLoop_prefix (n k : Z) (a j : nat) :
  n - k = Z.of_nat a →
  binomialLoop n k j 1 1 = Z.of_nat (choose (a + j) j).
Proof.
  intros Ha.
  pose proof (binomialLoop_choose n k a j Ha 0) as H.
  rewrite Nat.add_0_r, choose_0_r in H. simpl in H. exact H.
Qed.

Lemma binomial_in_range (n k : Z) :
  0 ≤ k ≤ n → binomial n k = Z.of_nat (choose (Z.to_nat n) (Z.to_nat k)).
Proof.
  intros Hk. unfold binomial.
  destruct (Z.ltb_spec k 0); [lia|]. destruct (Z.gtb_spec k n); [lia|]. done.
Qed.

Lemma binomialBig_binomial (n k : Z) : 0 ≤ n → binomialBig n k = binomial n k.
Proof.
  intros Hn. unfold binomialBig, binomial.
  destruct (Z.ltb_spec k 0); [done|]. destruct (Z.gtb_spec k n); [done|].
  simpl.
  set (k' := Z.min k (n - k)).
  rewrite (binomialLoop_prefix n k' (Z.to_nat (n - k')) (Z.to_nat k'))
    by (unfold k'; lia).
  replace (Z.to_nat (n - k') + Z.to_nat k')%nat with (Z.to_nat n)
    by (unfold k'; lia).
  f_equal. destruct (Z.le_ge_cases k (n - k)).
  - replace k' with k by (unfold k'; lia). done.
  - replace k' with (n - k) by (unfold k'; lia).
    rewrite (choose_sym (Z.to_nat n) (Z.to_nat k)) by lia.
    f_equal. lia.
Qed.

(** ** The search-space count *)

Lemma sumTerms_sum (Vn Bn count : Z) (steps : nat) :
  0 ≤ count →
  ∀ (k : nat) (possible : Z),
    sumTerms Vn Bn count steps (Z.of_nat k) possible
    = possible
      + sumZ (map (λ i, spec_term Bn Vn count (Z.of_nat i)) (seq k steps)).
Proof.
  intros Hcount. induction steps as [|steps IH]; intros k possible; simpl.
  - lia.
  - replace (Z.of_nat k + 1) with (Z.of_nat (Datatypes.S k)) by lia.
    rewrite IH, binomialBig_binomial by done. unfold spec_term. lia.
Qed.

(** C2. With [B] base words and [V] variants outside the base list, the
    count shown is the sum over [k] from 0 to [min(garbleMax, wordCount)] of
    [C(wordCount, k) * V^k * B^(wordCount - k)], times 10 for a digit at the
    end and times [10 * (wordCount + 1)] for a digit anywhere; for [B = 3],
    [V = 2], two words, one garbled at most and a digit at the end it is
    210. *)
Theorem possibleCount_formula (B V wordCount garbleMax : Z) (p : DigitPolicy) :
  0 ≤ B → 0 ≤ V → 1 ≤ wordCount → 0 ≤ garbleMax →
  possibleCount B (B + V) wordCount garbleMax (settingOf p)
  = spec_exactCount B V wordCount garbleMax p
  ∧ possibleCount 3 (3 + 2) 2 1 (settingOf AtEnd) = 210.
Proof.
  intros HB HV Hwc Hgm. split; [|reflexivity].
  unfold possibleCount, spec_exactCount.
  destruct (Z.geb_spec (B + V) B); [|lia].
  replace (B + V - B) with V by lia.
  replace (Z.max 0 (Z.min garbleMax wordCount))
    with (Z.min garbleMax wordCount) by lia.
  replace (Z.to_nat (Z.min garbleMax wordCount + 1))
    with (Datatypes.S (Z.to_nat (Z.min garbleMax wordCount))) by lia.
  rewrite (sumTerms_sum V B wordCount _ ltac:(lia) 0%nat 0).
  destruct p; simpl; lia.
Qed.

Lemma possibleCount_formula_witness :
  possibleCount 7776 (7776 + 1000) 4 2 (settingOf Anywhere)
  = spec_exactCount 7776 1000 4 2 Anywhere.
Proof.
  apply (possibleCount_formula 7776 1000 4 2 Anywhere); lia.
Defined.

(** ** Strength in bits *)

Lemma roundToDouble_exact (c : Z) : 0 ≤ c < 2 ^ 53 → JS.roundToDouble c = c.
Proof.
  intros Hc. unfold JS.roundToDouble.
  assert (Hlog : Z.log2 c < 53).
  { destruct (Z.eq_dec c 0) as [->|]; [reflexivity|].
    apply Z.log2_lt_pow2; lia. }
  destruct (Z.leb_spec (Z.log2 c + 1) 53); [done | lia].
Qed.

(** Above [2^53] the conversion keeps the 53 leading bits [q] and rounds on
    the [shift] bits [r] that are dropped. *)
Lemma roundToDouble_decompose (c : Z) :
  2 ^ 53 ≤ c →
  ∃ shift q r,
    shift = Z.log2 c - 52 ∧ 1 ≤ shift
    ∧ c = q * 2 ^ shift + r ∧ 0 ≤ r < 2 ^ shift
    ∧ 2 ^ 52 ≤ q < 2 ^ 53
    ∧ JS.roundToDouble c
      = (if (2 ^ (shift - 1) <? r) || ((r =? 2 ^ (shift - 1)) && Z.odd q)
         then q + 1 else q) * 2 ^ shift.
Proof.
  intros Hc.
  assert (Hpos : 0 < c) by (assert (0 < 2 ^ 53) by reflexivity; lia).
  assert (Hlog : 53 ≤ Z.log2 c) by (apply Z.log2_le_pow2; lia).
  pose proof (Z.log2_spec c Hpos) as [Hlo Hhi].
  set (shift := Z.log2 c - 52).
  assert (Hshift : 1 ≤ shift) by (unfold shift; lia).
  assert (HP : 0 < 2 ^ shift) by (apply Z.pow_pos_nonneg; lia).
  replace (Z.log2 c) with (52 + shift) in Hlo by (unfold shift; lia).
  replace (Z.succ (Z.log2 c)) with (53 + shift) in Hhi by (unfold shift; lia).
  rewrite Z.pow_add_r in Hlo, Hhi by lia.
  pose proof (Z.div_mod c (2 ^ shift) ltac:(lia)) as Hdm.
  pose proof (Z.mod_pos_bound c (2 ^ shift) HP) as Hr.
  exists shift, (c / 2 ^ shift), (c mod 2 ^ shift).
  split; [done|]. split; [done|]. split; [lia|]. split; [done|].
  split.
  - assert (H52 : 0 < 2 ^ 52) by reflexivity.
    assert (H53 : 2 ^ 53 = 2 * 2 ^ 52) by reflexivity.
    generalize dependent (2 ^ shift). generalize dependent (2 ^ 53).
    generalize dependent (2 ^ 52). intros. nia.
  - unfold JS.roundToDouble.
    destruct (Z.leb_spec (Z.log2 c + 1) 53); [lia|].
    replace (Z.log2 c + 1 - 53) with shift by (unfold shift; lia).
    rewrite Z.shiftr_div_pow2, Z.land_ones by lia. reflexivity.
Qed.

(** The rounded value is within half a unit of the last kept bit. *)
Lemma roundToDouble_error (c : Z) :
  0 ≤ c → 2 ^ 53 * Z.abs (JS.roundToDouble c - c) ≤ c.
Proof.
  intros Hc. destruct (Z.lt_ge_cases c (2 ^ 53)) as [Hsmall|Hbig].
  - rewrite roundToDouble_exact by lia. rewrite Z.sub_diag. simpl. lia.
  - destruct (roundToDouble_decompose c Hbig)
      as (shift & q & r & _ & Hshift & Hcqr & Hr & Hq & ->).
    assert (Hhalf : 2 ^ shift = 2 * 2 ^ (shift - 1)).
    { rewrite <- Z.pow_succ_r by lia. f_equal. lia. }
    assert (H52 : 0 < 2 ^ 52) by reflexivity.
    assert (H53 : 2 ^ 53 = 2 * 2 ^ 52) by reflexivity.
    assert (Hh : 0 < 2 ^ (shift - 1)) by (apply Z.pow_pos_nonneg; lia).
    destruct (Z.ltb_spec (2 ^ (shift - 1)) r) as [Hup|Hdown]; simpl.
    + generalize dependent (2 ^ shift). generalize dependent (2 ^ 53).
      generalize dependent (2 ^ 52). generalize dependent (2 ^ (shift - 1)).
      intros. nia.
    + destruct (Z.eqb_spec r (2 ^ (shift - 1))) as [Htie|Hlow]; simpl.
      * destruct (Z.odd q);
          generalize dependent (2 ^ shift); generalize dependent (2 ^ 53);
          generalize dependent (2 ^ 52); generalize dependent (2 ^ (shift - 1));
          intros; nia.
      * generalize dependent (2 ^ shift). generalize dependent (2 ^ 53).
        generalize dependent (2 ^ 52). generalize dependent (2 ^ (shift - 1)).
        intros. nia.
Qed.

(** The conversion overflows exactly from [2^1024 - 2^970] on. *)
Lemma roundToDouble_overflow (c : Z) :
  0 ≤ c → (2 ^ 1024 ≤ JS.roundToDouble c ↔ doubleOverflow ≤ c).
Proof.
  intros Hc.
  assert (HA : 0 < 2 ^ 970) by reflexivity.
  assert (H971 : 2 ^ 971 = 2 * 2 ^ 970) by reflexivity.
  assert (H1023 : 2 ^ 1023 = 2 ^ 53 * 2 ^ 970) by reflexivity.
  assert (H1024 : 2 ^ 1024 = 2 ^ 54 * 2 ^ 970) by reflexivity.
  assert (HT : doubleOverflow = (2 ^ 54 - 1) * 2 ^ 970) by reflexivity.
  assert (H52 : 2 ^ 52 = 4503599627370496) by reflexivity.
  assert (H53 : 2 ^ 53 = 9007199254740992) by reflexivity.
  assert (H54 : 2 ^ 54 = 18014398509481984) by reflexivity.
  rewrite HT, H1024.
  destruct (Z.lt_ge_cases c (2 ^ 53)) as [Hsmall|Hbig].
  - rewrite roundToDouble_exact by lia.
    generalize dependent (2 ^ 970). intros. nia.
  - destruct (roundToDouble_decompose c Hbig)
      as (shift & q & r & Hlog & Hshift & Hcqr & Hr & Hq & ->).
    assert (HP : 0 < 2 ^ shift) by (apply Z.pow_pos_nonneg; lia).
    match goal with
    | |- context [if ?b then q + 1 else q] =>
        set (q' := if b then q + 1 else q);
        assert (Hq' : q ≤ q' ≤ q + 1) by (unfold q'; destruct b; lia)
    end.
    destruct (Z.lt_trichotomy shift 971) as [Hlt | [Heq | Hgt]].
    + assert (Hpow : 2 * 2 ^ shift ≤ 2 ^ 971).
      { rewrite <- Z.pow_succ_r by lia. apply Z.pow_le_mono_r; lia. }
      rewrite H971 in Hpow. rewrite H53, H54 in *.
      generalize dependent (2 ^ shift). generalize dependent (2 ^ 970).
      intros. split; intros; exfalso; nia.
    + assert (Hhalf : 2 ^ (shift - 1) = 2 ^ 970) by (rewrite Heq; reflexivity).
      assert (HPeq : 2 ^ shift = 2 * 2 ^ 970) by (rewrite Heq; exact H971).
      unfold q' in *. clear q'. rewrite Hhalf in *. rewrite HPeq in *.
      destruct (Z.eq_dec q (2 ^ 53 - 1)) as [->|Hq53].
      * change (Z.odd (2 ^ 53 - 1)) with true in *.
        rewrite andb_true_r in *.
        destruct (Z.ltb_spec (2 ^ 970) r) as [Hup|Hdown]; simpl.
        -- rewrite H53, H54 in *. generalize dependent (2 ^ 970). intros. nia.
        -- destruct (Z.eqb_spec r (2 ^ 970)) as [Htie|Hlow].
           ++ rewrite H53, H54 in *. generalize dependent (2 ^ 970). intros. nia.
           ++ rewrite H53, H54 in *. generalize dependent (2 ^ 970). intros.
              split; intros; exfalso; nia.
      * rewrite H53, H54 in *. generalize dependent (2 ^ 970).
        intros. split; intros; exfalso; nia.
    + assert (Hpow : 2 ^ 972 ≤ 2 ^ shift) by (apply Z.pow_le_mono_r; lia).
      assert (H972 : 2 ^ 972 = 4 * 2 ^ 970) by reflexivity.
      rewrite H972 in Hpow. rewrite H52, H53, H54 in *.
      generalize dependent (2 ^ shift). generalize dependent (2 ^ 970).
      intros. split; intros; nia.
Qed.

(** C4 (amended). The strength is [Math.log2] of the count converted to a
    double. Below [2^1024 - 2^970] the conversion is a finite double within
    relative error [2^-53] of the count (exact below [2^53]) and the strength
    is the logarithm of that double; from [2^1024 - 2^970] on the conversion
    overflows and the strength is [+Infinity]. *)
Theorem strengthBits_of_double (exactCount : Z) :
  1 ≤ exactCount →
  strengthBits exactCount = JS.Math_log2 (JS.NumberOfBigInt exactCount)
  ∧ (exactCount < doubleOverflow →
       ∃ d, JS.NumberOfBigInt exactCount = JS.Finite d
            ∧ strengthBits exactCount = JS.Log2Of d
            ∧ 2 ^ 53 * Z.abs (d - exactCount) ≤ exactCount
            ∧ (exactCount < 2 ^ 53 → d = exactCount))
  ∧ (doubleOverflow ≤ exactCount →
       strengthBits exactCount = JS.Log2PosInfinity).
Proof.
  intros Hc. split; [reflexivity|].
  pose proof (roundToDouble_overflow exactCount ltac:(lia)) as Hover.
  pose proof (roundToDouble_error exactCount ltac:(lia)) as Herr.
  unfold strengthBits, JS.NumberOfBigInt.
  destruct (Z.ltb_spec exactCount 0); [lia|].
  destruct (Z.leb_spec (2 ^ 1024) (JS.roundToDouble exactCount)) as [Hinf|Hfin].
  - split; [|done]. intros Hlt. apply Hover in Hinf. lia.
  - split; [|intros Hge; apply Hover in Hge; lia].
    intros _. exists (JS.roundToDouble exactCount).
    assert (Hd : 0 < JS.roundToDouble exactCount).
    { assert (H53 : 2 ^ 53 = 9007199254740992) by reflexivity.
      rewrite H53 in Herr. lia. }
    split; [done|]. split.
    + simpl. destruct (Z.ltb_spec (JS.roundToDouble exactCount) 0); [lia|].
      destruct (Z.eqb_spec (JS.roundToDouble exactCount) 0); [lia | done].
    + split; [done|]. intros Hsmall. apply roundToDouble_exact. lia.
Qed.

Lemma strengthBits_of_double_witness :
  strengthBits (possibleCount 3 3 4 0 "none") = JS.Log2Of 81
  ∧ strengthBits (2 ^ 1024) = JS.Log2PosInfinity.
Proof.
  destruct (strengthBits_of_double 81 ltac:(lia)) as (_ & Hfin & _).
  destruct (strengthBits_of_double (2 ^ 1024) ltac:(done)) as (_ & _ & Hinf).
  split.
  - destruct (Hfin ltac:(done)) as (d & _ & Hd & _ & Hexact).
    change (possibleCount 3 3 4 0 "none") with 81.
    rewrite Hd. f_equal. apply Hexact. done.
  - apply Hinf. by vm_compute.
Defined.

(** C4, as stated, fails: for 1024 words and 103 of them in the passphrase
    the count is [2^1030], and the strength computed for it is not finite. *)
Lemma strengthBits_overflows :
  possibleCount 1024 1024 103 0 "none" = 2 ^ 1030
  ∧ 1 ≤ possibleCount 1024 1024 103 0 "none"
  ∧ strengthBits (possibleCount 1024 1024 103 0 "none") = JS.Log2PosInfinity
  ∧ JS.isFiniteLog2 (strengthBits (possibleCount 1024 1024 103 0 "none"))
    = false.
Proof. by vm_compute. Qed.

(** ** [binomialBig] on Numbers *)

Lemma choose_1_r (n : nat) : choose n 1 = n.
Proof.
  induction n as [|n IH]; [done|]. cbn [choose]. rewrite choose_0_r, IH. lia.
Qed.

Lemma roundToDouble_exact_le (c : Z) :
  0 ≤ c ≤ 2 ^ 53 → JS.roundToDouble c = c.
Proof.
  intros Hc. destruct (Z.eq_dec c (2 ^ 53)) as [->|Hne]; [reflexivity|].
  apply roundToDouble_exact. lia.
Qed.

Lemma NumberOfBigInt_exact (c : Z) :
  0 ≤ c ≤ 2 ^ 53 → JS.NumberOfBigInt c = JS.Finite c.
Proof.
  intros Hc. unfold JS.NumberOfBigInt.
  destruct (Z.ltb_spec c 0); [lia|].
  rewrite roundToDouble_exact_le by done.
  assert (H1024 : 2 ^ 53 < 2 ^ 1024) by reflexivity.
  destruct (Z.leb_spec (2 ^ 1024) c); [lia | done].
Qed.

(** Up to [2^53] no step of the loop rounds: the loop on Numbers is the loop
    on exact integers. *)
Lemma binomialLoopNumber_exact (n k : Z) :
  0 ≤ k → k ≤ n - k → n ≤ 2 ^ 53 →
  ∀ (steps fuel : nat) (i res : Z),
    1 ≤ i → i + Z.of_nat steps = k + 1 → (steps ≤ fuel)%nat →
    binomialLoopNumber n k fuel i res = Value (binomialLoop n k steps i res).
Proof.
  intros Hk Hmin Hn. induction steps as [|steps IH]; intros fuel i res Hi Hsteps Hfuel.
  - destruct fuel; cbn [binomialLoopNumber binomialLoop];
      destruct (Z.leb_spec i k); first [lia | done].
  - destruct fuel as [|fuel]; [lia|]. cbn [binomialLoopNumber binomialLoop].
    destruct (Z.leb_spec i k); [|lia].
    rewrite (roundToDouble_exact_le (n - k)) by lia.
    rewrite NumberOfBigInt_exact by lia.
    rewrite (roundToDouble_exact_le (i + 1)) by lia.
    apply IH; lia.
Qed.

Lemma binomialBigNumber_binomialBig (n k : Z) (fuel : nat) :
  0 ≤ n ≤ 2 ^ 53 →
  Z.min k (n - k) < Z.of_nat fuel →
  binomialBigNumber n k fuel = Value (binomialBig n k).
Proof.
  intros Hn Hfuel. unfold binomialBigNumber, binomialBig.
  destruct (Z.ltb_spec k 0); [done|]. destruct (Z.gtb_spec k n); [done|].
  cbn [orb]. rewrite (roundToDouble_exact_le (n - k)) by lia.
  apply binomialLoopNumber_exact; lia.
Qed.

(** C8 (amended). For an integer [n] with [0 <= n <= 2^53] and any integer
    [k], [binomialBig] returns, after [min(k, n - k)] turns of its loop, the
    binomial coefficient: 0 outside [0 <= k <= n], 1 at [k = 0] and [k = n],
    tied to the factorials by [k! * (n-k)! * C(n,k) = n!]. No operation on
    Numbers rounds: the result is that of [binomialBig] on exact integers
    and the loop is the multiplicative loop on exact integers, after each
    turn of which the accumulator is itself a binomial coefficient and the
    division that produced the next one left no remainder. *)
Theorem binomialBigNumber_exact (n k : Z) (fuel : nat) :
  0 ≤ n ≤ 2 ^ 53 →
  Z.min k (n - k) < Z.of_nat fuel →
  binomialBigNumber n k fuel = Value (binomial n k)
  ∧ binomialBigNumber n k fuel = Value (binomialBig n k)
  ∧ (k < 0 ∨ n < k → binomialBigNumber n k fuel = Value 0)
  ∧ (k = 0 ∨ k = n → binomialBigNumber n k fuel = Value 1)
  ∧ (0 ≤ k ≤ n →
       Z.of_nat (fact (Z.to_nat k)) * Z.of_nat (fact (Z.to_nat (n - k)))
       * binomial n k = Z.of_nat (fact (Z.to_nat n)))
  ∧ (0 ≤ k ≤ n →
       let k' := Z.min k (n - k) in
       binomialLoopNumber n k' fuel 1 1
       = Value (binomialLoop n k' (Z.to_nat k') 1 1)
       ∧ ∀ j, 0 ≤ j < k' →
           let res := binomialLoop n k' (Z.to_nat j) 1 1 in
           res = binomial (n - k' + j) j
           ∧ Z.rem (res * (n - k' + (j + 1))) (j + 1) = 0).
Proof.
  intros Hn Hfuel.
  assert (Heq : binomialBigNumber n k fuel = Value (binomial n k)).
  { rewrite binomialBigNumber_binomialBig by done.
    by rewrite binomialBig_binomial by lia. }
  split; [done|]. split; [by apply binomialBigNumber_binomialBig|].
  split; [|split; [|split]].
  - intros Hk. rewrite Heq. f_equal. unfold binomial.
    destruct (Z.ltb_spec k 0); [done|]. destruct (Z.gtb_spec k n); [done|]. lia.
  - intros Hk. rewrite Heq. f_equal. rewrite binomial_in_range by lia.
    destruct Hk as [-> | ->].
    + by rewrite choose_0_r.
    + by rewrite choose_diag.
  - intros Hk. rewrite binomial_in_range by lia.
    pose proof (choose_fact (Z.to_nat n) (Z.to_nat k) ltac:(lia)) as Hf.
    replace (Z.to_nat (n - k)) with (Z.to_nat n - Z.to_nat k)%nat by lia.
    rewrite <- Hf. lia.
  - intros Hk k'. split.
    + apply binomialLoopNumber_exact; unfold k'; lia.
    + intros j Hj res.
      assert (Hres : res = Z.of_nat (choose (Z.to_nat (n - k') + Z.to_nat j)
                                            (Z.to_nat j))).
      { unfold res. apply binomialLoop_prefix. unfold k'. lia. }
      split.
      * rewrite Hres, binomial_in_range by (unfold k'; lia).
        f_equal. f_equal. unfold k'. lia.
      * rewrite Hres.
        pose proof (binomialLoop_step (Z.to_nat (n - k')) (Z.to_nat j))
          as [_ Hrem].
        replace (Z.of_nat (Z.to_nat (n - k'))) with (n - k') in Hrem
          by (unfold k'; lia).
        replace (Z.of_nat (Z.to_nat j)) with j in Hrem by lia.
        exact Hrem.
Qed.

Lemma binomialBigNumber_exact_witness :
  binomialBigNumber 52 5 6 = Value 2598960
  ∧ binomialLoopNumber 52 5 6 1 1 = Value (binomialLoop 52 5 (Z.to_nat 5) 1 1).
Proof.
  destruct (binomialBigNumber_exact 52 5 6 ltac:(by vm_compute) ltac:(lia))
    as (Heq & _ & _ & _ & _ & Hsteps).
  split.
  - rewrite Heq. reflexivity.
  - exact (proj1 (Hsteps ltac:(lia))).
Defined.

(** C8, as stated, fails above [2^53]: for [n = 2^53 + 2] and [k = 1] the
    factor [n - k + i] is rounded to [2^53] twice, and the result is [2^53]
    where the binomial coefficient is [2^53 + 2]. *)
Lemma binomialBigNumber_rounds :
  binomialBigNumber (2 ^ 53 + 2) 1 2 = Value (2 ^ 53)
  ∧ binomial (2 ^ 53 + 2) 1 = 2 ^ 53 + 2
  ∧ JS.NumberOfBigInt (2 ^ 53 + 2) = JS.Finite (2 ^ 53 + 2).
Proof.
  split; [by vm_compute|]. split; [|by vm_compute].
  rewrite binomial_in_range by (by vm_compute).
  change (Z.to_nat 1) with 1%nat. rewrite choose_1_r. 
  apply Z2Nat.id. by vm_compute.
Qed.

(** * Further properties *)

(** ** More on the garbler *)

Lemma candidateAt_Some (word v : string) (i : nat) (ch : ascii) :
  candidateAt word (i, ch) = Some v
  ↔ ∃ rep, replacement ch = Some rep
           ∧ v = string_of_list_ascii (<[i := rep]> (list_ascii_of_string word)).
Proof.
  unfold candidateAt. cbn [fst snd].
  destruct (replacement ch) as [rep|]; cbn [fmap option_fmap option_map].
  - split; [intros [= <-]; eauto | intros (? & [= <-] & ->); done].
  - split; [done | intros (? & [=] & _)].
Qed.

Lemma candidateAt_None (word : string) (i : nat) (ch : ascii) :
  candidateAt word (i, ch) = None ↔ replacement ch = None.
Proof.
  unfold candidateAt. cbn [fst snd].
  destruct (replacement ch) as [rep|]; cbn [fmap option_fmap option_map]; done.
Qed.

Lemma candidateAt_lookup (word v : string) (i : nat) (ch : ascii) :
  list_ascii_of_string word !! i = Some ch →
  candidateAt word (i, ch) = Some v →
  list_ascii_of_string v !! i ≠ Some ch
  ∧ ∀ j, j ≠ i → list_ascii_of_string v !! j = list_ascii_of_string word !! j.
Proof.
  intros Hi (rep & Hrep & ->)%candidateAt_Some.
  rewrite list_ascii_of_string_of_list_ascii.
  apply replacement_differs in Hrep.
  pose proof (lookup_lt_Some _ _ _ Hi) as Hlt. split.
  - rewrite list_lookup_insert_eq by exact Hlt. intros [= ?]. done.
  - intros j Hj. rewrite list_lookup_insert_ne by done. done.
Qed.

Lemma candidateAt_not_word (word v : string) (i : nat) (ch : ascii) :
  list_ascii_of_string word !! i = Some ch →
  candidateAt word (i, ch) = Some v → v ≠ word.
Proof.
  intros Hi Hv ->. by destruct (candidateAt_lookup _ _ _ _ Hi Hv) as [Hne _].
Qed.

Lemma candidateAt_inj (word v : string) (i j : nat) (a b : ascii) :
  list_ascii_of_string word !! i = Some a →
  list_ascii_of_string word !! j = Some b →
  candidateAt word (i, a) = Some v →
  candidateAt word (j, b) = Some v →
  i = j.
Proof.
  intros Hi Hj Hvi Hvj. destruct (decide (i = j)) as [|Hne]; [done|].
  destruct (candidateAt_lookup _ _ _ _ Hi Hvi) as [Hdiff _].
  destruct (candidateAt_lookup _ _ _ _ Hj Hvj) as [_ Hsame].
  rewrite Hsame in Hdiff by done. done.
Qed.

Lemma garbleStep_candidateAt (word : string) (results : list string)
    (i : nat) (ch : ascii) :
  list_ascii_of_string word !! i = Some ch →
  garbleStep word (list_ascii_of_string word) results i ch
  = match candidateAt word (i, ch) with
    | Some v => set_add v results
    | None => results
    end.
Proof.
  intros Hi. unfold garbleStep.
  destruct (candidateAt word (i, ch)) as [v|] eqn:Hv.
  - pose proof (candidateAt_not_word _ _ _ _ Hi Hv) as Hne.
    apply candidateAt_Some in Hv as (rep & -> & ->).
    apply String.eqb_neq in Hne. by rewrite Hne.
  - apply candidateAt_None in Hv. by rewrite Hv.
Qed.

Lemma omap_singleton {A B} (f : A → option B) (x : A) :
  omap f [x] = match f x with Some y => [y] | None => [] end.
Proof. reflexivity. Qed.

Lemma imap_pair_lookup (letters : list ascii) (k : nat) (q : nat * ascii) :
  imap pair letters !! k = Some q → letters !! k = Some q.2 ∧ q.1 = k.
Proof.
  rewrite list_lookup_imap. destruct (letters !! k) as [c|]; [|done].
  by intros [= <-].
Qed.

(** The result, in order: one candidate per substitutable position. *)
Lemma garbledVariants_candidates (word : string) :
  garbledVariants word
  = omap (candidateAt word) (imap pair (list_ascii_of_string word)).
Proof.
  unfold garbledVariants.
  set (letters := list_ascii_of_string word).
  assert (Hgen : ∀ suf pre,
            imap pair letters = pre ++ suf →
            foldl (λ results p, garbleStep word letters results p.1 p.2)
                  (omap (candidateAt word) pre) suf
            = omap (candidateAt word) (pre ++ suf)).
  { induction suf as [|[i ch] suf IH]; intros pre Hsplit.
    - by rewrite app_nil_r.
    - cbn [foldl fst snd].
      assert (Hi : letters !! i = Some ch ∧ i = length pre).
      { destruct (imap_pair_lookup letters (length pre) (i, ch)) as [H1 H2].
        - rewrite Hsplit, lookup_app_r, Nat.sub_diag by lia. done.
        - cbn [fst snd] in *. by subst. }
      destruct Hi as [Hi Hlen]. unfold letters at 1.
      rewrite garbleStep_candidateAt by exact Hi. fold letters.
      replace (pre ++ (i, ch) :: suf) with ((pre ++ [(i, ch)]) ++ suf)
        by (by rewrite <- app_assoc).
      rewrite <- IH by (by rewrite <- app_assoc).
      f_equal. rewrite omap_app, omap_singleton.
      destruct (candidateAt word (i, ch)) as [v|] eqn:Hv;
        [|by rewrite app_nil_r].
      unfold set_add. case_bool_decide as Hin; [|done]. exfalso.
      apply list_elem_of_omap in Hin as ([j b] & Hjb & Hvj).
      apply list_elem_of_lookup in Hjb as [k Hk].
      pose proof (lookup_lt_Some _ _ _ Hk) as Hklt.
      destruct (imap_pair_lookup letters k (j, b)) as [Hj Hjk].
      { rewrite Hsplit, lookup_app_l by done. done. }
      cbn [fst snd] in *. subst j.
      pose proof (candidateAt_inj word v i k ch b Hi Hj Hv Hvj). lia. }
  by apply (Hgen _ []).
Qed.

Lemma garbledVariants_candidates_elem (w v : string) :
  v ∈ garbledVariants w
  ↔ ∃ (i : nat) (ch rep : ascii),
      list_ascii_of_string w !! i = Some ch
      ∧ replacement ch = Some rep
      ∧ v = string_of_list_ascii (<[i := rep]> (list_ascii_of_string w)).
Proof.
  rewrite garbledVariants_candidates, list_elem_of_omap. split.
  - intros ([i ch] & (i' & ch' & [= -> ->] & Hi)%elem_of_lookup_imap & Hv).
    apply candidateAt_Some in Hv as (rep & Hrep & ->). by exists i', ch', rep.
  - intros (i & ch & rep & Hi & Hrep & ->). exists (i, ch). split.
    + apply elem_of_lookup_imap. by exists i, ch.
    + apply candidateAt_Some. eauto.
Qed.

(** X1. A string is a variant of a word exactly when it is the word with one
    substitutable character overwritten by its replacement. *)
Theorem garbledVariants_elem_iff (w v : string) :
  v ∈ garbledVariants w
  ↔ ∃ (i : nat) (ch rep : ascii),
      list_ascii_of_string w !! i = Some ch
      ∧ replacement ch = Some rep
      ∧ v = string_of_list_ascii (<[i := rep]> (list_ascii_of_string w)).
Proof. apply garbledVariants_candidates_elem. Qed.

Lemma omap_candidates_NoDup (word : string) (l : list (nat * ascii)) :
  NoDup l.*1 →
  Forall (λ q, list_ascii_of_string word !! q.1 = Some q.2) l →
  NoDup (omap (candidateAt word) l).
Proof.
  induction l as [|[i ch] l IH]; intros Hnd Hall; [constructor|].
  apply NoDup_cons in Hnd as [Hi Hnd]. apply Forall_cons in Hall as [Hich Hall].
  change ((i, ch) :: l) with ([(i, ch)] ++ l).
  rewrite omap_app, omap_singleton.
  destruct (candidateAt word (i, ch)) as [v|] eqn:Hv; [|by apply IH].
  cbn [app]. apply NoDup_cons. split; [|by apply IH].
  intros ([j b] & Hjb & Hvj)%list_elem_of_omap.
  eapply Forall_forall in Hall; [|exact Hjb]. cbn [fst snd] in *.
  pose proof (candidateAt_inj word v i j ch b Hich Hall Hv Hvj) as ->.
  apply Hi. apply list_elem_of_fmap. by exists (j, b).
Qed.

Lemma imap_pair_fst {A} (l : list A) : (imap pair l).*1 = seq 0 (length l).
Proof.
  apply list_eq. intros k. rewrite list_lookup_fmap, list_lookup_imap.
  destruct (l !! k) as [x|] eqn:Hk; cbn.
  - symmetry. apply lookup_seq. split; [done|]. by eapply lookup_lt_Some.
  - symmetry. apply lookup_seq_ge. by apply lookup_ge_None.
Qed.

(** X2. The variants of a word are pairwise distinct and never include the
    word itself. *)
Theorem garbledVariants_NoDup_excludes_word (w : string) :
  NoDup (garbledVariants w) ∧ w ∉ garbledVariants w.
Proof.
  split.
  - rewrite garbledVariants_candidates. apply omap_candidates_NoDup.
    + rewrite imap_pair_fst. apply NoDup_seq.
    + apply Forall_forall. intros q (i & ch & -> & Hi)%elem_of_lookup_imap.
      done.
  - intros Hin. pose proof (garbledVariants_variant w) as Hall.
    eapply Forall_forall in Hall; [|exact Hin].
    by destruct Hall as (_ & _ & _ & _ & _ & _ & Hne).
Qed.

Lemma filter_substitutable_nil (l : list ascii) :
  Forall (λ ch, replacement ch = None) l →
  filter (λ ch, substitutable ch = true) l = [].
Proof.
  induction 1 as [|ch l Hch _ IH]; [done|].
  assert (Hs : substitutable ch ≠ true)
    by (unfold substitutable; by rewrite Hch).
  rewrite filter_cons, decide_False by done. done.
Qed.

(** X3. A word has exactly one variant per substitutable character, so no
    more variants than characters; it has none exactly when no character is
    substitutable. *)
Theorem garbledVariants_length (w : string) :
  length (garbledVariants w)
  = length (filter (λ ch, substitutable ch = true) (list_ascii_of_string w))
  ∧ (length (garbledVariants w) ≤ String.length w)%nat
  ∧ (garbledVariants w = []
     ↔ Forall (λ ch, replacement ch = None) (list_ascii_of_string w)).
Proof.
  assert (Hlen : ∀ (l : list ascii) (f : nat → nat),
            length (omap (candidateAt w) (imap (λ i ch, (f i, ch)) l))
            = length (filter (λ ch, substitutable ch = true) l)).
  { induction l as [|ch l IH]; intros f; [done|].
    rewrite imap_cons.
    change ((f 0%nat, ch) :: imap ((λ i ch, (f i, ch)) ∘ Datatypes.S) l)
      with ([(f 0%nat, ch)] ++ imap (λ i ch0, (f (Datatypes.S i), ch0)) l).
    rewrite omap_app, omap_singleton, length_app, IH, filter_cons.
    destruct (replacement ch) as [rep|] eqn:Hrep.
    - assert (Hv : candidateAt w (f 0%nat, ch)
                   = Some (string_of_list_ascii
                             (<[f 0%nat := rep]> (list_ascii_of_string w))))
        by (apply candidateAt_Some; eauto).
      assert (Hs : substitutable ch = true) by (unfold substitutable; by rewrite Hrep).
      rewrite Hv, decide_True by done. done.
    - assert (Hv : candidateAt w (f 0%nat, ch) = None)
        by (by apply candidateAt_None).
      assert (Hs : substitutable ch ≠ true) by (unfold substitutable; by rewrite Hrep).
      rewrite Hv, decide_False by done. done. }
  assert (H1 : length (garbledVariants w)
               = length (filter (λ ch, substitutable ch = true)
                           (list_ascii_of_string w))).
  { rewrite garbledVariants_candidates. apply (Hlen _ id). }
  split; [done|]. split.
  - rewrite H1, string_length_letters. apply length_filter.
  - split.
    + intros Hnil. apply Forall_forall. intros ch Hch.
      destruct (replacement ch) as [rep|] eqn:Hrep; [|done]. exfalso.
      apply list_elem_of_lookup in Hch as [i Hi].
      assert (Hin : string_of_list_ascii (<[i := rep]> (list_ascii_of_string w))
                    ∈ garbledVariants w).
      { apply garbledVariants_candidates_elem. by exists i, ch, rep. }
      rewrite Hnil in Hin. by apply elem_of_nil in Hin.
    + intros Hall. apply length_zero_iff_nil. rewrite H1.
      by rewrite filter_substitutable_nil.
Qed.

(** X4. A character gets a replacement exactly when its lowercase form has a
    table entry (the check that the replacement differs from the character
    never fires), and the replacement keeps the case: an uppercase letter
    gets the uppercase of the entry, any other character the entry itself. *)
Theorem replacement_keeps_case (ch : ascii) :
  replacement ch
  = (λ mapped, if JS.isUpperLetter ch then JS.toUpperCase mapped else mapped)
      <$> PHONETIC_MAP !! JS.toLowerCase ch
  ∧ ∀ rep, replacement ch = Some rep →
      JS.isUpperLetter rep = JS.isUpperLetter ch
      ∧ JS.isLowerLetter rep = JS.isLowerLetter ch
      ∧ (JS.isUpperLetter ch || JS.isLowerLetter ch) = true.
Proof.
  destruct ch as [[] [] [] [] [] [] [] []];
    (split; [by vm_compute|]);
    intros rep Hrep; vm_compute in Hrep;
    first [discriminate Hrep | injection Hrep as <-; by vm_compute].
Qed.

(** ** The effective word list *)

Lemma set_add_NoDup (x : string) (l : list string) :
  NoDup l → NoDup (set_add x l).
Proof.
  intros Hl. unfold set_add. case_bool_decide as Hx; [done|].
  apply NoDup_app. split; [done|]. split; [|apply NoDup_singleton].
  intros y Hy ->%list_elem_of_singleton. done.
Qed.

Lemma set_add_prefix (x : string) (l : list string) : l `prefix_of` set_add x l.
Proof.
  unfold set_add. case_bool_decide; [done|]. by apply prefix_app_r.
Qed.

Lemma set_add_fresh (x : string) (l : list string) :
  x ∉ l → set_add x l = l ++ [x].
Proof. intros Hx. unfold set_add. by rewrite bool_decide_eq_false_2. Qed.

(** Adding the members of a list to a set, one after the other. *)
Lemma foldl_set_add (l s0 : list string) :
  NoDup s0 →
  NoDup (foldl (λ s v, set_add v s) s0 l)
  ∧ (∀ x, x ∈ foldl (λ s v, set_add v s) s0 l ↔ x ∈ s0 ∨ x ∈ l)
  ∧ s0 `prefix_of` foldl (λ s v, set_add v s) s0 l.
Proof.
  revert s0. induction l as [|v l IH]; intros s0 Hs0; cbn [foldl].
  - split; [done|]. split; [|done]. intros x. rewrite elem_of_nil. tauto.
  - destruct (IH (set_add v s0) (set_add_NoDup v s0 Hs0)) as (Hnd & Hel & Hpre).
    split; [done|]. split.
    + intros x. rewrite Hel, elem_of_set_add, elem_of_cons. tauto.
    + etrans; [apply set_add_prefix | done].
Qed.

Lemma foldl_set_add_NoDup_id (l s0 : list string) :
  NoDup (s0 ++ l) → foldl (λ s v, set_add v s) s0 l = s0 ++ l.
Proof.
  revert s0. induction l as [|v l IH]; intros s0 Hnd; cbn [foldl].
  - by rewrite app_nil_r.
  - assert (Hv : v ∉ s0).
    { apply NoDup_app in Hnd as (_ & Hdisj & _). intros Hv.
      apply (Hdisj v Hv). apply list_elem_of_here. }
    rewrite set_add_fresh by done. rewrite IH; rewrite <- app_assoc; done.
Qed.

(** Adding the variants of every word of a list. *)
Lemma foldl_variants (ws s0 : list string) :
  NoDup s0 →
  let r := foldl (λ s w, foldl (λ s' v, set_add v s') s (garbledVariants w))
                 s0 ws in
  NoDup r
  ∧ (∀ x, x ∈ r ↔ x ∈ s0 ∨ ∃ b, b ∈ ws ∧ x ∈ garbledVariants b)
  ∧ s0 `prefix_of` r.
Proof.
  revert s0. induction ws as [|w ws IH]; intros s0 Hs0; cbn [foldl].
  - split; [done|]. split; [|done]. intros x. split; [auto|].
    intros [?|(b & Hb & _)]; [done|]. by apply elem_of_nil in Hb.
  - destruct (foldl_set_add (garbledVariants w) s0 Hs0) as (Hnd1 & Hel1 & Hpre1).
    destruct (IH _ Hnd1) as (Hnd & Hel & Hpre).
    split; [done|]. split.
    + intros x. rewrite Hel, Hel1. split.
      * intros [[?|?]|(b & Hb & Hx)]; [by left | right | right].
        -- exists w. split; [apply list_elem_of_here | done].
        -- exists b. split; [by apply list_elem_of_further | done].
      * intros [?|(b & Hb & Hx)]; [by left; left|].
        apply elem_of_cons in Hb as [->|Hb]; [by left; right|].
        right. by exists b.
    + etrans; done.
Qed.

(** The effective list when garbling is on. *)
Lemma getEffectiveWordList_on (activeWords : list string) (garbleMax : Z) :
  0 < garbleMax →
  NoDup (getEffectiveWordList activeWords garbleMax)
  ∧ (∀ w, w ∈ getEffectiveWordList activeWords garbleMax
          ↔ w ∈ activeWords ∨ ∃ b, b ∈ activeWords ∧ w ∈ garbledVariants b)
  ∧ (NoDup activeWords →
       activeWords `prefix_of` getEffectiveWordList activeWords garbleMax).
Proof.
  intros Hgm. unfold getEffectiveWordList.
  destruct (Z.gtb_spec garbleMax 0); [|lia].
  destruct (foldl_set_add activeWords [] NoDup_nil_2) as (Hnd0 & Hel0 & _).
  destruct (foldl_variants activeWords _ Hnd0) as (Hnd & Hel & Hpre).
  split; [done|]. split.
  - intros w. rewrite Hel, Hel0, elem_of_nil. tauto.
  - intros Hact.
    pose proof (foldl_set_add_NoDup_id activeWords [] Hact) as Heq.
    rewrite Heq in Hpre. rewrite Heq. exact Hpre.
Qed.

Lemma getEffectiveWordList_off (activeWords : list string) (garbleMax : Z) :
  garbleMax ≤ 0 → getEffectiveWordList activeWords garbleMax = activeWords.
Proof.
  intros Hgm. unfold getEffectiveWordList.
  destruct (Z.gtb_spec garbleMax 0); [lia | done].
Qed.

(** X5. With a positive garble setting the effective list has no duplicates
    and holds exactly the active words and the variants of active words;
    with a setting of zero or less it is the active list itself. *)
Theorem getEffectiveWordList_members (activeWords : list string)
    (garbleMax : Z) :
  (0 < garbleMax →
     NoDup (getEffectiveWordList activeWords garbleMax)
     ∧ ∀ w, w ∈ getEffectiveWordList activeWords garbleMax
            ↔ w ∈ activeWords ∨ ∃ b, b ∈ activeWords ∧ w ∈ garbledVariants b)
  ∧ (garbleMax ≤ 0 → getEffectiveWordList activeWords garbleMax = activeWords).
Proof.
  split.
  - intros Hgm. destruct (getEffectiveWordList_on activeWords garbleMax Hgm)
      as (Hnd & Hel & _). done.
  - apply getEffectiveWordList_off.
Qed.

(** X6. For a duplicate-free active list the effective list is the active
    list followed by the new variants: distinct strings, none of them an
    active word, each a variant of an active word. So the effective list is
    at least as long as the active one. *)
Theorem getEffectiveWordList_extends (activeWords : list string)
    (garbleMax : Z) :
  NoDup activeWords →
  ∃ extras,
    getEffectiveWordList activeWords garbleMax = activeWords ++ extras
    ∧ NoDup (activeWords ++ extras)
    ∧ (∀ v, v ∈ extras → (v ∉ activeWords)
            ∧ ∃ b, b ∈ activeWords ∧ v ∈ garbledVariants b)
    ∧ (length activeWords
       ≤ length (getEffectiveWordList activeWords garbleMax))%nat.
Proof.
  intros Hact. destruct (Z.lt_ge_cases 0 garbleMax) as [Hgm|Hgm].
  - destruct (getEffectiveWordList_on activeWords garbleMax Hgm)
      as (Hnd & Hel & Hpre).
    destruct (Hpre Hact) as [extras Heq]. exists extras.
    rewrite Heq in *. split; [done|]. split; [done|]. split.
    + intros v Hv. apply NoDup_app in Hnd as (_ & Hdisj & _).
      assert (Hnot : v ∉ activeWords) by (intros Hin; by apply (Hdisj v Hin)).
      split; [done|].
      destruct (proj1 (Hel v)) as [?|?]; [|done..].
      apply elem_of_app. by right.
    + rewrite length_app. lia.
  - exists []. rewrite getEffectiveWordList_off by lia.
    rewrite app_nil_r. split; [done|]. split; [done|]. split; [|done].
    intros v Hv. by apply elem_of_nil in Hv.
Qed.

Lemma getEffectiveWordList_extends_witness :
  ∃ extras,
    getEffectiveWordList ["cat"; "kat"] 1 = ["cat"; "kat"] ++ extras
    ∧ NoDup (["cat"; "kat"] ++ extras)
    ∧ (∀ v, v ∈ extras → (v ∉ ["cat"; "kat"])
            ∧ ∃ b, b ∈ ["cat"; "kat"] ∧ v ∈ garbledVariants b)
    ∧ (length ["cat"; "kat"]
       ≤ length (getEffectiveWordList ["cat"; "kat"] 1))%nat.
Proof.
  apply (getEffectiveWordList_extends ["cat"; "kat"] 1).
  apply (bool_decide_unpack _). by vm_compute.
Defined.

(** X7. Every word of the effective list has the length of some active
    word, and the effective list is empty exactly when the active list is:
    garbling changes neither the shortest nor the longest word length. *)
Theorem getEffectiveWordList_lengths (activeWords : list string)
    (garbleMax : Z) :
  (∀ w, w ∈ getEffectiveWordList activeWords garbleMax →
        ∃ b, b ∈ activeWords ∧ String.length w = String.length b)
  ∧ (∀ b, b ∈ activeWords → b ∈ getEffectiveWordList activeWords garbleMax)
  ∧ (getEffectiveWordList activeWords garbleMax = [] ↔ activeWords = []).
Proof.
  assert (Hsub : ∀ b, b ∈ activeWords →
                   b ∈ getEffectiveWordList activeWords garbleMax).
  { intros b Hb. destruct (Z.lt_ge_cases 0 garbleMax) as [Hgm|Hgm].
    - apply (getEffectiveWordList_on activeWords garbleMax Hgm). by left.
    - by rewrite getEffectiveWordList_off. }
  assert (Hlen : ∀ w, w ∈ getEffectiveWordList activeWords garbleMax →
                   ∃ b, b ∈ activeWords ∧ String.length w = String.length b).
  { intros w Hw. destruct (Z.lt_ge_cases 0 garbleMax) as [Hgm|Hgm].
    - apply (getEffectiveWordList_on activeWords garbleMax Hgm) in Hw
        as [Hw|(b & Hb & Hw)]; [by exists w|].
      exists b. split; [done|].
      pose proof (garbledVariants_variant b) as Hall.
      eapply Forall_forall in Hall; [|exact Hw].
      by apply variantOf_shape in Hall as [Hl _].
    - rewrite getEffectiveWordList_off in Hw by done. by exists w. }
  split; [done|]. split; [done|]. split.
  - intros Hnil. destruct activeWords as [|b bs]; [done|]. exfalso.
    specialize (Hsub b (list_elem_of_here _ _)). rewrite Hnil in Hsub.
    by apply elem_of_nil in Hsub.
  - intros ->. destruct (getEffectiveWordList [] garbleMax) as [|w ws] eqn:He;
      [done|]. exfalso.
    destruct (Hlen w) as (b & Hb & _); [apply list_elem_of_here|].
    by apply elem_of_nil in Hb.
Qed.

(** ** More on the sampler *)

Lemma uint32_small (raw : Z) : 0 ≤ raw < 4294967296 → JS.uint32 raw = raw.
Proof. intros Hraw. unfold JS.uint32. apply Z.mod_small. exact Hraw. Qed.

Lemma samplerLimit_multiple (max : Z) :
  0 < max → samplerLimit max = 4294967295 / max * max
            ∧ samplerLimit max / max = 4294967295 / max.
Proof.
  intros Hmax. split; [done|]. unfold samplerLimit.
  apply Z.div_mul. lia.
Qed.

(** One accepted draw: the sampler returns at once. *)
Lemma getSecureRandomIndex_one_draw (max raw : Z) (rest : list Z) :
  0 < max →
  0 ≤ raw < samplerLimit max → raw < 4294967296 →
  getSecureRandomIndex max (raw :: rest) = Returned (raw mod max) rest.
Proof.
  intros Hmax Hraw H32. rewrite getSecureRandomIndex_unfold by done.
  rewrite drawBelow_accept by (rewrite uint32_small; lia).
  rewrite uint32_small by lia. by rewrite Z.rem_mod_nonneg by lia.
Qed.

(** What a run that returns has done. *)
Lemma getSecureRandomIndex_returned (max : Z) (draws : list Z) (r : Z)
    (rest : list Z) :
  0 < max →
  getSecureRandomIndex max draws = Returned r rest →
  ∃ skipped raw,
    draws = skipped ++ raw :: rest
    ∧ Forall (λ d, samplerLimit max ≤ JS.uint32 d) skipped
    ∧ JS.uint32 raw < samplerLimit max
    ∧ r = JS.uint32 raw mod max.
Proof.
  intros Hmax. rewrite getSecureRandomIndex_unfold by done.
  destruct (drawBelow _ draws) as [value rest'| |] eqn:Hdraw; [|done..].
  intros [= <- <-].
  apply drawBelow_returned in Hdraw as (skipped & raw & -> & Hsk & -> & Hv).
  exists skipped, raw. split; [done|]. split; [done|]. split; [lia|].
  apply Z.rem_mod_nonneg; lia.
Qed.

Lemma drawBelow_starved (limit : Z) (draws : list Z) :
  drawBelow limit draws = Starved ↔ Forall (λ d, limit ≤ JS.uint32 d) draws.
Proof.
  induction draws as [|d draws IH]; cbn [drawBelow].
  - split; [constructor | done].
  - destruct (Z.geb_spec (JS.uint32 d) limit) as [Hge|Hlt].
    + rewrite IH. split; [by constructor | by inversion 1].
    + split; [done|]. inversion 1; lia.
Qed.

(** X8. No modulo bias: for a bound between 1 and [2^32 - 1] and a residue
    [r] below the bound, the 32-bit values on which the sampler returns [r]
    at the first draw are exactly the values [k * bound + r] with
    [0 <= k < floor((2^32 - 1) / bound)], the same number for every [r]. *)
Theorem getSecureRandomIndex_unbiased (max r : Z) :
  0 < max ≤ 4294967295 →
  0 ≤ r < max →
  (∀ k rest, 0 ≤ k < 4294967295 / max →
     0 ≤ k * max + r < 4294967296
     ∧ getSecureRandomIndex max ((k * max + r) :: rest) = Returned r rest)
  ∧ (∀ raw rest, 0 ≤ raw < 4294967296 →
       getSecureRandomIndex max (raw :: rest) = Returned r rest →
       ∃ k, 0 ≤ k < 4294967295 / max ∧ raw = k * max + r).
Proof.
  intros Hmax Hr.
  pose proof (samplerLimit_bounds max Hmax) as Hlim.
  destruct (samplerLimit_multiple max ltac:(lia)) as [Hmul _].
  split.
  - intros k rest Hk.
    assert (Hraw : 0 ≤ k * max + r < samplerLimit max) by (rewrite Hmul; nia).
    split; [lia|].
    rewrite getSecureRandomIndex_one_draw by lia. f_equal.
    rewrite Z.add_comm, Z.mod_add by lia. apply Z.mod_small. lia.
  - intros raw rest Hraw Hret.
    apply getSecureRandomIndex_returned in Hret
      as (skipped & raw' & Heq & _ & Hacc & ->); [|lia].
    assert (Hsk : skipped = []).
    { apply (f_equal length) in Heq. rewrite length_app in Heq.
      cbn [length] in Heq. destruct skipped; [done|]. cbn [length] in Heq. lia. }
    subst skipped. injection Heq as <-. rewrite uint32_small in * by done.
    exists (raw / max). split.
    + split; [apply Z.div_pos; lia|].
      apply Z.div_lt_upper_bound; [lia|]. rewrite Hmul in Hacc. lia.
    + pose proof (Z.div_mod raw max ltac:(lia)). lia.
Qed.

Lemma getSecureRandomIndex_unbiased_witness :
  getSecureRandomIndex 10 ((429496728 * 10 + 7) :: [3]) = Returned 7 [3].
Proof.
  destruct (getSecureRandomIndex_unbiased 10 7 ltac:(lia) ltac:(lia))
    as [Hfwd _].
  apply (Hfwd 429496728 [3]). by vm_compute.
Defined.

(** X9. At least half of the 32-bit values are accepted: for a bound between
    1 and [2^32 - 1] the limit is at least [2^31], and a draw below [2^31]
    is returned, reduced modulo the bound, without a second draw. *)
Theorem getSecureRandomIndex_accepts_half (max raw : Z) (rest : list Z) :
  0 < max ≤ 4294967295 →
  0 ≤ raw < 2147483648 →
  2147483648 ≤ samplerLimit max
  ∧ getSecureRandomIndex max (raw :: rest) = Returned (raw mod max) rest.
Proof.
  intros Hmax Hraw.
  assert (Hlim : 2147483648 ≤ samplerLimit max).
  { unfold samplerLimit.
    pose proof (Z.div_mod 4294967295 max ltac:(lia)) as Hdm.
    pose proof (Z.mod_pos_bound 4294967295 max ltac:(lia)) as Hmod.
    destruct (Z.le_gt_cases max 2147483648) as [Hle|Hgt]; [lia|].
    assert (H1 : 1 ≤ 4294967295 / max) by (apply Z.div_le_lower_bound; lia).
    nia. }
  split; [done|]. apply getSecureRandomIndex_one_draw; lia.
Qed.

Lemma getSecureRandomIndex_accepts_half_witness :
  2147483648 ≤ samplerLimit 3000000000
  ∧ getSecureRandomIndex 3000000000 (2147483647 :: [])
    = Returned (2147483647 mod 3000000000) [].
Proof.
  apply (getSecureRandomIndex_accepts_half 3000000000 2147483647 []); lia.
Defined.

(** X10. For a positive bound, the sampler returns exactly when some draw is
    below the limit: it has then consumed the draws up to the first such
    draw and nothing after it. It is still drawing at the end of the supply
    exactly when every draw of the supply is at or above the limit. *)
Theorem getSecureRandomIndex_outcome (max : Z) (draws : list Z) :
  0 < max →
  (∀ r rest,
     getSecureRandomIndex max draws = Returned r rest
     ↔ ∃ skipped raw,
         draws = skipped ++ raw :: rest
         ∧ Forall (λ d, samplerLimit max ≤ JS.uint32 d) skipped
         ∧ JS.uint32 raw < samplerLimit max
         ∧ r = JS.uint32 raw mod max)
  ∧ (getSecureRandomIndex max draws = Starved
     ↔ Forall (λ d, samplerLimit max ≤ JS.uint32 d) draws).
Proof.
  intros Hmax. split.
  - intros r rest. split; [by apply getSecureRandomIndex_returned|].
    intros (skipped & raw & -> & Hsk & Hacc & ->).
    rewrite getSecureRandomIndex_unfold by done.
    rewrite drawBelow_skip, drawBelow_accept by done.
    pose proof (uint32_range raw). by rewrite Z.rem_mod_nonneg by lia.
  - rewrite getSecureRandomIndex_unfold by done.
    rewrite <- drawBelow_starved.
    destruct (drawBelow _ draws); split; done.
Qed.

Lemma getSecureRandomIndex_outcome_witness :
  getSecureRandomIndex 6 [4294967295; 4294967294; 20; 1] = Returned 2 [1].
Proof.
  destruct (getSecureRandomIndex_outcome 6 [4294967295; 4294967294; 20; 1]
              ltac:(lia)) as [Hret _].
  apply Hret. exists [4294967295; 4294967294], 20.
  split; [reflexivity|]. split; [|by vm_compute].
  repeat constructor; by vm_compute.
Defined.

(** X11. A bound above [2^32 - 1] makes the limit zero: the sampler neither
    returns nor throws, whatever the supply of draws. *)
Theorem getSecureRandomIndex_beyond_uint32 (max : Z) (draws : list Z) :
  4294967295 < max →
  samplerLimit max = 0 ∧ getSecureRandomIndex max draws = Starved.
Proof.
  intros Hmax. split; [|by apply getSecureRandomIndex_large_bound].
  unfold samplerLimit. by rewrite Z.div_small by lia.
Qed.

Lemma getSecureRandomIndex_beyond_uint32_witness :
  samplerLimit 4294967296 = 0
  ∧ getSecureRandomIndex 4294967296 [0; 1; 2] = Starved.
Proof.
  apply (getSecureRandomIndex_beyond_uint32 4294967296 [0; 1; 2]). lia.
Defined.

(** ** More on the builder *)

Lemma swap_Permutation (i j : nat) (picked : list string) :
  swap i j picked ≡ₚ picked.
Proof.
  unfold swap.
  destruct (picked !! i) as [a|] eqn:Ha; [|done].
  destruct (picked !! j) as [b|] eqn:Hb; [|done].
  pose proof (lookup_lt_Some _ _ _ Ha) as Hi.
  pose proof (lookup_lt_Some _ _ _ Hb) as Hj.
  apply Permutation_inj. split; [by rewrite !length_insert|].
  exists (λ k, if decide (k = j) then i else if decide (k = i) then j else k).
  split.
  - intros x y. repeat case_decide; lia.
  - intros k. destruct (decide (k = j)) as [->|Hkj].
    + rewrite list_lookup_insert_eq by (by rewrite length_insert). done.
    + rewrite list_lookup_insert_ne by done.
      destruct (decide (k = i)) as [->|Hki].
      * rewrite list_lookup_insert_eq by done. done.
      * rewrite list_lookup_insert_ne by done. done.
Qed.

(** X12. The words of a returned passphrase are, up to the order given by
    the shuffle, the capitalised picks: first [max(garbleMax, 0)] words of
    the effective list, then [max(count - garbleMax, 0)] words of the base
    list. *)
Theorem pickWords_permutation (activeWords : list string) (garbleSetting : Z)
    (baseWords : list string) (count garbleMax : Z) (draws : list Z)
    (finalWords : list string) (rest : list Z) :
  pickWords activeWords garbleSetting baseWords count garbleMax draws
  = Returned finalWords rest →
  ∃ garbled plain,
    finalWords ≡ₚ map capitalize (garbled ++ plain)
    ∧ length garbled = Z.to_nat (Z.max garbleMax 0)
    ∧ Forall (λ w, w ∈ getEffectiveWordList activeWords garbleSetting) garbled
    ∧ length plain = Z.to_nat (count - garbleMax)
    ∧ Forall (λ w, w ∈ baseWords) plain.
Proof.
  assert (Hpush : ∀ words (i : Z) (s : list string) d s' r,
            (w <- pickWord words ;; ret (s ++ [w])) d = Returned s' r →
            ∃ w, w ∈ words ∧ s' = s ++ [w]).
  { intros words i s d s' r (w & r' & Hw & [= <- <-])%bind_Returned.
    apply pickWord_elem in Hw. eauto. }
  unfold pickWords.
  intros (picked1 & rest1 & H1 & Hk1)%bind_Returned.
  apply bind_Returned in Hk1 as (picked2 & rest2 & H2 & Hk2).
  apply bind_Returned in Hk2 as (picked3 & rest3 & H3 & [= <- <-]).
  assert (Hinv1 : length picked1 = Z.to_nat (Z.max garbleMax 0)
                  ∧ Forall (λ w, w ∈ getEffectiveWordList activeWords
                                       garbleSetting) picked1).
  { destruct (Z.gtb_spec garbleMax 0) as [Hgm|Hgm].
    - unfold forUp in H1.
      eapply (forUpSteps_invariant
                (λ n picked, length picked = n
                   ∧ Forall (λ w, w ∈ getEffectiveWordList activeWords
                                        garbleSetting) picked))
        with (n := 0%nat) in H1.
      + replace (Z.max garbleMax 0) with (garbleMax - 0) by lia. exact H1.
      + intros i s d s' r n [Hlen HP] (w & Hw & ->)%Hpush; [|exact i]. split.
        * rewrite length_app. cbn [length]. lia.
        * apply Forall_app. split; [done|]. by constructor.
      + by split.
    - injection H1 as <- <-. replace (Z.max garbleMax 0) with 0 by lia.
      by split. }
  destruct Hinv1 as [Hlen1 HP1].
  unfold forUp in H2.
  eapply (forUpSteps_invariant
            (λ n picked, ∃ plain, picked = picked1 ++ plain
               ∧ length plain = n ∧ Forall (λ w, w ∈ baseWords) plain))
    with (n := 0%nat) in H2.
  2:{ intros i s d s' r n (plain & -> & Hlen & HP) (w & Hw & ->)%Hpush;
        [|exact i].
      exists (plain ++ [w]). split; [by rewrite app_assoc|]. split.
      - rewrite length_app. cbn [length]. lia.
      - apply Forall_app. split; [done|]. by constructor. }
  2:{ exists []. by rewrite app_nil_r. }
  destruct H2 as (plain & -> & Hlen2 & HP2).
  unfold forDown in H3.
  eapply (forDownSteps_invariant (λ _ picked, picked ≡ₚ picked1 ++ plain))
    with (n := 0%nat) in H3.
  - exists picked1, plain. split; [by rewrite H3|]. done.
  - intros i s d s' r n Hperm (j & r' & _ & [= <- <-])%bind_Returned.
    by rewrite swap_Permutation.
  - done.
Qed.

Lemma pickWords_permutation_witness :
  ∃ garbled plain,
    ["Cet"; "Doj"; "Cat"] ≡ₚ map capitalize (garbled ++ plain)
    ∧ length garbled = Z.to_nat (Z.max 3 0)
    ∧ Forall (λ w, w ∈ getEffectiveWordList ["cat"; "dog"; "emu"] 3) garbled
    ∧ length plain = Z.to_nat (2 - 3)
    ∧ Forall (λ w, w ∈ ["cat"; "dog"; "emu"]) plain.
Proof.
  apply (pickWords_permutation ["cat"; "dog"; "emu"] 3 ["cat"; "dog"; "emu"]
           2 3 [0; 4; 8; 0; 0] ["Cet"; "Doj"; "Cat"] []).
  reflexivity.
Defined.

Section LoopRuns.
Context {S : Type} (body : Z → S → Rand S) (lo hi : Z).

(** Each turn whose index lies in [[lo, hi]] returns after one draw below
    [2^31]. *)
Hypothesis body_run :
  ∀ i s d r, lo ≤ i ≤ hi → 0 ≤ d < 2147483648 →
    ∃ s', body i s (d :: r) = Returned s' r.

Lemma forUpSteps_run (steps : nat) :
  ∀ i s ds rest,
    lo ≤ i → i + Z.of_nat steps - 1 ≤ hi →
    length ds = steps →
    Forall (λ d, 0 ≤ d < 2147483648) ds →
    ∃ s', forUpSteps steps i body s (ds ++ rest) = Returned s' rest.
Proof.
  induction steps as [|steps IH]; intros i s ds rest Hlo Hhi Hlen Hds.
  - destruct ds; [|done]. by exists s.
  - destruct ds as [|d ds]; [done|]. apply Forall_cons in Hds as [Hd Hds].
    cbn [forUpSteps app]. unfold bind at 1.
    destruct (body_run i s d (ds ++ rest) ltac:(lia) Hd) as [s1 ->].
    apply IH; [lia | lia | by injection Hlen | done].
Qed.

Lemma forDownSteps_run (steps : nat) :
  ∀ i s ds rest,
    i ≤ hi → lo ≤ i - Z.of_nat steps + 1 →
    length ds = steps →
    Forall (λ d, 0 ≤ d < 2147483648) ds →
    ∃ s', forDownSteps steps i body s (ds ++ rest) = Returned s' rest.
Proof.
  induction steps as [|steps IH]; intros i s ds rest Hhi Hlo Hlen Hds.
  - destruct ds; [|done]. by exists s.
  - destruct ds as [|d ds]; [done|]. apply Forall_cons in Hds as [Hd Hds].
    cbn [forDownSteps app]. unfold bind at 1.
    destruct (body_run i s d (ds ++ rest) ltac:(lia) Hd) as [s1 ->].
    apply IH; [lia | lia | by injection Hlen | done].
Qed.
End LoopRuns.

Lemma getSecureRandomIndex_run (max d : Z) (r : list Z) :
  0 < max ≤ 4294967295 → 0 ≤ d < 2147483648 →
  getSecureRandomIndex max (d :: r) = Returned (d mod max) r.
Proof.
  intros Hmax Hd. apply getSecureRandomIndex_one_draw; [lia | | lia].
  pose proof (samplerLimit_bounds max Hmax) as Hb.
  assert (2147483648 ≤ samplerLimit max); [|lia].
  unfold samplerLimit in *.
  pose proof (Z.div_mod 4294967295 max ltac:(lia)) as Hdm.
  pose proof (Z.mod_pos_bound 4294967295 max ltac:(lia)) as Hmod.
  destruct (Z.le_gt_cases max 2147483648) as [Hle|Hgt]; [lia|].
  assert (H1 : 1 ≤ 4294967295 / max) by (apply Z.div_le_lower_bound; lia).
  nia.
Qed.

Lemma pickWord_run (words : list string) (d : Z) (r : list Z) :
  words ≠ [] → Z.of_nat (length words) ≤ 4294967295 → 0 ≤ d < 2147483648 →
  ∃ w, pickWord words (d :: r) = Returned w r.
Proof.
  intros Hne Hlen Hd. unfold pickWord, bind.
  assert (Hpos : 0 < Z.of_nat (length words) ≤ 4294967295).
  { destruct words; [done|]. cbn [length] in *. lia. }
  rewrite getSecureRandomIndex_run by done.
  pose proof (Z.mod_pos_bound d (Z.of_nat (length words)) ltac:(lia)) as Hm.
  destruct (lookup_lt_is_Some_2 words (Z.to_nat (d mod Z.of_nat (length words))))
    as [w ->]; [lia|]. by exists w.
Qed.

Lemma getEffectiveWordList_subset (activeWords : list string) (garbleMax : Z)
    (b : string) :
  b ∈ activeWords → b ∈ getEffectiveWordList activeWords garbleMax.
Proof.
  intros Hb. destruct (Z.lt_ge_cases 0 garbleMax) as [Hgm|Hgm].
  - apply (getEffectiveWordList_on activeWords garbleMax Hgm). by left.
  - by rewrite getEffectiveWordList_off.
Qed.

Lemma getEffectiveWordList_nonempty (activeWords : list string) (garbleMax : Z) :
  activeWords ≠ [] → getEffectiveWordList activeWords garbleMax ≠ [].
Proof.
  intros Hne Hnil. destruct activeWords as [|b bs]; [done|].
  pose proof (getEffectiveWordList_subset (b :: bs) garbleMax b
                (list_elem_of_here _ _)) as Hin.
  rewrite Hnil in Hin. by apply elem_of_nil in Hin.
Qed.

(** The builder runs to the end on draws below [2^31]. *)
Lemma generatePassphrase_runs (activeWords : list string) (count : Z)
    (separator : string) (garbleMax : Z) (ds rest : list Z) :
  1 ≤ count ≤ 4294967295 →
  0 ≤ garbleMax ≤ count →
  activeWords ≠ [] →
  Z.of_nat (length activeWords) ≤ 4294967295 →
  Z.of_nat (length (getEffectiveWordList activeWords garbleMax)) ≤ 4294967295 →
  length ds = Z.to_nat (2 * count - 1) →
  Forall (λ d, 0 ≤ d < 2147483648) ds →
  ∃ picked,
    generatePassphrase activeWords garbleMax activeWords count separator
      garbleMax (ds ++ rest)
    = Returned (JS.join separator (map capitalize picked)) rest
    ∧ length picked = Z.to_nat count
    ∧ Forall (λ w, w ∈ getEffectiveWordList activeWords garbleMax) picked.
Proof.
  intros Hcount Hgm Hne Hlen Hefflen Hds Hall.
  set (eff := getEffectiveWordList activeWords garbleMax) in *.
  assert (Heffne : eff ≠ []) by (by apply getEffectiveWordList_nonempty).
  (* the three groups of draws *)
  set (n1 := Z.to_nat garbleMax). set (n2 := Z.to_nat (count - garbleMax)).
  set (ds1 := take n1 ds). set (ds2 := take n2 (drop n1 ds)).
  set (ds3 := drop n2 (drop n1 ds)).
  assert (Hsplit : ds = ds1 ++ ds2 ++ ds3).
  { unfold ds1, ds2, ds3. by rewrite !take_drop. }
  assert (Hl1 : length ds1 = n1) by (unfold ds1; rewrite length_take; lia).
  assert (Hl2 : length ds2 = n2).
  { unfold ds2. rewrite length_take, length_drop. lia. }
  assert (Hl3 : length ds3 = Z.to_nat (count - 1)).
  { unfold ds3. rewrite !length_drop. lia. }
  assert (Ha1 : Forall (λ d, 0 ≤ d < 2147483648) ds1).
  { unfold ds1. by apply Forall_take. }
  assert (Ha2 : Forall (λ d, 0 ≤ d < 2147483648) ds2).
  { unfold ds2. by apply Forall_take, Forall_drop. }
  assert (Ha3 : Forall (λ d, 0 ≤ d < 2147483648) ds3).
  { unfold ds3. by apply Forall_drop, Forall_drop. }
  assert (Hpush : ∀ words, words ≠ [] → Z.of_nat (length words) ≤ 4294967295 →
            ∀ (i : Z) (s : list string) d r, 0 ≤ i ≤ count →
              0 ≤ d < 2147483648 →
              ∃ s', (w <- pickWord words ;; ret (s ++ [w])) (d :: r)
                    = Returned s' r).
  { intros words Hw Hwl i s d r _ Hd. unfold bind.
    destruct (pickWord_run words d r Hw Hwl Hd) as [w ->]. by eexists. }
  (* the garbled picks *)
  assert (H1 : ∃ picked1,
            (if garbleMax >? 0
             then forUp 0 garbleMax
                    (λ _ picked, w <- pickWord eff ;; ret (picked ++ [w])) []
             else ret []) (ds ++ rest)
            = Returned picked1 (ds2 ++ ds3 ++ rest)).
  { rewrite Hsplit, <- !app_assoc.
    destruct (Z.gtb_spec garbleMax 0) as [Hpos|Hzero].
    - unfold forUp.
      apply (forUpSteps_run _ 0 count (Hpush eff Heffne Hefflen));
        [lia | lia | rewrite Hl1; unfold n1; f_equal; lia | done].
    - assert (ds1 = []) as -> by (apply length_zero_iff_nil; unfold n1 in *; lia).
      by exists []. }
  destruct H1 as [picked1 H1].
  (* the base picks *)
  destruct (forUpSteps_run
              (λ _ picked, w <- pickWord activeWords ;; ret (picked ++ [w]))
              0 count (Hpush activeWords Hne Hlen)
              n2 garbleMax picked1 ds2 (ds3 ++ rest))
    as [picked2 H2]; [lia | unfold n2; lia | done | done |].
  (* the shuffle *)
  assert (Hlen2 : length picked2 = Z.to_nat count).
  { unfold forUp in H1.
    assert (Hlen1 : length picked1 = n1).
    { destruct (Z.gtb_spec garbleMax 0) as [Hpos|Hzero].
      - eapply (forUpSteps_invariant (λ n picked, length picked = n))
          with (n := 0%nat) in H1; [| |done].
        + rewrite H1. unfold n1. f_equal. lia.
        + intros i s d s' r n Hs (w & r' & _ & [= <- <-])%bind_Returned.
          rewrite length_app. cbn [length]. lia.
      - injection H1 as <- _. unfold n1. cbn [length]. lia. }
    eapply (forUpSteps_invariant (λ n picked, length picked = n)) in H2;
      [| |exact Hlen1].
    - rewrite H2. unfold n1, n2. lia.
    - intros i s d s' r n Hs (w & r' & _ & [= <- <-])%bind_Returned.
      rewrite length_app. cbn [length]. lia. }
  destruct (forDownSteps_run
              (λ i picked, j <- getSecureRandomIndex (i + 1) ;;
                           ret (swap (Z.to_nat i) (Z.to_nat j) picked))
              1 (count - 1)) with
    (steps := Z.to_nat (count - 1)) (i := count - 1) (s := picked2)
    (ds := ds3) (rest := rest) as [picked3 H3]; [|lia|lia|done|done|].
  { intros i s d r Hi Hd. unfold bind.
    rewrite getSecureRandomIndex_run by lia. by eexists. }
  (* putting the three loops together *)
  assert (Hrun : pickWords activeWords garbleMax activeWords count garbleMax
                   (ds ++ rest)
                 = Returned (map capitalize picked3) rest).
  { unfold pickWords. fold eff. unfold bind at 1. rewrite H1.
    unfold bind at 1. unfold forUp. fold n2. rewrite H2.
    unfold bind at 1. unfold forDown. rewrite Hlen2.
    replace (Z.of_nat (Z.to_nat count) - 1) with (count - 1) by lia.
    rewrite H3. done. }
  assert (Hgen : generatePassphrase activeWords garbleMax activeWords count
                   separator garbleMax (ds ++ rest)
                 = Returned (JS.join separator (map capitalize picked3)) rest).
  { unfold generatePassphrase, bind. by rewrite Hrun. }
  destruct (generatePassphrase_words _ _ _ _ _ _ _ _ _ Hgm Hgen)
    as (picked & Heq & Hlenp & HP).
  exists picked. rewrite Hgen, Heq. split; [done|]. split; [done|].
  eapply Forall_impl; [exact HP|]. intros w [Hw|Hw]; [done|].
  by apply getEffectiveWordList_subset.
Qed.

(** X13. Called as the page calls it, with [1 <= count], a garble setting
    between 0 and [count] and a non-empty word list, the builder returns as
    soon as it is given [2 * count - 1] draws below [2^31] (one per word,
    one per turn of the shuffle): it consumes exactly these and its
    passphrase joins [count] capitalised words of the effective list. *)
Theorem generatePassphrase_returns (activeWords : list string) (count : Z)
    (separator : string) (garbleMax : Z) (ds rest : list Z) :
  1 ≤ count ≤ 4294967295 →
  0 ≤ garbleMax ≤ count →
  activeWords ≠ [] →
  Z.of_nat (length activeWords) ≤ 4294967295 →
  Z.of_nat (length (getEffectiveWordList activeWords garbleMax)) ≤ 4294967295 →
  length ds = Z.to_nat (2 * count - 1) →
  Forall (λ d, 0 ≤ d < 2147483648) ds →
  ∃ picked,
    generatePassphrase activeWords garbleMax activeWords count separator
      garbleMax (ds ++ rest)
    = Returned (JS.join separator (map capitalize picked)) rest
    ∧ length picked = Z.to_nat count
    ∧ Forall (λ w, w ∈ getEffectiveWordList activeWords garbleMax) picked.
Proof. apply generatePassphrase_runs. Qed.

Lemma generatePassphrase_returns_witness :
  ∃ picked,
    generatePassphrase ["cat"; "dog"; "emu"] 1 ["cat"; "dog"; "emu"] 2 "-" 1
      ([7; 2; 1] ++ [99])
    = Returned (JS.join "-" (map capitalize picked)) [99]
    ∧ length picked = Z.to_nat 2
    ∧ Forall (λ w, w ∈ getEffectiveWordList ["cat"; "dog"; "emu"] 1) picked.
Proof.
  apply (generatePassphrase_returns ["cat"; "dog"; "emu"] 2 "-" 1 [7; 2; 1]
           [99]).
  - lia.
  - lia.
  - discriminate.
  - vm_compute. discriminate.
  - vm_compute. discriminate.
  - reflexivity.
  - repeat constructor; lia.
Defined.

(** X14. With an empty base list, a garble setting of zero or less and at
    least one word to pick, the builder throws the sampler's range error
    before any draw is read. *)
Theorem generatePassphrase_empty_base (activeWords : list string)
    (garbleSetting count : Z) (separator : string) (garbleMax : Z)
    (draws : list Z) :
  garbleMax ≤ 0 →
  garbleMax < count →
  generatePassphrase activeWords garbleSetting [] count separator garbleMax
    draws = Thrown RangeError.
Proof.
  intros Hgm Hcount. unfold generatePassphrase, pickWords, bind.
  destruct (Z.gtb_spec garbleMax 0); [lia|]. cbn [ret].
  unfold forUp. destruct (Z.to_nat (count - garbleMax)) as [|n] eqn:Hn; [lia|].
  cbn [forUpSteps]. unfold bind, pickWord, bind. cbn [length].
  unfold getSecureRandomIndex. cbn. done.
Qed.

Lemma generatePassphrase_empty_base_witness :
  generatePassphrase [] 0 [] 4 "-" 0 [1; 2; 3] = Thrown RangeError.
Proof. apply generatePassphrase_empty_base; lia. Defined.

(** ** Strings, [split] and [join] *)

Lemma string_app_cons (c : ascii) (s t : string) :
  (String c s ++ t)%string = String c (s ++ t).
Proof. reflexivity. Qed.

Lemma string_app_nil_l (t : string) : ("" ++ t)%string = t.
Proof. reflexivity. Qed.

Lemma string_app_nil_r (s : string) : (s ++ "")%string = s.
Proof.
  induction s as [|c s IH]; [done|]. by rewrite string_app_cons, IH.
Qed.

Lemma string_app_assoc (a b c : string) :
  ((a ++ b) ++ c)%string = (a ++ (b ++ c))%string.
Proof.
  induction a as [|x a IH]; [done|]. by rewrite !string_app_cons, IH.
Qed.

Lemma string_app_length (a b : string) :
  String.length (a ++ b) = (String.length a + String.length b)%nat.
Proof.
  induction a as [|x a IH]; [done|].
  rewrite string_app_cons. cbn [String.length]. by rewrite IH.
Qed.

Lemma string_of_list_ascii_app (l1 l2 : list ascii) :
  string_of_list_ascii (l1 ++ l2)
  = (string_of_list_ascii l1 ++ string_of_list_ascii l2)%string.
Proof.
  induction l1 as [|x l1 IH]; [done|].
  cbn [app string_of_list_ascii]. by rewrite string_app_cons, IH.
Qed.

Lemma prefix_app (sep t : string) : String.prefix sep (sep ++ t) = true.
Proof.
  induction sep as [|a sep IH]; [by destruct t|].
  rewrite string_app_cons. cbn [String.prefix].
  destruct (ascii_dec a a); [done | congruence].
Qed.

Lemma prefix_true (sep s : string) :
  String.prefix sep s = true → ∃ t, s = (sep ++ t)%string.
Proof.
  revert s. induction sep as [|a sep IH]; intros s.
  - intros _. by exists s.
  - destruct s as [|b s]; [done|]. cbn [String.prefix].
    destruct (ascii_dec a b) as [->|]; [|done].
    intros [t ->]%IH. by exists t.
Qed.

Lemma prefix_head_mismatch (a c : ascii) (sep s : string) :
  c ≠ a → String.prefix (String a sep) (String c s) = false.
Proof.
  intros Hne. cbn [String.prefix]. destruct (ascii_dec a c); [congruence | done].
Qed.

Lemma concat_cons (sep x : string) (l : list string) :
  l ≠ [] → String.concat sep (x :: l) = (x ++ sep ++ String.concat sep l)%string.
Proof. destruct l; [done|]. reflexivity. Qed.

Lemma splitFrom_nonempty (sep : string) (s : string) :
  ∀ skip cur, JS.splitFrom sep skip cur s ≠ [].
Proof.
  induction s as [|c s IH]; intros skip cur; cbn [JS.splitFrom]; [done|].
  destruct skip; [|apply IH]. destruct (String.prefix sep _); [done | apply IH].
Qed.

(** Passing over the rest of a separator. *)
Lemma splitFrom_skip (sep t s : string) (cur : list ascii) :
  JS.splitFrom sep (String.length t) cur (t ++ s) = JS.splitFrom sep 0 cur s.
Proof.
  induction t as [|c t IH]; [done|].
  rewrite string_app_cons. cbn [String.length JS.splitFrom]. exact IH.
Qed.

Lemma join_splitFrom (a : ascii) (sep' : string) (n : nat) :
  ∀ s cur, (String.length s ≤ n)%nat →
    JS.join (String a sep') (JS.splitFrom (String a sep') 0 cur s)
    = (string_of_list_ascii (rev cur) ++ s)%string.
Proof.
  induction n as [|n IH]; intros s cur Hlen.
  - destruct s; [|cbn [String.length] in Hlen; lia].
    cbn [JS.splitFrom JS.join String.concat]. by rewrite string_app_nil_r.
  - destruct s as [|c s].
    { cbn [JS.splitFrom JS.join String.concat]. by rewrite string_app_nil_r. }
    cbn [String.length] in Hlen. cbn [JS.splitFrom].
    destruct (String.prefix (String a sep') (String c s)) eqn:Hpre.
    + apply prefix_true in Hpre as [t Ht]. rewrite string_app_cons in Ht.
      injection Ht as -> ->.
      cbn [String.length]. rewrite Nat.sub_succ, Nat.sub_0_r, splitFrom_skip.
      unfold JS.join. rewrite concat_cons by apply splitFrom_nonempty.
      fold (JS.join (String a sep') (JS.splitFrom (String a sep') 0 [] t)).
      rewrite IH by (rewrite string_app_length in Hlen; lia).
      cbn [rev string_of_list_ascii].
      by rewrite string_app_nil_l, !string_app_cons.
    + rewrite IH by lia. cbn [rev].
      rewrite string_of_list_ascii_app, string_app_assoc.
      cbn [string_of_list_ascii]. by rewrite string_app_cons, string_app_nil_l.
Qed.

Lemma join_split_chars (s : string) :
  JS.join "" (map (λ c, String c EmptyString) (list_ascii_of_string s)) = s.
Proof.
  induction s as [|c s IH]; [done|]. cbn [list_ascii_of_string map].
  destruct s as [|c' s]; [done|].
  unfold JS.join in *. rewrite concat_cons by done. rewrite IH.
  by rewrite string_app_nil_l, string_app_cons, string_app_nil_l.
Qed.

Lemma join_split (s sep : string) : JS.join sep (JS.split s sep) = s.
Proof.
  destruct sep as [|a sep']; cbn [JS.split].
  - apply join_split_chars.
  - by rewrite (join_splitFrom a sep' (String.length s)).
Qed.

(** X15. Splitting a string on a separator and joining the parts with the
    same separator gives the string back, for every string and every
    separator, the empty one included. *)
Theorem join_split_id (s sep : string) : JS.join sep (JS.split s sep) = s.
Proof. apply join_split. Qed.

Lemma splitFrom_word (c0 : ascii) (sep' : string) (w : string) :
  c0 ∉ list_ascii_of_string w →
  ∀ cur tail,
    JS.splitFrom (String c0 sep') 0 cur (w ++ tail)
    = JS.splitFrom (String c0 sep') 0 (rev (list_ascii_of_string w) ++ cur) tail.
Proof.
  induction w as [|c w IH]; intros Hnot cur tail; [done|].
  cbn [list_ascii_of_string] in Hnot. apply not_elem_of_cons in Hnot as [Hc Hw].
  rewrite string_app_cons. cbn [JS.splitFrom].
  rewrite prefix_head_mismatch by done. rewrite IH by done.
  cbn [list_ascii_of_string rev]. by rewrite <- app_assoc.
Qed.

Lemma splitFrom_join (c0 : ascii) (sep' : string) (ws : list string) :
  ws ≠ [] →
  Forall (λ w, c0 ∉ list_ascii_of_string w) ws →
  JS.splitFrom (String c0 sep') 0 [] (JS.join (String c0 sep') ws) = ws.
Proof.
  intros Hne Hall. induction Hall as [|w ws Hw Hall IH]; [done|].
  destruct ws as [|w2 ws].
  - cbn [JS.join String.concat]. rewrite <- (string_app_nil_r w) at 1.
    rewrite splitFrom_word by done. cbn [JS.splitFrom].
    by rewrite app_nil_r, rev_involutive, string_of_list_ascii_of_string.
  - unfold JS.join in *. rewrite concat_cons by done.
    rewrite splitFrom_word by done. rewrite string_app_cons.
    cbn [JS.splitFrom].
    rewrite <- string_app_cons, prefix_app.
    cbn [String.length]. rewrite Nat.sub_succ, Nat.sub_0_r, splitFrom_skip.
    rewrite IH by done.
    by rewrite app_nil_r, rev_involutive, string_of_list_ascii_of_string.
Qed.

(** X16. When the first character of a non-empty separator occurs in none of
    the words, joining a non-empty list of words and splitting the result on
    the separator gives the words back. *)
Theorem split_join_id (c0 : ascii) (sep' : string) (ws : list string) :
  ws ≠ [] →
  Forall (λ w, c0 ∉ list_ascii_of_string w) ws →
  JS.split (JS.join (String c0 sep') ws) (String c0 sep') = ws.
Proof. intros Hne Hall. cbn [JS.split]. by apply splitFrom_join. Qed.

Lemma split_join_id_witness :
  JS.split (JS.join "--" ["Cat"; ""; "Dog"]) "--" = ["Cat"; ""; "Dog"].
Proof.
  apply (split_join_id "-" "-" ["Cat"; ""; "Dog"]); [discriminate|].
  repeat constructor; apply (bool_decide_unpack _); by vm_compute.
Defined.

Lemma toString_digit (digit : Z) :
  0 ≤ digit < 10 → String.length (JS.toString digit) = 1%nat.
Proof.
  intros Hd.
  assert (Hcases : digit = 0 ∨ digit = 1 ∨ digit = 2 ∨ digit = 3 ∨ digit = 4
                   ∨ digit = 5 ∨ digit = 6 ∨ digit = 7 ∨ digit = 8
                   ∨ digit = 9) by lia.
  repeat (destruct Hcases as [->|Hcases]; [reflexivity|]). by subst.
Qed.

(** ** The digit step returns *)

(** At least half of the 32-bit values are accepted, whatever the bound. *)
Lemma samplerLimit_half (max : Z) :
  0 < max ≤ 4294967295 → 2147483648 ≤ samplerLimit max.
Proof.
  intros Hmax. pose proof (samplerLimit_bounds max Hmax) as Hb.
  unfold samplerLimit in *.
  pose proof (Z.div_mod 4294967295 max ltac:(lia)) as Hdm.
  pose proof (Z.mod_pos_bound 4294967295 max ltac:(lia)) as Hmod.
  destruct (Z.le_gt_cases max 2147483648) as [Hle|Hgt]; [lia|].
  assert (H1 : 1 ≤ 4294967295 / max) by (apply Z.div_le_lower_bound; lia).
  nia.
Qed.

Lemma drawBelow_not_thrown (limit : Z) (draws : list Z) (e : JSError) :
  drawBelow limit draws ≠ Thrown e.
Proof.
  induction draws as [|d draws IH]; cbn [drawBelow]; [done|].
  by destruct (JS.uint32 d >=? limit).
Qed.

Lemma getSecureRandomIndex_not_thrown (max : Z) (draws : list Z) (e : JSError) :
  0 < max → getSecureRandomIndex max draws ≠ Thrown e.
Proof.
  intros Hmax. rewrite getSecureRandomIndex_unfold by done.
  pose proof (drawBelow_not_thrown (samplerLimit max) draws) as Hnot.
  destruct (drawBelow (samplerLimit max) draws) as [v r|e'|]; [done| |done].
  by destruct (Hnot e').
Qed.

(** The sampler passes over rejected draws and returns on the first accepted
    one. *)
Lemma getSecureRandomIndex_skip_accept (max d : Z) (skipped rest : list Z) :
  0 < max →
  Forall (λ x, samplerLimit max ≤ JS.uint32 x) skipped →
  JS.uint32 d < samplerLimit max →
  getSecureRandomIndex max (skipped ++ d :: rest)
  = Returned (JS.uint32 d mod max) rest.
Proof.
  intros Hmax Hskip Hd. rewrite getSecureRandomIndex_unfold by done.
  rewrite drawBelow_skip by done. rewrite drawBelow_accept by done.
  pose proof (uint32_range d). by rewrite Z.rem_mod_nonneg by lia.
Qed.

Lemma splitFrom_length_le (sep : string) (s : string) :
  ∀ skip cur,
    (length (JS.splitFrom sep skip cur s) ≤ String.length s + 1)%nat.
Proof.
  induction s as [|c s IH]; intros skip cur;
    cbn [JS.splitFrom String.length length]; [lia|].
  destruct skip as [|k].
  - destruct (String.prefix sep _); cbn [length].
    + specialize (IH (String.length sep - 1)%nat []). lia.
    + specialize (IH 0%nat (c :: cur)). lia.
  - specialize (IH k cur). lia.
Qed.

Lemma split_length_le (s sep : string) :
  (length (JS.split s sep) ≤ String.length s + 1)%nat.
Proof.
  destruct sep as [|a sep']; cbn [JS.split].
  - rewrite length_map. clear. induction s as [|c s IH]; cbn; lia.
  - apply splitFrom_length_le.
Qed.

Lemma addDigit_end_run (separator passphrase : string) (d : Z)
    (skipped rest : list Z) :
  Forall (λ x, samplerLimit 10 ≤ JS.uint32 x) skipped →
  JS.uint32 d < samplerLimit 10 →
  addDigit "end" separator passphrase (skipped ++ d :: rest)
  = Returned (passphrase ++ separator ++ JS.toString (JS.uint32 d mod 10))%string
      rest.
Proof.
  intros Hskip Hd. unfold addDigit.
  change (negb ("end" =? "none")%string) with true.
  change ("end" =? "end")%string with true. cbn match.
  unfold bind. by rewrite getSecureRandomIndex_skip_accept by (done || lia).
Qed.

Lemma addDigit_anywhere_run (separator passphrase : string) (d1 d2 : Z)
    (skipped1 skipped2 rest : list Z) :
  let parts := JS.split passphrase separator in
  let bound := Z.of_nat (length parts) + 1 in
  Forall (λ x, samplerLimit 10 ≤ JS.uint32 x) skipped1 →
  JS.uint32 d1 < samplerLimit 10 →
  Forall (λ x, samplerLimit bound ≤ JS.uint32 x) skipped2 →
  JS.uint32 d2 < samplerLimit bound →
  addDigit "anywhere" separator passphrase
    (skipped1 ++ d1 :: skipped2 ++ d2 :: rest)
  = Returned
      (JS.join separator
         (JS.splice_insert (Z.to_nat (JS.uint32 d2 mod bound))
            (JS.toString (JS.uint32 d1 mod 10)) parts))
      rest.
Proof.
  intros parts bound Hskip1 Hd1 Hskip2 Hd2. unfold addDigit.
  change (negb ("anywhere" =? "none")%string) with true.
  change ("anywhere" =? "end")%string with false.
  change ("anywhere" =? "anywhere")%string with true. cbn match.
  unfold bind at 1.
  rewrite getSecureRandomIndex_skip_accept by (done || lia).
  unfold bind. fold parts. fold bound.
  by rewrite getSecureRandomIndex_skip_accept by (done || lia).
Qed.

Lemma addDigit_not_thrown (setting separator passphrase : string)
    (draws : list Z) (e : JSError) :
  addDigit setting separator passphrase draws ≠ Thrown e.
Proof.
  unfold addDigit. destruct (negb (setting =? "none")%string); [|done].
  unfold bind at 1.
  pose proof (getSecureRandomIndex_not_thrown 10 draws) as Hnot.
  destruct (getSecureRandomIndex 10 draws) as [digit r|e'|]; [| |done].
  - destruct (setting =? "end")%string; [done|].
    destruct (setting =? "anywhere")%string; [|done].
    unfold bind.
    pose proof (getSecureRandomIndex_not_thrown
                  (Z.of_nat (length (JS.split passphrase separator)) + 1) r)
      as Hnot2.
    destruct (getSecureRandomIndex _ r) as [pos r2|e2|]; [done| |done].
    destruct (Hnot2 e2); [lia | done].
  - destruct (Hnot e'); [lia | done].
Qed.

Lemma addDigit_anywhere_shape (c0 : ascii) (sep' : string)
    (ws : list string) (draws : list Z) (result : string) (rest : list Z) :
  ws ≠ [] →
  Forall (λ w, c0 ∉ list_ascii_of_string w) ws →
  addDigit "anywhere" (String c0 sep') (JS.join (String c0 sep') ws) draws
  = Returned result rest →
  ∃ digit pos : Z,
    0 ≤ digit < 10 ∧ 0 ≤ pos ≤ Z.of_nat (length ws)
    ∧ String.length (JS.toString digit) = 1%nat
    ∧ result = JS.join (String c0 sep')
                 (take (Z.to_nat pos) ws
                  ++ JS.toString digit :: drop (Z.to_nat pos) ws).
Proof.
  intros Hne Hall. unfold addDigit.
  change (negb ("anywhere" =? "none")%string) with true.
  change ("anywhere" =? "end")%string with false.
  change ("anywhere" =? "anywhere")%string with true. cbn match.
  intros (digit & r1 & Hdigit & Hk)%bind_Returned.
  apply bind_Returned in Hk as (pos & r2 & Hpos & [= <- <-]).
  apply getSecureRandomIndex_range in Hdigit, Hpos.
  cbn [JS.split] in *. rewrite splitFrom_join in * by done.
  exists digit, pos. split; [done|]. split; [lia|].
  split; [by apply toString_digit | done].
Qed.

(** X17. With a separator whose first character occurs in none of the words,
    the "anywhere" policy inserts the digit as a token of its own. The digit
    step returns as soon as one draw is accepted for the digit and one for
    the position, whatever draws were rejected before each: it has then
    consumed the draws up to the second accepted one, and its result joins
    the words with the decimal digit [d1 mod 10] inserted at position
    [d2 mod (n + 1)], [n] the number of words. A draw below 4294967290 is
    accepted for the digit; with fewer than [2^32 - 1] words, a draw below
    [2^31] is accepted for the position. The step never throws, and every
    result it returns has this shape: the words joined with one decimal digit
    inserted at a position between 0 and [n]. *)
Theorem addDigit_anywhere_standalone (c0 : ascii) (sep' : string)
    (ws : list string) :
  ws ≠ [] →
  Forall (λ w, c0 ∉ list_ascii_of_string w) ws →
  let sep := String c0 sep' in
  let bound := Z.of_nat (length ws) + 1 in
  (∀ (skipped1 : list Z) (d1 : Z) (skipped2 : list Z) (d2 : Z) (rest : list Z),
     Forall (λ x, samplerLimit 10 ≤ JS.uint32 x) skipped1 →
     JS.uint32 d1 < samplerLimit 10 →
     Forall (λ x, samplerLimit bound ≤ JS.uint32 x) skipped2 →
     JS.uint32 d2 < samplerLimit bound →
     addDigit "anywhere" sep (JS.join sep ws)
       (skipped1 ++ d1 :: skipped2 ++ d2 :: rest)
     = Returned
         (JS.join sep
            (take (Z.to_nat (JS.uint32 d2 mod bound)) ws
             ++ JS.toString (JS.uint32 d1 mod 10)
                :: drop (Z.to_nat (JS.uint32 d2 mod bound)) ws))
         rest)
  ∧ samplerLimit 10 = 4294967290
  ∧ (bound ≤ 4294967295 → 2147483648 ≤ samplerLimit bound)
  ∧ (∀ draws e, addDigit "anywhere" sep (JS.join sep ws) draws ≠ Thrown e)
  ∧ (∀ draws result rest,
       addDigit "anywhere" sep (JS.join sep ws) draws = Returned result rest →
       ∃ digit pos : Z,
         0 ≤ digit < 10 ∧ 0 ≤ pos ≤ Z.of_nat (length ws)
         ∧ String.length (JS.toString digit) = 1%nat
         ∧ result = JS.join sep
                      (take (Z.to_nat pos) ws
                       ++ JS.toString digit :: drop (Z.to_nat pos) ws)).
Proof.
  intros Hne Hall sep bound.
  assert (Hparts : JS.split (JS.join sep ws) sep = ws).
  { unfold sep. cbn [JS.split]. by apply splitFrom_join. }
  split; [|split; [|split; [|split]]].
  - intros skipped1 d1 skipped2 d2 rest Hs1 Hd1 Hs2 Hd2.
    pose proof (addDigit_anywhere_run sep (JS.join sep ws) d1 d2 skipped1
                  skipped2 rest) as Hrun.
    cbn zeta in Hrun. rewrite Hparts in Hrun. by apply Hrun.
  - reflexivity.
  - intros Hbound. apply samplerLimit_half. unfold bound in *. lia.
  - intros draws e. apply addDigit_not_thrown.
  - intros draws result rest. by apply addDigit_anywhere_shape.
Qed.

Lemma addDigit_anywhere_standalone_witness :
  addDigit "anywhere" "-" "Cat-Dog" [4294967295; 5; 4294967295; 1; 7]
  = Returned "Cat-5-Dog"%string [7]
  ∧ ∀ draws e, addDigit "anywhere" "-" "Cat-Dog" draws ≠ Thrown e.
Proof.
  destruct (addDigit_anywhere_standalone "-" "" ["Cat"; "Dog"])
    as (Hrun & _ & _ & Hnot & _).
  - discriminate.
  - repeat constructor; apply (bool_decide_unpack _); by vm_compute.
  - split; [|exact Hnot].
    apply (Hrun [4294967295] 5 [4294967295] 1 [7]).
    + repeat constructor. by vm_compute.
    + by vm_compute.
    + repeat constructor. by vm_compute.
    + by vm_compute.
Defined.

Lemma join_length (sep : string) (l : list string) :
  String.length (JS.join sep l)
  = (sum_list_with String.length l + String.length sep * (length l - 1))%nat.
Proof.
  induction l as [|x l IH].
  - cbn [JS.join String.concat String.length sum_list_with length]. lia.
  - destruct l as [|y l].
    + cbn [JS.join String.concat sum_list_with length]. lia.
    + unfold JS.join in *. rewrite concat_cons by done.
      rewrite !string_app_length, IH. cbn [sum_list_with length].
      rewrite !Nat.sub_succ, !Nat.sub_0_r, Nat.mul_succ_r. lia.
Qed.

Lemma join_insert_length (sep x : string) (l : list string) (n : nat) :
  l ≠ [] →
  String.length (JS.join sep (take n l ++ x :: drop n l))
  = (String.length (JS.join sep l) + String.length sep + String.length x)%nat.
Proof.
  intros Hne. rewrite !join_length.
  rewrite sum_list_with_app. cbn [sum_list_with].
  assert (Hsum : (sum_list_with String.length (take n l)
                  + sum_list_with String.length (drop n l))%nat
                 = sum_list_with String.length l).
  { rewrite <- sum_list_with_app. by rewrite take_drop. }
  assert (Hlen : length (take n l ++ x :: drop n l)
                 = Datatypes.S (length l)).
  { rewrite length_app. cbn [length]. rewrite length_take, length_drop. lia. }
  rewrite Hlen. destruct l as [|y l]; [done|]. cbn [length].
  rewrite !Nat.sub_succ, !Nat.sub_0_r, Nat.mul_succ_r. lia.
Qed.

Lemma addDigit_adds (setting separator passphrase : string)
    (draws : list Z) (result : string) (rest : list Z) :
  setting = "end"%string ∨ setting = "anywhere"%string →
  addDigit setting separator passphrase draws = Returned result rest →
  String.length result
  = (String.length passphrase + String.length separator + 1)%nat
  ∧ (setting = "end"%string →
       ∃ digit, 0 ≤ digit < 10
                ∧ result = (passphrase ++ separator ++ JS.toString digit)%string).
Proof.
  intros [-> | ->]; unfold addDigit.
  - change (negb ("end" =? "none")%string) with true.
    change ("end" =? "end")%string with true. cbn match.
    intros (digit & r1 & Hdigit & [= <- <-])%bind_Returned.
    apply getSecureRandomIndex_range in Hdigit. split.
    + rewrite !string_app_length, toString_digit by done. lia.
    + intros _. by exists digit.
  - change (negb ("anywhere" =? "none")%string) with true.
    change ("anywhere" =? "end")%string with false.
    change ("anywhere" =? "anywhere")%string with true. cbn match.
    intros (digit & r1 & Hdigit & Hk)%bind_Returned.
    apply bind_Returned in Hk as (pos & r2 & Hpos & [= <- <-]).
    apply getSecureRandomIndex_range in Hdigit. split; [|done].
    unfold JS.splice_insert.
    destruct (JS.split passphrase separator) as [|part parts] eqn:Hparts.
    + pose proof (join_split passphrase separator) as Hjoin.
      rewrite Hparts in Hjoin. cbn in Hjoin. subst passphrase.
      destruct separator as [|a sep'].
      * rewrite take_nil, drop_nil. cbn [app JS.join String.concat].
        rewrite toString_digit by done. done.
      * cbn [JS.split] in Hparts. by apply splitFrom_nonempty in Hparts.
    + rewrite join_insert_length by done. rewrite <- Hparts, join_split.
      rewrite toString_digit by done. lia.
Qed.

(** X18. The digit step returns, and what it returns is longer than the
    passphrase by the length of the separator plus one, whatever the
    separator. With the digit at the end it returns on the first accepted
    draw [d], and the result is the passphrase, the separator and the
    decimal digit [d mod 10]. With the digit anywhere it returns on the
    second accepted draw, and the result joins the parts of the passphrase
    with the digit inserted among them. A draw below 4294967290 is accepted
    for the digit, and a draw below [2^31] for the position when the
    passphrase is shorter than [2^32 - 2]. With either policy the step never
    throws, and every result it returns has the length stated. *)
Theorem addDigit_length (setting separator passphrase : string) :
  setting = "end"%string ∨ setting = "anywhere"%string →
  let parts := JS.split passphrase separator in
  let bound := Z.of_nat (length parts) + 1 in
  (∀ (skipped : list Z) (d : Z) (rest : list Z),
     Forall (λ x, samplerLimit 10 ≤ JS.uint32 x) skipped →
     JS.uint32 d < samplerLimit 10 →
     let result :=
       (passphrase ++ separator ++ JS.toString (JS.uint32 d mod 10))%string in
     addDigit "end" separator passphrase (skipped ++ d :: rest)
     = Returned result rest
     ∧ String.length result
       = (String.length passphrase + String.length separator + 1)%nat)
  ∧ (∀ (skipped1 : list Z) (d1 : Z) (skipped2 : list Z) (d2 : Z)
       (rest : list Z),
       Forall (λ x, samplerLimit 10 ≤ JS.uint32 x) skipped1 →
       JS.uint32 d1 < samplerLimit 10 →
       Forall (λ x, samplerLimit bound ≤ JS.uint32 x) skipped2 →
       JS.uint32 d2 < samplerLimit bound →
       let result :=
         JS.join separator
           (JS.splice_insert (Z.to_nat (JS.uint32 d2 mod bound))
              (JS.toString (JS.uint32 d1 mod 10)) parts) in
       addDigit "anywhere" separator passphrase
         (skipped1 ++ d1 :: skipped2 ++ d2 :: rest)
       = Returned result rest
       ∧ String.length result
         = (String.length passphrase + String.length separator + 1)%nat)
  ∧ samplerLimit 10 = 4294967290
  ∧ (Z.of_nat (String.length passphrase) + 2 ≤ 4294967295 →
       2147483648 ≤ samplerLimit bound)
  ∧ (∀ draws e, addDigit setting separator passphrase draws ≠ Thrown e)
  ∧ (∀ draws result rest,
       addDigit setting separator passphrase draws = Returned result rest →
       String.length result
       = (String.length passphrase + String.length separator + 1)%nat
       ∧ (setting = "end"%string →
            ∃ digit, 0 ≤ digit < 10
                     ∧ result
                       = (passphrase ++ separator ++ JS.toString digit)%string)).
Proof.
  intros Hsetting parts bound.
  split; [|split; [|split; [|split; [|split]]]].
  - intros skipped d rest Hskip Hd result.
    pose proof (addDigit_end_run separator passphrase d skipped rest Hskip Hd)
      as Hrun.
    split; [exact Hrun|].
    by apply (addDigit_adds "end" separator passphrase _ _ _ (or_introl eq_refl))
      in Hrun as [Hlen _].
  - intros skipped1 d1 skipped2 d2 rest Hs1 Hd1 Hs2 Hd2 result.
    pose proof (addDigit_anywhere_run separator passphrase d1 d2 skipped1
                  skipped2 rest Hs1 Hd1 Hs2 Hd2) as Hrun.
    split; [exact Hrun|].
    by apply (addDigit_adds "anywhere" separator passphrase _ _ _
                (or_intror eq_refl)) in Hrun as [Hlen _].
  - reflexivity.
  - intros Hlen. apply samplerLimit_half.
    pose proof (split_length_le passphrase separator). unfold bound, parts. lia.
  - intros draws e. apply addDigit_not_thrown.
  - intros draws result rest. by apply addDigit_adds.
Qed.

Lemma addDigit_length_witness :
  (addDigit "anywhere" "" "CatDog" [5; 4294967295; 1; 7]
   = Returned "C5atDog"%string [7]
   ∧ String.length "C5atDog"
     = (String.length "CatDog" + String.length "" + 1)%nat)
  ∧ (addDigit "end" "-" "Cat-Dog" [4294967295; 13]
     = Returned "Cat-Dog-3"%string []
     ∧ String.length "Cat-Dog-3"
       = (String.length "Cat-Dog" + String.length "-" + 1)%nat).
Proof.
  split.
  - destruct (addDigit_length "anywhere" "" "CatDog" (or_intror eq_refl))
      as (_ & Hrun & _).
    apply (Hrun [] 5 [4294967295] 1 [7]).
    + constructor.
    + by vm_compute.
    + repeat constructor. by vm_compute.
    + by vm_compute.
  - destruct (addDigit_length "end" "-" "Cat-Dog" (or_introl eq_refl))
      as (Hrun & _).
    apply (Hrun [4294967295] 13 []).
    + repeat constructor. by vm_compute.
    + by vm_compute.
Defined.

(** ** The page *)

(** What a run that shows a passphrase has gone through. *)
Lemma generateAndDisplay_shown (c : Controls) (draws : list Z) (d : Display)
    (rest : list Z) :
  generateAndDisplay c draws = Returned (inr d) rest →
  ∃ count passphrase r1,
    wordCount c = Some count ∧ 1 ≤ count
    ∧ activeWords c ≠ []
    ∧ count ≤ Z.of_nat (length (getEffectiveWordList (activeWords c)
                                  (garbleSetting c)))
    ∧ generatePassphrase (activeWords c) (garbleSetting c) (activeWords c)
        count (separatorValue c) (garbleSetting c) draws
      = Returned passphrase r1
    ∧ addDigit (includeSetting c) (separatorValue c) passphrase r1
      = Returned (passphraseText d) rest
    ∧ possibleText d
      = possibleCount (Z.of_nat (length (activeWords c)))
          (Z.of_nat (length (getEffectiveWordList (activeWords c)
                               (garbleSetting c))))
          count (garbleSetting c) (includeSetting c)
    ∧ strengthValue d = strengthBits (possibleText d).
Proof.
  unfold generateAndDisplay.
  destruct (wordCount c) as [count|]; [|done].
  destruct (Z.ltb_spec count 1) as [|Hcount]; [done|].
  destruct (Z.eqb_spec (Z.of_nat (length (getEffectiveWordList (activeWords c)
                                            (garbleSetting c)))) 0)
    as [|Hnonempty]; [done|].
  destruct (Z.ltb_spec (Z.of_nat (length (getEffectiveWordList (activeWords c)
                                            (garbleSetting c)))) count)
    as [|Henough]; [done|].
  intros (passphrase & r1 & Hgen & Hk)%bind_Returned.
  apply bind_Returned in Hk as (shown & r2 & Hdigit & [= <- <-]).
  exists count, passphrase, r1. cbn [passphraseText possibleText strengthValue].
  split; [done|]. split; [done|]. split.
  { intros Hnil. rewrite Hnil in Hnonempty.
    destruct (Z.lt_ge_cases 0 (garbleSetting c)) as [Hgm|Hgm].
    - destruct (getEffectiveWordList_on [] (garbleSetting c) Hgm)
        as (_ & Hel & _).
      destruct (getEffectiveWordList [] (garbleSetting c)) as [|w ws]; [done|].
      destruct (proj1 (Hel w) (list_elem_of_here _ _)) as [Hw|(b & Hb & _)];
        by apply elem_of_nil in Hw || apply elem_of_nil in Hb.
    - by rewrite getEffectiveWordList_off in Hnonempty. }
  done.
Qed.

(** X19. Validation comes first: the page shows a message instead of a
    passphrase exactly when the word count is missing or below 1, or the
    word list is empty, or the effective list has fewer words than the
    count; a run that ends with a message has read no draw. *)
Theorem generateAndDisplay_validation (c : Controls) (draws : list Z) :
  ((∃ msg rest, generateAndDisplay c draws = Returned (inl msg) rest)
   ↔ match wordCount c with
     | None => True
     | Some count =>
         count < 1 ∨ activeWords c = []
         ∨ Z.of_nat (length (getEffectiveWordList (activeWords c)
                               (garbleSetting c))) < count
     end)
  ∧ (∀ msg rest, generateAndDisplay c draws = Returned (inl msg) rest →
       rest = draws)
  ∧ (wordCount c = None ∨ (∃ count, wordCount c = Some count ∧ count < 1) →
       generateAndDisplay c draws
       = Returned (inl "Word count must be at least 1."%string) draws).
Proof.
  assert (Hempty : activeWords c = [] →
            getEffectiveWordList (activeWords c) (garbleSetting c) = []).
  { intros ->. destruct (getEffectiveWordList [] (garbleSetting c))
      as [|w ws] eqn:He; [done|]. exfalso.
    destruct (Z.lt_ge_cases 0 (garbleSetting c)) as [Hgm|Hgm].
    - destruct (getEffectiveWordList_on [] (garbleSetting c) Hgm)
        as (_ & Hel & _).
      rewrite He in Hel.
      destruct (proj1 (Hel w) (list_elem_of_here _ _)) as [Hw|(b & Hb & _)];
        by apply elem_of_nil in Hw || apply elem_of_nil in Hb.
    - by rewrite getEffectiveWordList_off in He. }
  unfold generateAndDisplay.
  destruct (wordCount c) as [count|].
  2:{ split; [|split].
      - split; [done|]. intros _. by eexists _, _.
      - by intros msg rest [= <- <-].
      - done. }
  destruct (Z.ltb_spec count 1) as [Hlow|Hcount].
  { split; [|split].
    - split; [by left|]. intros _. by eexists _, _.
    - by intros msg rest [= <- <-].
    - done. }
  destruct (Z.eqb_spec (Z.of_nat (length (getEffectiveWordList (activeWords c)
                                            (garbleSetting c)))) 0)
    as [Hnone|Hnonempty].
  { split; [|split].
    - split; [|intros _; by eexists _, _]. intros _. right. right. lia.
    - by intros msg rest [= <- <-].
    - intros [[=]|(n & [= <-] & ?)]. lia. }
  destruct (Z.ltb_spec (Z.of_nat (length (getEffectiveWordList (activeWords c)
                                            (garbleSetting c)))) count)
    as [Hfew|Henough].
  { split; [|split].
    - split; [|intros _; by eexists _, _]. intros _. by right; right.
    - by intros msg rest [= <- <-].
    - intros [[=]|(n & [= <-] & ?)]. lia. }
  match goal with
  | |- context [bind ?m ?k draws] => set (run := bind m k draws)
  end.
  assert (Hnoinl : ∀ msg rest, run ≠ Returned (inl msg) rest).
  { intros msg rest (p & r1 & _ & Hk)%bind_Returned.
    by apply bind_Returned in Hk as (p' & r2 & _ & [=]). }
  split; [|split].
  - split.
    + intros (msg & rest & H). by apply Hnoinl in H.
    + intros [?|[Hnil|?]]; [lia| |lia].
      apply Hempty in Hnil. rewrite Hnil in Hnonempty. done.
  - intros msg rest H. by apply Hnoinl in H.
  - intros [[=]|(n & [= <-] & ?)]. lia.
Qed.

(** ** More on the count *)

Lemma binomial_nonneg (n k : Z) : 0 ≤ binomial n k.
Proof. unfold binomial. destruct (_ || _); lia. Qed.

Lemma spec_term_nonneg (B V count k : Z) :
  0 ≤ B → 0 ≤ V → 0 ≤ spec_term B V count k.
Proof.
  intros HB HV. unfold spec_term.
  pose proof (binomial_nonneg count k).
  pose proof (Z.pow_nonneg V k HV). pose proof (Z.pow_nonneg B (count - k) HB).
  apply Z.mul_nonneg_nonneg; [apply Z.mul_nonneg_nonneg|]; done.
Qed.

Lemma sumZ_terms_nonneg (B V count : Z) (l : list nat) :
  0 ≤ B → 0 ≤ V →
  0 ≤ sumZ (map (λ i, spec_term B V count (Z.of_nat i)) l).
Proof.
  intros HB HV. induction l as [|i l IH]; cbn [map sumZ foldr]; [lia|].
  pose proof (spec_term_nonneg B V count (Z.of_nat i) HB HV).
  unfold sumZ in IH. lia.
Qed.

Lemma spec_term_0 (B V count : Z) :
  0 ≤ count → spec_term B V count 0 = B ^ count.
Proof.
  intros Hc. unfold spec_term. rewrite binomial_in_range by lia.
  change (Z.to_nat 0) with 0%nat. rewrite choose_0_r, Z.sub_0_r.
  change (V ^ 0) with 1. lia.
Qed.

(** The count is at least [B ^ count]. *)
Lemma possibleCount_lower (baseSize effectiveSize count garbleMax : Z)
    (includeSetting : string) :
  0 ≤ baseSize → 0 ≤ count →
  baseSize ^ count
  ≤ possibleCount baseSize effectiveSize count garbleMax includeSetting.
Proof.
  intros HB Hc. unfold possibleCount.
  set (Vn := if effectiveSize >=? baseSize then effectiveSize - baseSize else 0).
  assert (HV : 0 ≤ Vn).
  { unfold Vn. destruct (Z.geb_spec effectiveSize baseSize); lia. }
  set (maxG := Z.max 0 (Z.min garbleMax count)).
  replace (Z.to_nat (maxG + 1)) with (Datatypes.S (Z.to_nat maxG))
    by (unfold maxG; lia).
  rewrite (sumTerms_sum Vn baseSize count _ Hc 0%nat 0).
  cbn [seq map sumZ foldr]. change (Z.of_nat 0) with 0.
  rewrite spec_term_0 by done.
  pose proof (sumZ_terms_nonneg baseSize Vn count (seq 1 (Z.to_nat maxG)) HB HV)
    as Hrest. unfold sumZ in Hrest.
  pose proof (Z.pow_nonneg baseSize count HB) as Hpow.
  destruct (negb _); [|lia].
  destruct (String.eqb includeSetting "anywhere"); nia.
Qed.

Lemma strengthBits_positive (possible : Z) :
  1 ≤ possible →
  strengthBits possible ≠ JS.Log2NaN
  ∧ strengthBits possible ≠ JS.Log2NegInfinity.
Proof.
  intros Hp. pose proof (roundToDouble_error possible ltac:(lia)) as Herr.
  assert (Hd : 0 < JS.roundToDouble possible).
  { assert (H53 : 2 ^ 53 = 9007199254740992) by reflexivity.
    rewrite H53 in Herr. lia. }
  unfold strengthBits, JS.NumberOfBigInt.
  destruct (Z.ltb_spec possible 0); [lia|].
  destruct (Z.leb_spec (2 ^ 1024) (JS.roundToDouble possible)); [done|].
  cbn [JS.Math_log2].
  destruct (Z.ltb_spec (JS.roundToDouble possible) 0); [lia|].
  destruct (Z.eqb_spec (JS.roundToDouble possible) 0); [lia | done].
Qed.

(** X20. Whenever a passphrase is shown, the count shown with it is at least
    [B ^ count >= 1], where [B] is the number of active words, and the
    strength is neither NaN nor minus infinity. *)
Theorem generateAndDisplay_count_positive (c : Controls) (draws : list Z)
    (d : Display) (rest : list Z) :
  generateAndDisplay c draws = Returned (inr d) rest →
  ∃ count,
    wordCount c = Some count
    ∧ 1 ≤ Z.of_nat (length (activeWords c)) ^ count ≤ possibleText d
    ∧ strengthValue d ≠ JS.Log2NaN
    ∧ strengthValue d ≠ JS.Log2NegInfinity.
Proof.
  intros (count & p & r1 & Hwc & Hcount & Hne & _ & _ & _ & Hposs & Hstr)
    %generateAndDisplay_shown.
  exists count. split; [done|].
  assert (HB : 1 ≤ Z.of_nat (length (activeWords c))).
  { destruct (activeWords c); [done|]. cbn [length]. lia. }
  assert (Hpow : 1 ≤ Z.of_nat (length (activeWords c)) ^ count).
  { replace 1 with (1 ^ count) at 1 by (apply Z.pow_1_l; lia).
    apply Z.pow_le_mono_l. lia. }
  pose proof (possibleCount_lower (Z.of_nat (length (activeWords c)))
                (Z.of_nat (length (getEffectiveWordList (activeWords c)
                                     (garbleSetting c))))
                count (garbleSetting c) (includeSetting c)
                ltac:(lia) ltac:(lia)) as Hlow.
  rewrite <- Hposs in Hlow. split; [lia|].
  rewrite Hstr. apply strengthBits_positive. lia.
Qed.

Lemma generateAndDisplay_count_positive_witness :
  ∃ count,
    Some 2 = Some count
    ∧ 1 ≤ Z.of_nat (length ["cat"; "dog"]) ^ count ≤ 40
    ∧ JS.Log2Of 40 ≠ JS.Log2NaN
    ∧ JS.Log2Of 40 ≠ JS.Log2NegInfinity.
Proof.
  apply (generateAndDisplay_count_positive
           {| activeWords := ["cat"; "dog"]; wordCount := Some 2;
              separatorValue := "-"; garbleSetting := 0;
              includeSetting := "end" |}
           [0; 1; 1; 5; 1]
           {| passphraseText := "Cat-Dog-5"; possibleText := 40;
              strengthValue := JS.Log2Of 40 |} [1]).
  reflexivity.
Defined.

Lemma sumZ_app (l1 l2 : list Z) : sumZ (l1 ++ l2) = sumZ l1 + sumZ l2.
Proof.
  unfold sumZ. induction l1 as [|x l1 IH]; cbn [app foldr]; [lia|].
  rewrite IH. lia.
Qed.

Lemma sumZ_map_ext (f g : nat → Z) (l : list nat) :
  (∀ k, k ∈ l → f k = g k) → sumZ (map f l) = sumZ (map g l).
Proof.
  intros Hfg. f_equal. apply map_ext_in. intros k Hk. apply Hfg.
  by apply list_elem_of_In.
Qed.

Lemma sumZ_map_add (f g : nat → Z) (l : list nat) :
  sumZ (map (λ k, f k + g k) l) = sumZ (map f l) + sumZ (map g l).
Proof.
  unfold sumZ. induction l as [|k l IH]; cbn [map foldr]; [lia|].
  rewrite IH. lia.
Qed.

Lemma sumZ_map_scale (c : Z) (f : nat → Z) (l : list nat) :
  sumZ (map (λ k, c * f k) l) = c * sumZ (map f l).
Proof.
  unfold sumZ. induction l as [|k l IH]; cbn [map foldr]; [lia|].
  rewrite IH. lia.
Qed.

Lemma sumZ_map_first (f : nat → Z) (m : nat) :
  sumZ (map f (seq 0 (Datatypes.S m)))
  = f 0%nat + sumZ (map (λ j, f (Datatypes.S j)) (seq 0 m)).
Proof.
  cbn [seq map]. rewrite <- seq_shift, map_map. reflexivity.
Qed.

Lemma sumZ_map_last (f : nat → Z) (m : nat) :
  sumZ (map f (seq 0 (Datatypes.S m))) = sumZ (map f (seq 0 m)) + f m.
Proof.
  rewrite seq_S, map_app, sumZ_app. cbn [map sumZ foldr Nat.add]. lia.
Qed.

(** The binomial theorem for [choose]. *)
Lemma binomial_theorem (x y : Z) (n : nat) :
  sumZ (map (λ k, Z.of_nat (choose n k) * x ^ Z.of_nat k
                  * y ^ Z.of_nat (n - k))
            (seq 0 (Datatypes.S n)))
  = (x + y) ^ Z.of_nat n.
Proof.
  induction n as [|n IH]; [reflexivity|].
  rewrite Nat2Z.inj_succ, Z.pow_succ_r by lia. rewrite <- IH.
  rewrite sumZ_map_first.
  (* the terms with k = j + 1, split by Pascal's rule *)
  rewrite (sumZ_map_ext _
             (λ j, x * (Z.of_nat (choose n j) * x ^ Z.of_nat j
                        * y ^ Z.of_nat (n - j))
                   + Z.of_nat (choose n (Datatypes.S j))
                     * x ^ Z.of_nat (Datatypes.S j) * y ^ Z.of_nat (n - j))).
  2:{ intros j _. cbn [choose Nat.sub].
      rewrite Nat2Z.inj_add, Nat2Z.inj_succ, Z.pow_succ_r by lia. lia. }
  rewrite sumZ_map_add, sumZ_map_scale.
  (* the second group: its last term vanishes, the others are [y] times a
     term of the previous row *)
  rewrite (sumZ_map_last
             (λ j, Z.of_nat (choose n (Datatypes.S j))
                   * x ^ Z.of_nat (Datatypes.S j) * y ^ Z.of_nat (n - j))).
  rewrite (choose_gt n (Datatypes.S n)) by lia.
  rewrite (sumZ_map_first
             (λ k, Z.of_nat (choose n k) * x ^ Z.of_nat k
                   * y ^ Z.of_nat (n - k)) n).
  rewrite (sumZ_map_ext
             (λ j, Z.of_nat (choose n (Datatypes.S j))
                   * x ^ Z.of_nat (Datatypes.S j) * y ^ Z.of_nat (n - j))
             (λ j, y * (Z.of_nat (choose n (Datatypes.S j))
                        * x ^ Z.of_nat (Datatypes.S j)
                        * y ^ Z.of_nat (n - Datatypes.S j)))
             (seq 0 n)).
  2:{ intros j Hj%elem_of_seq.
      replace (n - j)%nat with (Datatypes.S (n - Datatypes.S j)) by lia.
      rewrite (Nat2Z.inj_succ (n - Datatypes.S j)), Z.pow_succ_r by lia.
      ring. }
  rewrite sumZ_map_scale.
  rewrite !choose_0_r, !Nat.sub_0_r, (Nat2Z.inj_succ n).
  rewrite !Z.pow_succ_r by lia.
  change (Z.of_nat 0) with 0. rewrite !Z.pow_0_r. ring.
Qed.

Lemma spec_term_in_range (B V : Z) (n k : nat) :
  (k ≤ n)%nat →
  spec_term B V (Z.of_nat n) (Z.of_nat k)
  = Z.of_nat (choose n k) * V ^ Z.of_nat k * B ^ Z.of_nat (n - k).
Proof.
  intros Hk. unfold spec_term. rewrite binomial_in_range by lia.
  rewrite !Nat2Z.id. by rewrite Nat2Z.inj_sub by done.
Qed.

(** The digit multiplier applied by the script, for the three settings. *)
Lemma possibleCount_settingOf (B E count garbleMax : Z) (p : DigitPolicy) :
  possibleCount B E count garbleMax (settingOf p)
  = possibleCount B E count garbleMax "none" * spec_multiplier count p.
Proof. unfold possibleCount. destruct p; cbn; lia. Qed.

(** X21. The two ends of the garble setting. With a setting of zero or less
    the count is [B ^ count]; with a setting of [count] or more it is
    [E ^ count], where [B] and [E >= B] are the sizes of the base and of the
    effective list; each times the digit multiplier. *)
Theorem possibleCount_extremes (B E count garbleMax : Z) (p : DigitPolicy) :
  0 ≤ B ≤ E → 0 ≤ count →
  (garbleMax ≤ 0 →
     possibleCount B E count garbleMax (settingOf p)
     = B ^ count * spec_multiplier count p)
  ∧ (count ≤ garbleMax →
       possibleCount B E count garbleMax (settingOf p)
       = E ^ count * spec_multiplier count p).
Proof.
  intros HBE Hc. rewrite possibleCount_settingOf.
  assert (Hnone : ∀ m, (m ≤ Z.to_nat count)%nat →
            Z.max 0 (Z.min garbleMax count) = Z.of_nat m →
            possibleCount B E count garbleMax "none"
            = sumZ (map (λ k, Z.of_nat (choose (Z.to_nat count) k)
                              * (E - B) ^ Z.of_nat k
                              * B ^ Z.of_nat (Z.to_nat count - k))
                        (seq 0 (Datatypes.S m)))).
  { intros m Hm Hmax. unfold possibleCount. rewrite Hmax.
    destruct (Z.geb_spec E B); [|lia].
    replace (Z.to_nat (Z.of_nat m + 1)) with (Datatypes.S m) by lia.
    rewrite (sumTerms_sum (E - B) B count _ Hc 0%nat 0).
    change (negb ("none" =? "none")%string) with false. cbn match.
    rewrite Z.add_0_l. apply sumZ_map_ext. intros k Hk%elem_of_seq.
    rewrite <- (Z2Nat.id count) at 1 by done.
    apply spec_term_in_range. lia. }
  split; intros Hgm; f_equal.
  - rewrite (Hnone 0%nat) by lia.
    cbn [seq map sumZ foldr]. rewrite choose_0_r, Nat.sub_0_r, Z2Nat.id by done.
    change ((E - B) ^ Z.of_nat 0) with 1. lia.
  - rewrite (Hnone (Z.to_nat count)) by lia.
    rewrite binomial_theorem, Z2Nat.id by done. f_equal. lia.
Qed.

Lemma possibleCount_extremes_witness :
  possibleCount 3 5 4 0 (settingOf AtEnd) = 3 ^ 4 * spec_multiplier 4 AtEnd
  ∧ possibleCount 3 5 4 4 (settingOf AtEnd) = 5 ^ 4 * spec_multiplier 4 AtEnd.
Proof.
  destruct (possibleCount_extremes 3 5 4 0 AtEnd ltac:(lia) ltac:(lia))
    as [Hlow _].
  destruct (possibleCount_extremes 3 5 4 4 AtEnd ltac:(lia) ltac:(lia))
    as [_ Hhigh].
  split; [apply Hlow | apply Hhigh]; lia.
Defined.

(** ** The length range *)

(** On the code units of the embedding, capitalising keeps the length; so
    does the script on a word that starts with an ASCII character. *)
Lemma capitalize_length (w : string) :
  String.length (capitalize w) = String.length w.
Proof. by destruct w. Qed.

Lemma foldl_min_le (l : list Z) (a : Z) :
  foldl Z.min a l ≤ a ∧ Forall (λ x, foldl Z.min a l ≤ x) l.
Proof.
  revert a. induction l as [|x l IH]; intros a; cbn [foldl].
  - split; [lia | constructor].
  - destruct (IH (Z.min a x)) as [Hle Hall]. split; [lia|].
    constructor; [lia | done].
Qed.

Lemma foldl_max_ge (l : list Z) (a : Z) :
  a ≤ foldl Z.max a l ∧ Forall (λ x, x ≤ foldl Z.max a l) l.
Proof.
  revert a. induction l as [|x l IH]; intros a; cbn [foldl].
  - split; [lia | constructor].
  - destruct (IH (Z.max a x)) as [Hle Hall]. split; [lia|].
    constructor; [lia | done].
Qed.

Lemma sum_lengths_bounds (lo hi : Z) (ws : list string) :
  Forall (λ w, lo ≤ Z.of_nat (String.length w) ≤ hi) ws →
  lo * Z.of_nat (length ws)
  ≤ Z.of_nat (sum_list_with String.length ws)
  ≤ hi * Z.of_nat (length ws).
Proof.
  induction 1 as [|w ws Hw _ IH]; cbn [sum_list_with length]; lia.
Qed.

Lemma sum_lengths_capitalize (ws : list string) :
  sum_list_with String.length (map capitalize ws)
  = sum_list_with String.length ws.
Proof.
  induction ws as [|w ws IH]; [done|].
  cbn [map sum_list_with]. by rewrite capitalize_length, IH.
Qed.

Lemma addDigit_none (separator passphrase : string) (draws : list Z) :
  addDigit "none" separator passphrase draws = Returned passphrase draws.
Proof. reflexivity. Qed.


(** The replacement of a character is an ASCII letter. *)
Lemma replacement_isAscii (ch rep : ascii) :
  replacement ch = Some rep → isAscii rep = true.
Proof.
  destruct ch as [[] [] [] [] [] [] [] []]; intros Hrep; vm_compute in Hrep;
    first [discriminate Hrep | injection Hrep as <-; by vm_compute].
Qed.

Lemma variantOf_startsAscii (word v : string) :
  variantOf word v → startsAscii word = true → startsAscii v = true.
Proof.
  intros (i & ch & rep & Hi & Hrep & -> & _) Hword.
  destruct word as [|c s]; [done|]. cbn [list_ascii_of_string] in *.
  destruct i as [|i]; cbn [list_insert string_of_list_ascii startsAscii].
  - by apply replacement_isAscii in Hrep.
  - exact Hword.
Qed.

(** Variants keep the first character within ASCII, so every word of the
    effective list is capitalised as the embedding has it. *)
Lemma getEffectiveWordList_startsAscii (activeWords : list string)
    (garbleMax : Z) :
  Forall (λ w, startsAscii w = true) activeWords →
  Forall (λ w, startsAscii w = true)
    (getEffectiveWordList activeWords garbleMax).
Proof.
  intros Hact. destruct (Z.lt_ge_cases 0 garbleMax) as [Hgm|Hgm].
  - destruct (getEffectiveWordList_on activeWords garbleMax Hgm)
      as (_ & Hel & _).
    apply Forall_forall. intros w [Hw | (b & Hb & Hv)]%Hel.
    + by eapply Forall_forall in Hact.
    + eapply Forall_forall in Hact; [|exact Hb].
      pose proof (garbledVariants_variant b) as Hall.
      eapply Forall_forall in Hall; [|exact Hv].
      by apply (variantOf_startsAscii b w).
  - by rewrite getEffectiveWordList_off.
Qed.

Lemma getEffectiveWordList_nil (garbleMax : Z) :
  getEffectiveWordList [] garbleMax = [].
Proof. unfold getEffectiveWordList. by destruct (garbleMax >? 0). Qed.

(** The range computed for the display, in terms of the shortest and the
    longest word. *)
Lemma lengthRange_Some (wordsForGen : list string) (count : Z)
    (separator includeSetting : string) :
  wordsForGen ≠ [] →
  ∃ minWord maxWord,
    Forall (λ w, minWord ≤ Z.of_nat (String.length w) ≤ maxWord) wordsForGen
    ∧ let joined :=
        Z.of_nat (String.length separator) * (count - 1) in
      let extra :=
        if negb (String.eqb includeSetting "none")
        then Z.of_nat (String.length separator) + 1 else 0 in
      lengthRange wordsForGen count separator includeSetting
      = Some (minWord * count + joined + extra,
              maxWord * count + joined + extra).
Proof.
  intros Hne. unfold lengthRange.
  destruct (map (λ w, Z.of_nat (String.length w)) wordsForGen) as [|l0 ls]
    eqn:Hls.
  { by apply map_eq_nil in Hls. }
  destruct (foldl_min_le ls l0) as [Hmin0 Hmin].
  destruct (foldl_max_ge ls l0) as [Hmax0 Hmax].
  exists (foldl Z.min l0 ls), (foldl Z.max l0 ls). split.
  - apply Forall_forall. intros w Hw.
    assert (Hin : Z.of_nat (String.length w) ∈ l0 :: ls).
    { rewrite <- Hls. apply list_elem_of_fmap. by exists w. }
    apply elem_of_cons in Hin as [->|Hin]; [lia|].
    eapply Forall_forall in Hmin; [|exact Hin].
    eapply Forall_forall in Hmax; [|exact Hin]. lia.
  - cbn zeta.
    assert (Hsep : ∀ base,
              (if negb (String.eqb separator "")
               then base + Z.of_nat (String.length separator) * (count - 1)
               else base)
              = base + Z.of_nat (String.length separator) * (count - 1)).
    { intros base. destruct (String.eqb_spec separator "") as [->|];
        cbn [negb]; [|done]. cbn [String.length]. lia. }
    rewrite !Hsep.
    destruct (negb (String.eqb includeSetting "none")); f_equal; f_equal; lia.
Qed.

(** The length of [count] capitalised words of the list, joined. *)
Lemma joined_length_bounds (wordsForGen picked : list string) (count : Z)
    (separator : string) (minWord maxWord : Z) :
  Forall (λ w, minWord ≤ Z.of_nat (String.length w) ≤ maxWord) wordsForGen →
  1 ≤ count → length picked = Z.to_nat count →
  Forall (λ w, w ∈ wordsForGen) picked →
  let joined := Z.of_nat (String.length separator) * (count - 1) in
  minWord * count + joined
  ≤ Z.of_nat (String.length (JS.join separator (map capitalize picked)))
  ≤ maxWord * count + joined.
Proof.
  intros Hrange Hcount Hlen Hpicked joined.
  assert (Hbounds : Forall (λ w, minWord ≤ Z.of_nat (String.length w) ≤ maxWord)
                      picked).
  { eapply Forall_impl; [exact Hpicked|]. intros w Hw. cbn beta in Hw.
    by eapply Forall_forall in Hrange. }
  pose proof (sum_lengths_bounds minWord maxWord picked Hbounds) as Hsum.
  rewrite Hlen, Z2Nat.id in Hsum by lia.
  rewrite join_length, sum_lengths_capitalize, length_map, Hlen.
  rewrite Nat2Z.inj_add, Nat2Z.inj_mul, Nat2Z.inj_sub by lia.
  rewrite Z2Nat.id by lia. unfold joined.
  change (Z.of_nat 1) with 1. lia.
Qed.

(** Every passphrase shown has a length within the range shown. *)
Lemma shown_length_in_range (c : Controls) (draws : list Z)
    (d : Display) (rest : list Z) (count : Z) :
  generateAndDisplay c draws = Returned (inr d) rest →
  wordCount c = Some count →
  0 ≤ garbleSetting c ≤ count →
  includeSetting c = "none"%string ∨ includeSetting c = "end"%string
  ∨ includeSetting c = "anywhere"%string →
  ∃ minLen maxLen,
    lengthRange (getEffectiveWordList (activeWords c) (garbleSetting c)) count
      (separatorValue c) (includeSetting c) = Some (minLen, maxLen)
    ∧ minLen ≤ Z.of_nat (String.length (passphraseText d)) ≤ maxLen.
Proof.
  intros (count' & p & r1 & Hwc & Hcount & Hne & Henough & Hgen & Hdigit & _)
    %generateAndDisplay_shown Hwc' Hgs Hincl.
  rewrite Hwc in Hwc'. injection Hwc' as ->.
  set (eff := getEffectiveWordList (activeWords c) (garbleSetting c)) in *.
  destruct (generatePassphrase_words _ _ _ _ _ _ _ _ _ Hgs Hgen)
    as (picked & -> & Hlen & HP).
  assert (Heff : Forall (λ w, w ∈ eff) picked).
  { eapply Forall_impl; [exact HP|]. intros w [Hw|Hw]; [done|].
    by apply getEffectiveWordList_subset. }
  assert (Heffne : eff ≠ []).
  { intros Hnil. rewrite Hnil in Henough. cbn [length] in Henough. lia. }
  destruct (lengthRange_Some eff count (separatorValue c) (includeSetting c)
              Heffne) as (minWord & maxWord & Hrange & Heq).
  cbn zeta in Heq. rewrite Heq.
  pose proof (joined_length_bounds eff picked count (separatorValue c)
                minWord maxWord Hrange Hcount Hlen Heff) as Hjoin.
  cbn zeta in Hjoin. eexists _, _. split; [done|].
  destruct Hincl as [Hnone | Hdigits].
  - rewrite Hnone in *. rewrite addDigit_none in Hdigit.
    injection Hdigit as <- _.
    change (negb ("none" =? "none")%string) with false. cbn match. lia.
  - apply addDigit_adds in Hdigit as [Hadd _]; [|done].
    assert (Hinc : negb (String.eqb (includeSetting c) "none") = true).
    { destruct Hdigits as [-> | ->]; reflexivity. }
    rewrite Hinc, Hadd, !Nat2Z.inj_add. change (Z.of_nat 1) with 1. lia.
Qed.

(** The page shows a passphrase on draws below [2^31]: one per word, one
    per turn of the shuffle, and up to two for the digit. *)
Lemma generateAndDisplay_runs (c : Controls) (count minLen maxLen : Z)
    (ds rest : list Z) :
  wordCount c = Some count →
  0 ≤ garbleSetting c ≤ count →
  includeSetting c = "none"%string ∨ includeSetting c = "end"%string
  ∨ includeSetting c = "anywhere"%string →
  1 ≤ count
    ≤ Z.of_nat (length (getEffectiveWordList (activeWords c) (garbleSetting c))) →
  Z.of_nat (length (activeWords c)) ≤ 4294967295 →
  Z.of_nat (length (getEffectiveWordList (activeWords c) (garbleSetting c)))
    ≤ 4294967295 →
  lengthRange (getEffectiveWordList (activeWords c) (garbleSetting c)) count
    (separatorValue c) (includeSetting c) = Some (minLen, maxLen) →
  maxLen < 4294967295 →
  length ds = Z.to_nat (2 * count + 1) →
  Forall (λ d, 0 ≤ d < 2147483648) ds →
  ∃ d rest', generateAndDisplay c (ds ++ rest) = Returned (inr d) rest'.
Proof.
  intros Hwc Hgs Hincl Hcount Hact Hefflen Hrange Hmax Hds Hall.
  set (eff := getEffectiveWordList (activeWords c) (garbleSetting c)) in *.
  assert (Heffne : eff ≠ []).
  { intros Hnil. rewrite Hnil in Hcount. cbn [length] in Hcount. lia. }
  assert (Hne : activeWords c ≠ []).
  { intros Hnil. apply Heffne. unfold eff.
    by rewrite Hnil, getEffectiveWordList_nil. }
  (* the draws of the builder and the draws of the digit step *)
  set (n := Z.to_nat (2 * count - 1)).
  assert (Hsplit : ds = take n ds ++ drop n ds) by (by rewrite take_drop).
  assert (Hl1 : length (take n ds) = n) by (rewrite length_take; lia).
  assert (Hl2 : length (drop n ds) = 2%nat) by (rewrite length_drop; lia).
  assert (Ha1 : Forall (λ d, 0 ≤ d < 2147483648) (take n ds))
    by (by apply Forall_take).
  assert (Ha2 : Forall (λ d, 0 ≤ d < 2147483648) (drop n ds))
    by (by apply Forall_drop).
  destruct (drop n ds) as [|d1 [|d2 [|? ?]]]; [done | done | | done].
  apply Forall_cons in Ha2 as [Hd1 Ha2]. apply Forall_cons in Ha2 as [Hd2 _].
  destruct (generatePassphrase_runs (activeWords c) count (separatorValue c)
              (garbleSetting c) (take n ds) (d1 :: d2 :: rest))
    as (picked & Hgen & Hlen & Hpicked); [lia | done | done | done | done
                                         | done | done |].
  set (p := JS.join (separatorValue c) (map capitalize picked)) in *.
  (* the length of the words joined *)
  destruct (lengthRange_Some eff count (separatorValue c) (includeSetting c)
              Heffne) as (minWord & maxWord & Hwords & Heq).
  cbn zeta in Heq. rewrite Heq in Hrange. injection Hrange as <- <-.
  pose proof (joined_length_bounds eff picked count (separatorValue c)
                minWord maxWord Hwords ltac:(lia) Hlen Hpicked) as Hjoin.
  cbn zeta in Hjoin. fold p in Hjoin.
  (* the run *)
  assert (Hdraws : ds ++ rest = take n ds ++ d1 :: d2 :: rest).
  { rewrite Hsplit at 1. by rewrite <- app_assoc. }
  rewrite Hdraws. unfold generateAndDisplay. rewrite Hwc. fold eff.
  destruct (Z.ltb_spec count 1); [lia|].
  destruct (Z.eqb_spec (Z.of_nat (length eff)) 0) as [Hz|_].
  { destruct eff; [done | cbn [length] in Hz; lia]. }
  destruct (Z.ltb_spec (Z.of_nat (length eff)) count); [lia|].
  unfold bind at 1. rewrite Hgen. unfold bind.
  destruct Hincl as [Hnone | [Hend | Hany]].
  - rewrite Hnone. rewrite addDigit_none. eauto.
  - rewrite Hend.
    pose proof (addDigit_end_run (separatorValue c) p d1 [] (d2 :: rest))
      as Hrun. cbn [app] in Hrun. rewrite Hrun.
    + eauto.
    + constructor.
    + rewrite uint32_small by lia. change (samplerLimit 10) with 4294967290.
      lia.
  - rewrite Hany. rewrite Hany in Hmax.
    change (negb ("anywhere" =? "none")%string) with true in Hmax.
    cbn match in Hmax.
    pose proof (split_length_le p (separatorValue c)) as Hparts.
    pose proof (addDigit_anywhere_run (separatorValue c) p d1 d2 [] [] rest)
      as Hrun. cbn zeta in Hrun. cbn [app] in Hrun. rewrite Hrun.
    + eauto.
    + constructor.
    + rewrite uint32_small by lia. change (samplerLimit 10) with 4294967290.
      lia.
    + constructor.
    + rewrite uint32_small by lia.
      pose proof (samplerLimit_half
                    (Z.of_nat (length (JS.split p (separatorValue c))) + 1)
                    ltac:(lia)). lia.
Qed.

(** X22. Let the active words start with an ASCII character, where
    capitalising a word keeps its length, the garble setting lie between 0
    and the count, and the number setting be one of the three the page
    offers. Then every word of the effective list starts with an ASCII
    character too; whenever a passphrase is shown, its length lies within
    the range of lengths computed for the display; and a passphrase is
    shown: with a count between 1 and the size of the effective list, lists
    of fewer than [2^32] words and a range that ends below [2^32 - 1], the
    page shows one on any [2 * count + 1] draws below [2^31]. *)
Theorem generateAndDisplay_length_in_range (c : Controls) (count : Z) :
  wordCount c = Some count →
  0 ≤ garbleSetting c ≤ count →
  includeSetting c = "none"%string ∨ includeSetting c = "end"%string
  ∨ includeSetting c = "anywhere"%string →
  Forall (λ w, startsAscii w = true) (activeWords c) →
  let wordsForGen := getEffectiveWordList (activeWords c) (garbleSetting c) in
  Forall (λ w, startsAscii w = true) wordsForGen
  ∧ (∀ draws d rest,
       generateAndDisplay c draws = Returned (inr d) rest →
       ∃ minLen maxLen,
         lengthRange wordsForGen count (separatorValue c) (includeSetting c)
         = Some (minLen, maxLen)
         ∧ minLen ≤ Z.of_nat (String.length (passphraseText d)) ≤ maxLen)
  ∧ (∀ minLen maxLen ds rest,
       1 ≤ count ≤ Z.of_nat (length wordsForGen) →
       Z.of_nat (length (activeWords c)) ≤ 4294967295 →
       Z.of_nat (length wordsForGen) ≤ 4294967295 →
       lengthRange wordsForGen count (separatorValue c) (includeSetting c)
       = Some (minLen, maxLen) →
       maxLen < 4294967295 →
       length ds = Z.to_nat (2 * count + 1) →
       Forall (λ d, 0 ≤ d < 2147483648) ds →
       ∃ d rest',
         generateAndDisplay c (ds ++ rest) = Returned (inr d) rest'
         ∧ minLen ≤ Z.of_nat (String.length (passphraseText d)) ≤ maxLen).
Proof.
  intros Hwc Hgs Hincl Hascii wordsForGen. split; [|split].
  - by apply getEffectiveWordList_startsAscii.
  - intros draws d rest Hrun. by apply (shown_length_in_range c draws d rest).
  - intros minLen maxLen ds rest Hcount Hact Hefflen Hrange Hmax Hds Hall.
    destruct (generateAndDisplay_runs c count minLen maxLen ds rest)
      as (d & rest' & Hrun); try done.
    exists d, rest'. split; [done|].
    destruct (shown_length_in_range c _ d rest' count Hrun Hwc Hgs Hincl)
      as (minLen' & maxLen' & Hrange' & Hbounds).
    unfold wordsForGen in Hrange. rewrite Hrange in Hrange'.
    by injection Hrange' as <- <-.
Qed.

Lemma generateAndDisplay_length_in_range_witness :
  ∃ d rest',
    generateAndDisplay
      {| activeWords := ["cat"; "horse"]; wordCount := Some 2;
         separatorValue := "-"; garbleSetting := 1;
         includeSetting := "end" |} ([2; 1; 0; 5; 9] ++ [])
    = Returned (inr d) rest'
    ∧ 9 ≤ Z.of_nat (String.length (passphraseText d)) ≤ 13.
Proof.
  destruct (generateAndDisplay_length_in_range
              {| activeWords := ["cat"; "horse"]; wordCount := Some 2;
                 separatorValue := "-"; garbleSetting := 1;
                 includeSetting := "end" |} 2)
    as (_ & _ & Hrun).
  - reflexivity.
  - cbn [garbleSetting]. lia.
  - right. by left.
  - repeat constructor.
  - apply (Hrun 9 13 [2; 1; 0; 5; 9] []).
    + by vm_compute.
    + cbn [activeWords length]. lia.
    + by vm_compute.
    + by vm_compute.
    + lia.
    + reflexivity.
    + repeat constructor; lia.
Defined.

(** ** Parsing the word list *)

Lemma toLowerCase_facts (c : ascii) :
  isListSeparator (JS.toLowerCase c) = isListSeparator c
  ∧ isWhiteSpace (JS.toLowerCase c) = isWhiteSpace c
  ∧ JS.toLowerCase (JS.toLowerCase c) = JS.toLowerCase c.
Proof. destruct c as [[] [] [] [] [] [] [] []]; by vm_compute. Qed.

Lemma dropSpaces_head (l : list ascii) : headNotSpace (dropSpaces l).
Proof.
  induction l as [|c l IH]; cbn [dropSpaces]; [done|].
  destruct (isWhiteSpace c) eqn:Hc; [done|]. exact Hc.
Qed.

Lemma dropSpaces_id (l : list ascii) : headNotSpace l → dropSpaces l = l.
Proof. destruct l as [|c l]; [done|]. cbn. by intros ->. Qed.

Lemma dropSpaces_suffix (l : list ascii) : ∃ pre, l = pre ++ dropSpaces l.
Proof.
  induction l as [|c l [pre IH]]; cbn [dropSpaces]; [by exists []|].
  destruct (isWhiteSpace c); [|by exists []].
  exists (c :: pre). cbn [app]. by rewrite <- IH.
Qed.

Lemma dropSpaces_map (f : ascii → ascii) (l : list ascii) :
  (∀ c, isWhiteSpace (f c) = isWhiteSpace c) →
  dropSpaces (map f l) = map f (dropSpaces l).
Proof.
  intros Hf. induction l as [|c l IH]; [done|].
  cbn [map dropSpaces]. rewrite Hf. by destruct (isWhiteSpace c).
Qed.

Lemma trimChars_map (f : ascii → ascii) (l : list ascii) :
  (∀ c, isWhiteSpace (f c) = isWhiteSpace c) →
  trimChars (map f l) = map f (trimChars l).
Proof.
  intros Hf. unfold trimChars.
  rewrite dropSpaces_map, <- map_rev, dropSpaces_map, <- map_rev by done. done.
Qed.

Lemma trimChars_idemp (l : list ascii) : trimChars (trimChars l) = trimChars l.
Proof.
  unfold trimChars.
  pose proof (dropSpaces_head l) as Ha.
  set (a := dropSpaces l) in *.
  pose proof (dropSpaces_head (rev a)) as Hb.
  destruct (dropSpaces_suffix (rev a)) as [pre Hpre].
  set (b := dropSpaces (rev a)) in *.
  assert (Harev : a = rev b ++ rev pre).
  { rewrite <- (rev_involutive a), Hpre, rev_app_distr. done. }
  assert (Hhead : headNotSpace (rev b)).
  { destruct (rev b) as [|c rb] eqn:Hrb; [done|].
    rewrite Harev in Ha. exact Ha. }
  rewrite (dropSpaces_id (rev b)) by done.
  rewrite rev_involutive. by rewrite (dropSpaces_id b).
Qed.

Lemma trimChars_sublist (P : ascii → Prop) (l : list ascii) :
  Forall P l → Forall P (trimChars l).
Proof.
  intros Hl. unfold trimChars.
  assert (Hdrop : ∀ k, Forall P k → Forall P (dropSpaces k)).
  { intros k Hk. destruct (dropSpaces_suffix k) as [pre Hpre].
    rewrite Hpre in Hk. by apply Forall_app in Hk as [_ ?]. }
  apply Forall_rev, Hdrop, Forall_rev, Hdrop, Hl.
Qed.

(** Every part cut by [splitRuns] is free of separator characters. *)
Lemma splitRuns_parts (s : string) :
  ∀ cur inRun,
    Forall (λ c, isListSeparator c = false) cur →
    Forall (λ w, Forall (λ c, isListSeparator c = false)
                   (list_ascii_of_string w))
           (splitRuns cur inRun s).
Proof.
  induction s as [|c s IH]; intros cur inRun Hcur; cbn [splitRuns].
  - constructor; [|constructor].
    rewrite list_ascii_of_string_of_list_ascii. by apply Forall_rev.
  - destruct (isListSeparator c) eqn:Hc.
    + destruct inRun; [by apply IH|].
      constructor; [|by apply IH].
      rewrite list_ascii_of_string_of_list_ascii. by apply Forall_rev.
    + apply IH. by constructor.
Qed.

Lemma filterSeen_spec (ws seen : list string) :
  NoDup seen →
  NoDup (filterSeen seen ws)
  ∧ ∀ w, w ∈ filterSeen seen ws → w ∈ ws ∧ (w ∉ seen) ∧ w ≠ ""%string.
Proof.
  revert seen. induction ws as [|x ws IH]; intros seen Hseen; cbn [filterSeen].
  - split; [constructor|]. intros w Hw. by apply elem_of_nil in Hw.
  - destruct (String.eqb_spec x "") as [->|Hx]; cbn [orb].
    + destruct (IH seen Hseen) as [Hnd Hel]. split; [done|].
      intros w Hw. destruct (Hel w Hw) as (? & ? & ?).
      split; [by apply list_elem_of_further | done].
    + case_bool_decide as Hin.
      * destruct (IH seen Hseen) as [Hnd Hel]. split; [done|].
        intros w Hw. destruct (Hel w Hw) as (? & ? & ?).
        split; [by apply list_elem_of_further | done].
      * destruct (IH (set_add x seen) (set_add_NoDup x seen Hseen))
          as [Hnd Hel].
        split.
        -- constructor; [|done]. intros Hxin.
           destruct (Hel x Hxin) as (_ & Hnot & _). apply Hnot.
           apply elem_of_set_add. by left.
        -- intros w [->|Hw]%elem_of_cons.
           ++ split; [apply list_elem_of_here | done].
           ++ destruct (Hel w Hw) as (? & Hnot & ?).
              split; [by apply list_elem_of_further|]. split; [|done].
              intros Hws. apply Hnot. apply elem_of_set_add. by right.
Qed.

Lemma parsed_word_clean (t : string) :
  Forall (λ c, isListSeparator c = false) (list_ascii_of_string t) →
  toLowerCaseString (trim t) ≠ ""%string →
  cleanWord (toLowerCaseString (trim t)).
Proof.
  intros Ht Hne. split; [done|]. unfold toLowerCaseString, trim.
  rewrite !list_ascii_of_string_of_list_ascii. split; [|split].
  - apply Forall_map. eapply Forall_impl; [by apply trimChars_sublist|].
    intros c Hc. cbn beta. by rewrite (proj1 (toLowerCase_facts c)).
  - f_equal. rewrite trimChars_map by (intros c; apply toLowerCase_facts).
    by rewrite trimChars_idemp.
  - f_equal. rewrite map_map. apply map_ext. intros c.
    apply toLowerCase_facts.
Qed.

Lemma parseWordList_result_clean (text : string) :
  NoDup (parseWordList text) ∧ Forall cleanWord (parseWordList text).
Proof.
  unfold parseWordList.
  destruct (filterSeen_spec
              (map (λ w, toLowerCaseString (trim w)) (splitRuns [] false text))
              [] (NoDup_nil_2)) as [Hnd Hel].
  split; [done|]. apply Forall_forall. intros w Hw.
  destruct (Hel w Hw) as ((t & -> & Ht)%list_elem_of_fmap & _ & Hne).
  apply parsed_word_clean; [|done].
  pose proof (splitRuns_parts text [] false (Forall_nil_2 _)) as Hparts.
  by eapply Forall_forall in Hparts.
Qed.

(** X23. Whatever the text, the parsed word list has no duplicates, and
    each of its words is non-empty, free of carriage returns, line feeds and
    commas, without white space at either end, and in lowercase. *)
Theorem parseWordList_clean (text : string) :
  NoDup (parseWordList text) ∧ Forall cleanWord (parseWordList text).
Proof. apply parseWordList_result_clean. Qed.

Lemma splitRuns_word (w : string) :
  Forall (λ c, isListSeparator c = false) (list_ascii_of_string w) →
  ∀ cur inRun tail,
    splitRuns cur inRun (w ++ tail)
    = splitRuns (rev (list_ascii_of_string w) ++ cur)
        (match w with EmptyString => inRun | String _ _ => false end) tail.
Proof.
  induction w as [|c w IH]; intros Hw cur inRun tail; [done|].
  cbn [list_ascii_of_string] in Hw. apply Forall_cons in Hw as [Hc Hw].
  rewrite string_app_cons. cbn [splitRuns]. rewrite Hc, IH by done.
  cbn [list_ascii_of_string rev]. rewrite <- app_assoc. cbn [app].
  by destruct w.
Qed.

Lemma splitRuns_join (ws : list string) :
  ws ≠ [] →
  Forall cleanWord ws →
  ∀ inRun, splitRuns [] inRun (JS.join (String "010" "") ws) = ws.
Proof.
  intros Hne Hall. induction Hall as [|w ws Hw Hall IH]; [done|].
  intros inRun. destruct Hw as (Hw0 & Hsep & _ & _).
  destruct ws as [|w2 ws].
  - cbn [JS.join String.concat]. rewrite <- (string_app_nil_r w) at 1.
    rewrite splitRuns_word by done. cbn [splitRuns].
    by rewrite app_nil_r, rev_involutive, string_of_list_ascii_of_string.
  - unfold JS.join in *. rewrite concat_cons by done.
    rewrite splitRuns_word by done.
    rewrite string_app_cons, string_app_nil_l.
    destruct w as [|c w]; [done|]. cbn [splitRuns].
    change (isListSeparator "010") with true. cbn match.
    rewrite IH by done.
    by rewrite app_nil_r, rev_involutive, string_of_list_ascii_of_string.
Qed.

Lemma filterSeen_id (ws seen : list string) :
  NoDup (seen ++ ws) →
  Forall (λ w, w ≠ ""%string) ws →
  filterSeen seen ws = ws.
Proof.
  revert seen. induction ws as [|w ws IH]; intros seen Hnd Hne; [done|].
  apply Forall_cons in Hne as [Hw Hne]. cbn [filterSeen].
  apply String.eqb_neq in Hw. rewrite Hw. cbn [orb].
  assert (Hnot : w ∉ seen).
  { apply NoDup_app in Hnd as (_ & Hdisj & _). intros Hin.
    apply (Hdisj w Hin). apply list_elem_of_here. }
  rewrite bool_decide_eq_false_2 by done. f_equal.
  rewrite set_add_fresh by done. apply IH; [|done].
  by rewrite <- app_assoc.
Qed.

Lemma parseWordList_join_clean (ws : list string) :
  NoDup ws → Forall cleanWord ws →
  parseWordList (JS.join (String "010" "") ws) = ws.
Proof.
  intros Hnd Hall. unfold parseWordList.
  assert (Hmap : map (λ w, toLowerCaseString (trim w)) ws = ws).
  { rewrite <- (map_id ws) at 2. apply map_ext_Forall.
    eapply Forall_impl; [exact Hall|]. intros w (_ & _ & Htrim & Hlow).
    cbn beta. by rewrite Htrim, Hlow. }
  destruct ws as [|w ws]; [done|].
  rewrite splitRuns_join, Hmap by done.
  apply filterSeen_id; [done|].
  eapply Forall_impl; [exact Hall|]. by intros x (? & _).
Qed.

(** X24. A duplicate-free list of clean words joined with line feeds parses
    back to itself; so parsing the text, writing the words to the text area
    one per line and parsing that again gives the same list. *)
Theorem parseWordList_roundtrip :
  (∀ ws, NoDup ws → Forall cleanWord ws →
         parseWordList (JS.join (String "010" "") ws) = ws)
  ∧ (∀ text,
       parseWordList (JS.join (String "010" "") (parseWordList text))
       = parseWordList text).
Proof.
  split; [apply parseWordList_join_clean|].
  intros text. destruct (parseWordList_result_clean text) as [Hnd Hall].
  by apply parseWordList_join_clean.
Qed.

Lemma filterSeen_complete (ws seen : list string) (w : string) :
  w ∈ ws → w ≠ ""%string → w ∉ seen → w ∈ filterSeen seen ws.
Proof.
  revert seen. induction ws as [|x ws IH]; intros seen Hin Hne Hnot.
  - by apply elem_of_nil in Hin.
  - cbn [filterSeen]. destruct (decide (x = w)) as [->|Hxw].
    + apply String.eqb_neq in Hne. rewrite Hne. cbn [orb].
      rewrite bool_decide_eq_false_2 by done. apply list_elem_of_here.
    + apply elem_of_cons in Hin as [->|Hin]; [done|].
      destruct (String.eqb x "" || bool_decide (x ∈ seen)); [by apply IH|].
      apply list_elem_of_further. apply IH; [done | done |].
      intros [?|?]%elem_of_set_add; [congruence | done].
Qed.

(** X25. No word is lost by parsing: the words of the parsed list are
    exactly the non-empty strings obtained from a part of the text between
    separators by trimming it and putting it in lowercase. *)
Theorem parseWordList_members (text w : string) :
  w ∈ parseWordList text
  ↔ w ≠ ""%string
    ∧ ∃ part, part ∈ splitRuns [] false text
              ∧ w = toLowerCaseString (trim part).
Proof.
  unfold parseWordList. split.
  - intros Hw.
    destruct (filterSeen_spec
                (map (λ p, toLowerCaseString (trim p)) (splitRuns [] false text))
                [] NoDup_nil_2) as [_ Hel].
    destruct (Hel w Hw) as ((part & -> & Hpart)%list_elem_of_fmap & _ & Hne).
    split; [done|]. by exists part.
  - intros (Hne & part & Hpart & ->).
    apply filterSeen_complete; [|done|apply not_elem_of_nil].
    apply list_elem_of_fmap. by exists part.
Qed.

(** ** More on the count, continued *)

Lemma sumZ_seq_mono (f : nat → Z) (m1 m2 : nat) :
  (∀ k, 0 ≤ f k) → (m1 ≤ m2)%nat →
  sumZ (map f (seq 0 m1)) ≤ sumZ (map f (seq 0 m2)).
Proof.
  intros Hf Hm. induction Hm as [|m2 Hm IH]; [lia|].
  rewrite seq_S, map_app, sumZ_app. cbn [map sumZ foldr Nat.add].
  specialize (Hf m2). lia.
Qed.

(** X26. Raising the garble setting never lowers the count: for a
    non-negative base size and word count, the count is monotone in
    [garbleMax]. *)
Theorem possibleCount_monotone (B E count g1 g2 : Z) (includeSetting : string) :
  0 ≤ B → 0 ≤ count → g1 ≤ g2 →
  possibleCount B E count g1 includeSetting
  ≤ possibleCount B E count g2 includeSetting.
Proof.
  intros HB Hc Hg. unfold possibleCount.
  set (Vn := if E >=? B then E - B else 0).
  assert (HV : 0 ≤ Vn) by (unfold Vn; destruct (Z.geb_spec E B); lia).
  rewrite !(sumTerms_sum Vn B count _ Hc 0%nat 0).
  pose proof (sumZ_seq_mono (λ i, spec_term B Vn count (Z.of_nat i))
                (Z.to_nat (Z.max 0 (Z.min g1 count) + 1))
                (Z.to_nat (Z.max 0 (Z.min g2 count) + 1))
                (λ k, spec_term_nonneg B Vn count (Z.of_nat k) HB HV)
                ltac:(lia)) as Hmono.
  pose proof (sumZ_terms_nonneg B Vn count
                (seq 0 (Z.to_nat (Z.max 0 (Z.min g1 count) + 1))) HB HV) as H1.
  destruct (negb _); [|lia].
  destruct (String.eqb includeSetting "anywhere"); nia.
Qed.

Lemma possibleCount_monotone_witness :
  possibleCount 3 5 2 0 "end" ≤ possibleCount 3 5 2 1 "end".
Proof. apply possibleCount_monotone; lia. Defined.

(** X27. [binomialBig] is symmetric and obeys Pascal's rule: for
    [0 <= k <= n], [binomialBig n k = binomialBig n (n - k)], and the
    entry [(n + 1, k + 1)] is the sum of the entries [(n, k)] and
    [(n, k + 1)]. *)
Theorem binomialBig_symmetry_pascal (n k : Z) :
  0 ≤ k ≤ n →
  binomialBig n k = binomialBig n (n - k)
  ∧ binomialBig (n + 1) (k + 1) = binomialBig n k + binomialBig n (k + 1).
Proof.
  intros Hk. rewrite !binomialBig_binomial by lia. split.
  - rewrite !binomial_in_range by lia.
    rewrite (choose_sym (Z.to_nat n) (Z.to_nat k)) by lia. do 2 f_equal. lia.
  - rewrite (binomial_in_range (n + 1)), (binomial_in_range n k) by lia.
    replace (Z.to_nat (n + 1)) with (Datatypes.S (Z.to_nat n)) by lia.
    replace (Z.to_nat (k + 1)) with (Datatypes.S (Z.to_nat k)) by lia.
    cbn [choose]. rewrite Nat2Z.inj_add. f_equal.
    destruct (Z.eq_dec k n) as [->|Hne].
    + unfold binomial. destruct (Z.ltb_spec (n + 1) 0); [lia|].
      destruct (Z.gtb_spec (n + 1) n); [|lia]. cbn [orb].
      rewrite choose_gt by lia. done.
    + rewrite binomial_in_range by lia. do 2 f_equal. lia.
Qed.

Lemma binomialBig_symmetry_pascal_witness :
  binomialBig 10 3 = binomialBig 10 (10 - 3)
  ∧ binomialBig (10 + 1) (3 + 1) = binomialBig 10 3 + binomialBig 10 (3 + 1).
Proof. apply binomialBig_symmetry_pascal. lia. Defined.
